(** * The asynchronous message queue of PulseAudio (pulsecore/asyncmsgq.c)
      and its use by the core (pulsecore/core.c)

    A shallow embedding of [pa_asyncmsgq] and of the functions of the
    core (its creation and destruction, its readiness callback, its
    message handler and its quit timer), and the properties of the
    queue's design document and of the code proved about them.

    Memory is explicit: item records live in a store indexed by address,
    reference counts, semaphores and the free list are state, and every
    call to a collaborator (free list, allocator, reference counting,
    mutex, semaphore, the underlying asyncq, message handlers, releasers,
    the main loop and the other modules of the server) is appended to a
    call log, so that "called exactly once" and "called in this order"
    are statements about states and logs. *)

From stdpp Require Import base option list gmap.
From Stdlib Require Import ZArith Lia.

Local Open Scope Z_scope.

(** ** Data *)

(** Addresses.  A nullable C pointer is an [option ptr]; [None] is NULL. *)
Definition ptr := positive.

(** [pa_memchunk] (pulsecore/memchunk.h): a window into a reference
    counted memory block. *)
Module Chunk.
Record pa_memchunk := Mk {
  memblock : option ptr;
  index : Z;
  length : Z
}.
End Chunk.
Abbreviation pa_memchunk := Chunk.pa_memchunk.

(** [struct asyncmsgq_item] *)
Module Item.
Record asyncmsgq_item := Mk {
  code : Z;
  object : option ptr;
  userdata : option ptr;
  free_cb : option ptr;
  offset : Z;
  memchunk : pa_memchunk;
  semaphore : option ptr;
  ret : Z
}.

Definition set_code v i := Mk v (object i) (userdata i) (free_cb i) (offset i) (memchunk i) (semaphore i) (ret i).
Definition set_object v i := Mk (code i) v (userdata i) (free_cb i) (offset i) (memchunk i) (semaphore i) (ret i).
Definition set_userdata v i := Mk (code i) (object i) v (free_cb i) (offset i) (memchunk i) (semaphore i) (ret i).
Definition set_free_cb v i := Mk (code i) (object i) (userdata i) v (offset i) (memchunk i) (semaphore i) (ret i).
Definition set_offset v i := Mk (code i) (object i) (userdata i) (free_cb i) v (memchunk i) (semaphore i) (ret i).
Definition set_memchunk v i := Mk (code i) (object i) (userdata i) (free_cb i) (offset i) v (semaphore i) (ret i).
Definition set_semaphore v i := Mk (code i) (object i) (userdata i) (free_cb i) (offset i) (memchunk i) v (ret i).
Definition set_ret v i := Mk (code i) (object i) (userdata i) (free_cb i) (offset i) (memchunk i) (semaphore i) v.

Arguments set_code v i /.
Arguments set_object v i /.
Arguments set_userdata v i /.
Arguments set_free_cb v i /.
Arguments set_offset v i /.
Arguments set_memchunk v i /.
Arguments set_semaphore v i /.
Arguments set_ret v i /.
End Item.
Abbreviation asyncmsgq_item := Item.asyncmsgq_item.

(** Calls to collaborators, in the order they are made. *)
Inductive event :=
| EvFlistPop (r : option ptr)
| EvFlistPush (i : ptr) (r : Z)
| EvXnew (i : ptr)
| EvXfree (i : ptr)
| EvMsgobjectRef (o : ptr)
| EvMsgobjectUnref (o : ptr)
| EvMemblockRef (b : ptr)
| EvMemblockUnref (b : ptr)
| EvFreeCb (cb : ptr) (userdata : option ptr)
| EvProcessMsg (o : ptr) (code : Z) (userdata : option ptr) (offset : Z)
             (chunk : option pa_memchunk) (r : Z)
| EvMutexLock
| EvMutexUnlock
| EvPush (i : ptr) (wait : bool) (r : Z)
| EvPop (wait : bool) (r : option ptr)
| EvBeforePoll (r : Z)
| EvAfterPoll
| EvSemaphoreNew (s : ptr)
| EvSemaphoreWait (s : ptr)
| EvSemaphorePost (s : ptr)
| EvSemaphoreFree (s : ptr)
| EvAsyncqFree
| EvMutexFree
| EvQueueFree.

(** The calls of after_poll and before_poll. *)
Definition is_poll_call (e : event) : bool :=
  match e with
  | EvAfterPoll | EvBeforePoll _ => true
  | _ => false
  end.

(** ** Collaborators that are not part of asyncmsgq.c *)

(** Modelled from the spec: the item pool of its section 4.2
    (pulsecore/flist.c is not among the sources), a size-bounded free list
    of item records.  Acquiring takes a record from the list or
    heap-allocates; releasing returns the record to the list or, if the
    list is full, heap-frees.  The list is kept as a stack. *)
Record pa_flist := {
  flist_cells : list ptr;
  flist_size : nat
}.

(** The interface of the underlying queue (pulsecore/asyncq.c is not
    among the sources): the embedding of asyncmsgq.c is written against
    this interface, as the C code is.  A result of [None] for push and
    pop means that the call does not return in the current state (the
    caller stays suspended); pop returns [Some (None, q)] for NULL. *)
Class AsyncQ (Q : Type) := {
  pa_asyncq_push : Q → ptr → bool → option (Z * Q);
  pa_asyncq_pop : Q → bool → option (option ptr * Q);
  pa_asyncq_before_poll : Q → Z * Q;
  pa_asyncq_after_poll : Q → Q;
  pa_asyncq_get_fd : Q → Z
}.

(** Message targets and releasers are code of the queue's users.  They
    act on a state [E] of their own: [process_msg o] is the handler
    stored in the target [o], [run_free_cb cb] the releaser at address
    [cb].  [indeterminate] is the content of memory that was just
    allocated and not yet written. *)
Class Users (E : Type) := {
  process_msg : ptr → Z → option ptr → Z → option pa_memchunk → E → Z * E;
  run_free_cb : ptr → option ptr → E → E;
  indeterminate : E → asyncmsgq_item
}.

(** Modelled from the spec: [pa_memchunk_reset] (pulsecore/memchunk.c is
    not among the sources) makes the chunk the absent chunk: no block,
    offset and length zero. *)
Definition pa_memchunk_reset : pa_memchunk := Chunk.Mk None 0 0.

(** [PA_IO_EVENT_INPUT] of pulse/mainloop-api.h. *)
Definition PA_IO_EVENT_INPUT : Z := 1.

(** ** Outcomes of a call

    A call made in a state of type [W] returns a value and a new state,
    or aborts on a failed assertion, or suspends its caller, or uses an
    address that holds no record.  Loops carry an iteration bound. *)
Inductive outcome (W A : Type) :=
| Returns (x : A) (w : W)
| AssertFails
| Blocks (w : W)
| Faults
| OutOfFuel.
Arguments Returns {W A} x w.
Arguments AssertFails {W A}.
Arguments Blocks {W A} w.
Arguments Faults {W A}.
Arguments OutOfFuel {W A}.

Definition pure {W A} (x : A) : W → outcome W A := fun w => Returns x w.

Definition bind {W A B} (m : W → outcome W A) (k : A → W → outcome W B)
  : W → outcome W B := fun w =>
  match m w with
  | Returns x w' => k x w'
  | AssertFails => AssertFails
  | Blocks w' => Blocks w'
  | Faults => Faults
  | OutOfFuel => OutOfFuel
  end.

Notation "'let*' x ':=' m 'in' k" := (bind m (fun x => k))
  (at level 10, x pattern, m at level 100, k at level 200).
Notation "m ';;' k" := (bind m (fun _ => k))
  (at level 100, k at level 200, right associativity).

(** [pa_assert] and [pa_assert_se] of pulsecore/macro.h. *)
Definition pa_assert {W} (b : bool) : W → outcome W unit := fun w =>
  if b then Returns tt w else AssertFails.

Section AsyncMsgQ.
Context {Q E : Type} `{!AsyncQ Q} `{!Users E}.

(** [struct pa_asyncmsgq].  The writer mutex is represented by whether
    it is held. *)
Record pa_asyncmsgq := {
  asyncq : Q;
  mutex : bool;
  current : option ptr
}.

(** The state the queue's functions run in: the queue structure [a],
    the memory holding item records (heap and senders' stack frames),
    the static free list, the reference counts of message targets and
    memory blocks, the semaphores with their counters, the state of the
    users' code and the call log. *)
Record world := {
  msgq : pa_asyncmsgq;
  items : gmap ptr asyncmsgq_item;
  flist : pa_flist;
  msgobject_refs : gmap ptr Z;
  memblock_refs : gmap ptr Z;
  semaphores : gmap ptr nat;
  env : E;
  trace : list event
}.

Definition set_msgq v w := Build_world v (items w) (flist w) (msgobject_refs w) (memblock_refs w) (semaphores w) (env w) (trace w).
Definition set_items v w := Build_world (msgq w) v (flist w) (msgobject_refs w) (memblock_refs w) (semaphores w) (env w) (trace w).
Definition set_flist v w := Build_world (msgq w) (items w) v (msgobject_refs w) (memblock_refs w) (semaphores w) (env w) (trace w).
Definition set_msgobject_refs v w := Build_world (msgq w) (items w) (flist w) v (memblock_refs w) (semaphores w) (env w) (trace w).
Definition set_memblock_refs v w := Build_world (msgq w) (items w) (flist w) (msgobject_refs w) v (semaphores w) (env w) (trace w).
Definition set_semaphores v w := Build_world (msgq w) (items w) (flist w) (msgobject_refs w) (memblock_refs w) v (env w) (trace w).
Definition set_env v w := Build_world (msgq w) (items w) (flist w) (msgobject_refs w) (memblock_refs w) (semaphores w) v (trace w).
Definition log e w := Build_world (msgq w) (items w) (flist w) (msgobject_refs w) (memblock_refs w) (semaphores w) (env w) (trace w ++ [e]).

Definition set_asyncq v (a : pa_asyncmsgq) := Build_pa_asyncmsgq v (mutex a) (current a).
Definition set_mutex v (a : pa_asyncmsgq) := Build_pa_asyncmsgq (asyncq a) v (current a).
Definition set_current v (a : pa_asyncmsgq) := Build_pa_asyncmsgq (asyncq a) (mutex a) v.

Definition M (A : Type) := world → outcome world A.

Definition skip : M unit := pure tt.

(** A block of statements, executed in program order. *)
Fixpoint in_order (l : list (M unit)) : M unit :=
  match l with
  | [] => skip
  | m :: l =>
      match l with
      | [] => m
      | _ :: _ => m ;; in_order l
      end
  end.

(** ** Memory holding item records *)

(** A read of the record at [p]. *)
Definition load_item (p : ptr) : M asyncmsgq_item := fun w =>
  match items w !! p with
  | Some it => Returns it w
  | None => Faults
  end.

(** A store to one field of the record at [p]. *)
Definition modify_item (p : ptr) (f : asyncmsgq_item → asyncmsgq_item) : M unit := fun w =>
  match items w !! p with
  | Some it => Returns tt (set_items (<[p := f it]> (items w)) w)
  | None => Faults
  end.

(** Modelled from the spec: [pa_xnew(struct asyncmsgq_item, 1)]
    (pulse/xmalloc.c is not among the sources), the "heap-allocates" of
    the pool's acquire: a record at an address not in use, with
    indeterminate contents. *)
Definition pa_xnew_item : M ptr := fun w =>
  let p := fresh (dom (items w)) in
  Returns p (log (EvXnew p) (set_items (<[p := indeterminate (env w)]> (items w)) w)).

(** Modelled from the spec: [pa_xfree] on an item record, the
    "heap-frees" of the pool's release: the record is gone from memory. *)
Definition pa_xfree_item (p : ptr) : M unit := fun w =>
  match items w !! p with
  | Some _ => Returns tt (log (EvXfree p) (set_items (delete p (items w)) w))
  | None => Faults
  end.

(** A local [struct asyncmsgq_item] of a caller: a record in the caller's
    stack frame, at an address not in use, released when the caller
    returns. *)
Definition stack_item : M ptr := fun w =>
  let p := fresh (dom (items w)) in
  Returns p (set_items (<[p := indeterminate (env w)]> (items w)) w).

(** The caller's frame is left. *)
Definition stack_release (p : ptr) : M unit := fun w =>
  Returns tt (set_items (delete p (items w)) w).

(** ** The item pool: [PA_STATIC_FLIST_GET(asyncmsgq)] *)

(** Modelled from the spec: [pa_flist_pop], the pool's acquire without
    its heap fall-back: a record from the list, or NULL when the list is
    empty. *)
Definition pa_flist_pop : M (option ptr) := fun w =>
  match flist_cells (flist w) with
  | [] => Returns None (log (EvFlistPop None) w)
  | p :: l =>
      Returns (Some p)
        (log (EvFlistPop (Some p))
           (set_flist {| flist_cells := l; flist_size := flist_size (flist w) |} w))
  end.

(** Modelled from the spec: [pa_flist_push], the pool's release without
    its heap fall-back: the record goes onto the list and the result is
    0, or the list is full and the result is negative. *)
Definition pa_flist_push (p : ptr) : M Z := fun w =>
  if (length (flist_cells (flist w)) <? flist_size (flist w))%nat
  then Returns 0
         (log (EvFlistPush p 0)
            (set_flist {| flist_cells := p :: flist_cells (flist w);
                          flist_size := flist_size (flist w) |} w))
  else Returns (-1) (log (EvFlistPush p (-1)) w).

(** ** Reference counts

    pulsecore/msgobject.h and pulsecore/memblock.c are not among the
    sources.  The design document has message targets and memory blocks
    expose "atomic ref/unref", and the queue "increment" and "decrement"
    the "refcount".  What unref does to an object whose count reaches
    zero is not part of the model. *)

(** The count of [o]; a count that was never set is 0. *)
Definition refcnt (m : gmap ptr Z) (o : ptr) : Z := default 0 (m !! o).

(** Modelled from the spec: [pa_msgobject_ref] increments the count of
    the target and returns the target. *)
Definition pa_msgobject_ref (o : ptr) : M (option ptr) := fun w =>
  Returns (Some o)
    (log (EvMsgobjectRef o)
       (set_msgobject_refs (<[o := refcnt (msgobject_refs w) o + 1]> (msgobject_refs w)) w)).

(** Modelled from the spec: [pa_msgobject_unref] decrements the count
    of the target. *)
Definition pa_msgobject_unref (o : ptr) : M unit := fun w =>
  Returns tt
    (log (EvMsgobjectUnref o)
       (set_msgobject_refs (<[o := refcnt (msgobject_refs w) o - 1]> (msgobject_refs w)) w)).

(** Modelled from the spec: [pa_msgobject_assert_ref(o)] asserts that
    the target is referenced, that is, that its count is positive. *)
Definition pa_msgobject_assert_ref (o : ptr) : M unit := fun w =>
  pa_assert (0 <? refcnt (msgobject_refs w) o) w.

(** Modelled from the spec: [pa_memblock_ref] increments the count of
    the block. *)
Definition pa_memblock_ref (b : ptr) : M unit := fun w =>
  Returns tt
    (log (EvMemblockRef b)
       (set_memblock_refs (<[b := refcnt (memblock_refs w) b + 1]> (memblock_refs w)) w)).

(** Modelled from the spec: [pa_memblock_unref] decrements the count of
    the block. *)
Definition pa_memblock_unref (b : ptr) : M unit := fun w =>
  Returns tt
    (log (EvMemblockUnref b)
       (set_memblock_refs (<[b := refcnt (memblock_refs w) b - 1]> (memblock_refs w)) w)).

(** ** The writer mutex [a->mutex] *)

(** Modelled from the spec: [pa_mutex_lock] on a "non-recursive" mutex
    (pulsecore/mutex.h is not among the sources).  Locking a held mutex
    suspends the caller. *)
Definition pa_mutex_lock : M unit := fun w =>
  if mutex (msgq w) then Blocks w
  else Returns tt (log EvMutexLock (set_msgq (set_mutex true (msgq w)) w)).

(** Modelled from the spec: [pa_mutex_unlock]. *)
Definition pa_mutex_unlock : M unit := fun w =>
  Returns tt (log EvMutexUnlock (set_msgq (set_mutex false (msgq w)) w)).

(** ** Semaphores

    pulsecore/semaphore.h is not among the sources.  The design document
    has a "binary semaphore: operations new(initial), wait, post, free
    with standard signaling semantics".  A semaphore is a counter. *)

(** Modelled from the spec: [pa_semaphore_new(value)] makes a semaphore
    with the given count, at an address not in use. *)
Definition pa_semaphore_new (value : nat) : M (option ptr) := fun w =>
  let s := fresh (dom (semaphores w)) in
  Returns (Some s)
    (log (EvSemaphoreNew s) (set_semaphores (<[s := value]> (semaphores w)) w)).

(** Modelled from the spec: [pa_semaphore_wait] takes one from the
    count, and suspends the caller while the count is 0. *)
Definition pa_semaphore_wait (s : ptr) : M unit := fun w =>
  match semaphores w !! s with
  | None => Faults
  | Some O => Blocks w
  | Some (S n) =>
      Returns tt (log (EvSemaphoreWait s) (set_semaphores (<[s := n]> (semaphores w)) w))
  end.

(** Modelled from the spec: [pa_semaphore_post] adds one to the count. *)
Definition pa_semaphore_post (s : ptr) : M unit := fun w =>
  match semaphores w !! s with
  | None => Faults
  | Some n =>
      Returns tt (log (EvSemaphorePost s) (set_semaphores (<[s := S n]> (semaphores w)) w))
  end.

(** Modelled from the spec: [pa_semaphore_free] destroys the semaphore. *)
Definition pa_semaphore_free (s : ptr) : M unit := fun w =>
  match semaphores w !! s with
  | None => Faults
  | Some _ =>
      Returns tt (log (EvSemaphoreFree s) (set_semaphores (delete s (semaphores w)) w))
  end.

(** ** Calls on the underlying queue [a->asyncq]

    Each call goes to the interface [AsyncQ] with the asyncq of the
    queue structure, stores what the call leaves of it, and is logged. *)

(** [pa_asyncq_push(a->asyncq, i, wait)] *)
Definition asyncq_push (i : ptr) (wait : bool) : M Z := fun w =>
  match pa_asyncq_push (asyncq (msgq w)) i wait with
  | None => Blocks w
  | Some (r, q) => Returns r (log (EvPush i wait r) (set_msgq (set_asyncq q (msgq w)) w))
  end.

(** [pa_asyncq_pop(a->asyncq, wait)] *)
Definition asyncq_pop (wait : bool) : M (option ptr) := fun w =>
  match pa_asyncq_pop (asyncq (msgq w)) wait with
  | None => Blocks w
  | Some (r, q) => Returns r (log (EvPop wait r) (set_msgq (set_asyncq q (msgq w)) w))
  end.

(** [pa_asyncq_before_poll(a->asyncq)] *)
Definition asyncq_before_poll : M Z := fun w =>
  let rq := pa_asyncq_before_poll (asyncq (msgq w)) in
  Returns rq.1 (log (EvBeforePoll rq.1) (set_msgq (set_asyncq rq.2 (msgq w)) w)).

(** [pa_asyncq_after_poll(a->asyncq)] *)
Definition asyncq_after_poll : M unit := fun w =>
  Returns tt
    (log EvAfterPoll (set_msgq (set_asyncq (pa_asyncq_after_poll (asyncq (msgq w))) (msgq w)) w)).

(** [pa_asyncq_get_fd(a->asyncq)] *)
Definition asyncq_get_fd : M Z := fun w =>
  Returns (pa_asyncq_get_fd (asyncq (msgq w))) w.

(** ** Calls into the users' code *)

(** [free_cb(userdata)] *)
Definition call_free_cb (cb : ptr) (userdata : option ptr) : M unit := fun w =>
  Returns tt (log (EvFreeCb cb userdata) (set_env (run_free_cb cb userdata (env w)) w)).

(** [object->process_msg(object, code, userdata, offset, memchunk)] *)
Definition call_process_msg (o : ptr) (code : Z) (userdata : option ptr) (offset : Z)
    (chunk : option pa_memchunk) : M Z := fun w =>
  let re := process_msg o code userdata offset chunk (env w) in
  Returns re.1 (log (EvProcessMsg o code userdata offset chunk re.1) (set_env re.2 w)).

(** ** asyncmsgq.c

    The functions take the queue [a] as the structure in the state;
    [pa_assert(a)] holds for it.  Calls of [pa_log_debug] are left out. *)

(** [a->current] *)
Definition get_current : M (option ptr) := fun w => Returns (current (msgq w)) w.

(** [a->current = c] *)
Definition put_current (c : option ptr) : M unit := fun w =>
  Returns tt (set_msgq (set_current c (msgq w)) w).

(** The test of a pointer in a condition. *)
Definition nonnull {A} (p : option A) : bool :=
  match p with Some _ => true | None => false end.

(** The loop of [pa_asyncmsgq_free]; [fuel] bounds its iterations. *)
Fixpoint pa_asyncmsgq_free_loop (fuel : nat) : M unit :=
  match fuel with
  | O => fun _ => OutOfFuel
  | S fuel =>
      let* i := asyncq_pop false in
      match i with
      | None => skip
      | Some i =>
          let* it := load_item i in
          pa_assert (negb (nonnull (Item.semaphore it))) ;;
          match Item.object it with
          | Some o => pa_msgobject_unref o
          | None => skip
          end ;;
          match Chunk.memblock (Item.memchunk it) with
          | Some b => pa_memblock_unref b
          | None => skip
          end ;;
          match Item.free_cb it with
          | Some cb => call_free_cb cb (Item.userdata it)
          | None => skip
          end ;;
          let* r := pa_flist_push i in
          (if r <? 0 then pa_xfree_item i else skip) ;;
          pa_asyncmsgq_free_loop fuel
      end
  end.

(** [pa_asyncmsgq_free]: the loop, then [pa_asyncq_free(a->asyncq,
    NULL)], [pa_mutex_free(a->mutex)] and [pa_xfree(a)]. *)
Definition pa_asyncmsgq_free (fuel : nat) : M unit :=
  pa_asyncmsgq_free_loop fuel ;;
  (fun w => Returns tt (log EvAsyncqFree w)) ;;
  (fun w => Returns tt (log EvMutexFree w)) ;;
  (fun w => Returns tt (log EvQueueFree w)).

Definition pa_asyncmsgq_post (object : option ptr) (code : Z) (userdata : option ptr)
    (offset : Z) (chunk : option pa_memchunk) (free_cb : option ptr) : M unit :=
  let* i :=
    (let* p := pa_flist_pop in
     match p with
     | Some i => pure i
     | None => pa_xnew_item
     end) in
  modify_item i (Item.set_code code) ;;
  let* o := match object with
            | Some o => pa_msgobject_ref o
            | None => pure None
            end in
  modify_item i (Item.set_object o) ;;
  modify_item i (Item.set_userdata userdata) ;;
  modify_item i (Item.set_free_cb free_cb) ;;
  modify_item i (Item.set_offset offset) ;;
  match chunk with
  | Some c =>
      pa_assert (nonnull (Chunk.memblock c)) ;;
      modify_item i (Item.set_memchunk c) ;;
      let* it := load_item i in
      match Chunk.memblock (Item.memchunk it) with
      | Some b => pa_memblock_ref b
      | None => fun _ => Faults
      end
  | None => modify_item i (Item.set_memchunk pa_memchunk_reset)
  end ;;
  modify_item i (Item.set_semaphore None) ;;
  pa_mutex_lock ;;
  let* r := asyncq_push i true in
  pa_assert (r =? 0) ;;
  pa_mutex_unlock.

(** [pa_asyncmsgq_send] up to the release of the mutex: the item [i] in
    the caller's frame is filled in and pushed.  Returns the address of
    [i]. *)
Definition pa_asyncmsgq_send_push (object : option ptr) (code : Z) (userdata : option ptr)
    (offset : Z) (chunk : option pa_memchunk) : M ptr :=
  let* i := stack_item in
  modify_item i (Item.set_code code) ;;
  modify_item i (Item.set_object object) ;;
  modify_item i (Item.set_userdata userdata) ;;
  modify_item i (Item.set_free_cb None) ;;
  modify_item i (Item.set_ret (-1)) ;;
  modify_item i (Item.set_offset offset) ;;
  match chunk with
  | Some c =>
      pa_assert (nonnull (Chunk.memblock c)) ;;
      modify_item i (Item.set_memchunk c)
  | None => modify_item i (Item.set_memchunk pa_memchunk_reset)
  end ;;
  let* s := pa_semaphore_new 0 in
  modify_item i (Item.set_semaphore s) ;;
  pa_assert (nonnull s) ;;
  pa_mutex_lock ;;
  let* r := asyncq_push i true in
  pa_assert (r =? 0) ;;
  pa_mutex_unlock ;;
  pure i.

(** The rest of [pa_asyncmsgq_send], from [pa_semaphore_wait] on, for
    the item [i] of the caller's frame. *)
Definition pa_asyncmsgq_send_wait (i : ptr) : M Z :=
  let* it := load_item i in
  match Item.semaphore it with
  | Some s => pa_semaphore_wait s
  | None => fun _ => Faults
  end ;;
  let* it := load_item i in
  match Item.semaphore it with
  | Some s => pa_semaphore_free s
  | None => fun _ => Faults
  end ;;
  let* it := load_item i in
  stack_release i ;;
  pure (Item.ret it).

Definition pa_asyncmsgq_send (object : option ptr) (code : Z) (userdata : option ptr)
    (offset : Z) (chunk : option pa_memchunk) : M Z :=
  let* i := pa_asyncmsgq_send_push object code userdata offset chunk in
  pa_asyncmsgq_send_wait i.

(** The out-parameters of [pa_asyncmsgq_get].  An argument is [None] for
    a NULL pointer and [Some v] for a pointer to a variable of the caller
    that holds [v]; the record returned by [pa_asyncmsgq_get] gives the
    variables after the call. *)
Record out_params := {
  out_object : option (option ptr);
  out_code : option Z;
  out_userdata : option (option ptr);
  out_offset : option Z;
  out_chunk : option pa_memchunk
}.

Definition pa_asyncmsgq_get (object : option (option ptr)) (code : option Z)
    (userdata : option (option ptr)) (offset : option Z) (chunk : option pa_memchunk)
    (wait : bool) : M (Z * out_params) :=
  pa_assert (nonnull code) ;;
  let* c := get_current in
  pa_assert (negb (nonnull c)) ;;
  let* c := asyncq_pop wait in
  put_current c ;;
  match c with
  | None => pure (-1, Build_out_params object code userdata offset chunk)
  | Some c =>
      let* it := load_item c in
      let code := Some (Item.code it) in
      let userdata := if nonnull userdata then Some (Item.userdata it) else None in
      let offset := if nonnull offset then Some (Item.offset it) else None in
      let object := if nonnull object then Some (Item.object it) else None in
      match object with
      | Some (Some o) => pa_msgobject_assert_ref o
      | _ => skip
      end ;;
      let chunk := if nonnull chunk then Some (Item.memchunk it) else None in
      pure (0, Build_out_params object code userdata offset chunk)
  end.

(** The branch of [pa_asyncmsgq_done] for an in-flight item [c] with the
    reply semaphore [s]: the statements [a->current->ret = ret;] and
    [pa_semaphore_post(a->current->semaphore);], in program order.  The
    sender of the item is another thread, which can run between any two
    statements of the consumer. *)
Definition done_reply (c s : ptr) (ret : Z) : list (M unit) :=
  [ modify_item c (Item.set_ret ret);
    pa_semaphore_post s ].

Definition pa_asyncmsgq_done (ret : Z) : M unit :=
  let* c := get_current in
  pa_assert (nonnull c) ;;
  match c with
  | None => fun _ => Faults
  | Some c =>
      let* it := load_item c in
      match Item.semaphore it with
      | Some s => in_order (done_reply c s ret)
      | None =>
          match Item.free_cb it with
          | Some cb => call_free_cb cb (Item.userdata it)
          | None => skip
          end ;;
          match Item.object it with
          | Some o => pa_msgobject_unref o
          | None => skip
          end ;;
          match Chunk.memblock (Item.memchunk it) with
          | Some b => pa_memblock_unref b
          | None => skip
          end ;;
          let* r := pa_flist_push c in
          if r <? 0 then pa_xfree_item c else skip
      end
  end ;;
  put_current None.

Definition pa_asyncmsgq_dispatch (object : option ptr) (code : Z) (userdata : option ptr)
    (offset : Z) (memchunk : option pa_memchunk) : M Z :=
  match object with
  | Some o => call_process_msg o code userdata offset memchunk
  | None => pure 0
  end.

(** The local variables [o], [c], [data], [offset] and [chunk] of
    [pa_asyncmsgq_wait_for] and [asyncmsgq_cb] before the call of
    [pa_asyncmsgq_get]: their contents are indeterminate and are not read
    before [pa_asyncmsgq_get] has written them. *)
Definition locals : out_params :=
  Build_out_params (Some None) (Some 0) (Some None) (Some 0) (Some pa_memchunk_reset).

Definition get_into_locals (wait : bool) : M (Z * out_params) :=
  pa_asyncmsgq_get (out_object locals) (out_code locals) (out_userdata locals)
    (out_offset locals) (out_chunk locals) wait.

(** [pa_asyncmsgq_dispatch(o, c, data, offset, &chunk)] on the variables
    written by [pa_asyncmsgq_get]. *)
Definition dispatch_locals (l : out_params) : M Z :=
  pa_asyncmsgq_dispatch (default None (out_object l)) (default 0 (out_code l))
    (default None (out_userdata l)) (default 0 (out_offset l)) (out_chunk l).

(** [pa_asyncmsgq_wait_for]; [fuel] bounds the iterations of its loop. *)
Fixpoint pa_asyncmsgq_wait_for (fuel : nat) (code : Z) : M Z :=
  match fuel with
  | O => fun _ => OutOfFuel
  | S fuel =>
      let* rl := get_into_locals true in
      if rl.1 <? 0 then pure (-1)
      else
        let* ret := dispatch_locals rl.2 in
        pa_asyncmsgq_done ret ;;
        if bool_decide (default 0 (out_code rl.2) ≠ code)
        then pa_asyncmsgq_wait_for fuel code
        else pure 0
  end.

Definition pa_asyncmsgq_get_fd : M Z := asyncq_get_fd.

Definition pa_asyncmsgq_before_poll : M Z := asyncq_before_poll.

Definition pa_asyncmsgq_after_poll : M unit := asyncq_after_poll.

(** ** core.c: the readiness callback of the core's queue *)

(** The inner loop of [asyncmsgq_cb]:
    [while (pa_asyncmsgq_get(..., 0) == 0) { dispatch; done }]. *)
Fixpoint asyncmsgq_cb_drain (fuel : nat) : M unit :=
  match fuel with
  | O => fun _ => OutOfFuel
  | S fuel =>
      let* rl := get_into_locals false in
      if rl.1 =? 0 then
        let* ret := dispatch_locals rl.2 in
        pa_asyncmsgq_done ret ;;
        asyncmsgq_cb_drain fuel
      else skip
  end.

(** The outer loop [for (;;)] of [asyncmsgq_cb]. *)
Fixpoint asyncmsgq_cb_loop (fuel : nat) : M unit :=
  match fuel with
  | O => fun _ => OutOfFuel
  | S fuel =>
      asyncmsgq_cb_drain fuel ;;
      let* r := pa_asyncmsgq_before_poll in
      if r =? 0 then skip else asyncmsgq_cb_loop fuel
  end.

Definition asyncmsgq_cb (fuel : nat) (fd : Z) (events : Z) : M unit :=
  let* f := pa_asyncmsgq_get_fd in
  pa_assert (f =? fd) ;;
  pa_assert (events =? PA_IO_EVENT_INPUT) ;;
  pa_asyncmsgq_after_poll ;;
  asyncmsgq_cb_loop fuel.

(** ** The drain idiom of the design document

    "1. after_poll().  2. Loop: while get(wait=false) succeeds, dispatch,
    done.  3. before_poll(); if it returns "item observed", restart at
    step 2; otherwise return to the main loop."  The idiom is written
    down as relations between the state before and the state after, one
    per step, to compare [asyncmsgq_cb] with. *)

(** Step 2. *)
Inductive idiom_drain : world → world → Prop :=
| idiom_drain_empty w rl w1 :
    get_into_locals false w = Returns rl w1 →
    rl.1 ≠ 0 →
    idiom_drain w w1
| idiom_drain_message w rl w1 ret w2 w3 w4 :
    get_into_locals false w = Returns rl w1 →
    rl.1 = 0 →
    dispatch_locals rl.2 w1 = Returns ret w2 →
    pa_asyncmsgq_done ret w2 = Returns tt w3 →
    idiom_drain w3 w4 →
    idiom_drain w w4.

(** Steps 2 and 3. *)
Inductive idiom_rearm : world → world → Prop :=
| idiom_rearm_armed w w1 w2 :
    idiom_drain w w1 →
    pa_asyncmsgq_before_poll w1 = Returns 0 w2 →
    idiom_rearm w w2
| idiom_rearm_observed w w1 r w2 w3 :
    idiom_drain w w1 →
    pa_asyncmsgq_before_poll w1 = Returns r w2 →
    r ≠ 0 →
    idiom_rearm w2 w3 →
    idiom_rearm w w3.

(** Steps 1 to 3. *)
Definition drain_idiom (w w' : world) : Prop :=
  ∃ w1, pa_asyncmsgq_after_poll w = Returns tt w1 ∧ idiom_rearm w1 w'.

(** A call only adds to the call log, and it adds no call of
    after_poll or before_poll. *)
Definition grows {A} (m : M A) : Prop :=
  ∀ w x w', m w = Returns x w' →
    ∃ tr, trace w' = trace w ++ tr ∧ forallb (fun e => negb (is_poll_call e)) tr = true.

(** ** Sequences of consumer calls *)

Inductive consumer_call :=
| CallGet (object : option (option ptr)) (code : option Z)
          (userdata : option (option ptr)) (offset : option Z)
          (chunk : option pa_memchunk) (wait : bool)
| CallDone (ret : Z).

(** One call; the result is the value returned by [pa_asyncmsgq_get],
    and 0 for [pa_asyncmsgq_done], which returns nothing. *)
Definition consumer_step (c : consumer_call) : M Z :=
  match c with
  | CallGet object code userdata offset chunk wait =>
      let* rl := pa_asyncmsgq_get object code userdata offset chunk wait in
      pure rl.1
  | CallDone ret => pa_asyncmsgq_done ret ;; pure 0
  end.

(** The calls [cs] one after the other; returns the last call made with
    its result ([last] if there is none). *)
Fixpoint consumer_run (cs : list consumer_call) (last : option (consumer_call * Z))
  : M (option (consumer_call * Z)) :=
  match cs with
  | [] => pure last
  | c :: cs =>
      let* r := consumer_step c in
      consumer_run cs (Some (c, r))
  end.

(** The last call was a [pa_asyncmsgq_get] that succeeded. *)
Definition got_item (last : option (consumer_call * Z)) : bool :=
  match last with
  | Some (CallGet _ _ _ _ _ _, r) => r =? 0
  | _ => false
  end.

End AsyncMsgQ.

Arguments pa_asyncmsgq : clear implicits.
Arguments world : clear implicits.
Arguments M : clear implicits.
Arguments set_msgq {Q E} v w /.
Arguments set_items {Q E} v w /.
Arguments set_flist {Q E} v w /.
Arguments set_msgobject_refs {Q E} v w /.
Arguments set_memblock_refs {Q E} v w /.
Arguments set_semaphores {Q E} v w /.
Arguments set_env {Q E} v w /.
Arguments log {Q E} e w /.
Arguments set_asyncq {Q} v a /.
Arguments set_mutex {Q} v a /.
Arguments set_current {Q} v a /.

(** ** The wait loop of the design document

    "A convenience loop for the consumer: repeatedly get(wait=true),
    dispatch, done(ret), until the processed message's code equals the
    requested code; returns 0 on match, -1 if get fails."  The loop is
    written down as a relation between the state before, the messages
    processed (each with the variables that get wrote and the result of
    its dispatch, which is the [ret] of its done), the value returned and
    the state after, to compare [pa_asyncmsgq_wait_for] with. *)
Section WaitLoop.
Context {Q E : Type} `{!AsyncQ Q} `{!Users E}.

Inductive wait_loop (code : Z)
  : world Q E → list (out_params * Z) → Z → world Q E → Prop :=
| wait_loop_fails w rl w1 :
    get_into_locals true w = Returns rl w1 →
    rl.1 ≠ 0 →
    wait_loop code w [] (-1) w1
| wait_loop_match w rl w1 ret w2 w3 :
    get_into_locals true w = Returns rl w1 →
    rl.1 = 0 →
    dispatch_locals rl.2 w1 = Returns ret w2 →
    pa_asyncmsgq_done ret w2 = Returns tt w3 →
    default 0 (out_code rl.2) = code →
    wait_loop code w [(rl.2, ret)] 0 w3
| wait_loop_next w rl w1 ret w2 w3 rs r w4 :
    get_into_locals true w = Returns rl w1 →
    rl.1 = 0 →
    dispatch_locals rl.2 w1 = Returns ret w2 →
    pa_asyncmsgq_done ret w2 = Returns tt w3 →
    default 0 (out_code rl.2) ≠ code →
    wait_loop code w3 rs r w4 →
    wait_loop code w ((rl.2, ret) :: rs) r w4.

End WaitLoop.

(** The code of a processed message. *)
Definition round_code (m : out_params * Z) : Z := default 0 (out_code m.1).

(** The handler call of a processed message, with the result that the
    loop passes on to [pa_asyncmsgq_done]: none for a message without
    target. *)
Definition round_handler_call (m : out_params * Z) : list event :=
  match default None (out_object m.1) with
  | Some o =>
      [EvProcessMsg o (default 0 (out_code m.1)) (default None (out_userdata m.1))
         (default 0 (out_offset m.1)) (out_chunk m.1) m.2]
  | None => []
  end.

Definition is_handler_call (e : event) : bool :=
  match e with
  | EvProcessMsg _ _ _ _ _ _ => true
  | _ => false
  end.

(** ** The underlying queue as the design document describes it *)

(** Modelled from the spec: the AsyncQ of its section 4.1
    (pulsecore/asyncq.c is not among the sources), a bounded FIFO with
    capacity N.  push enqueues one item; when the queue is full it blocks
    the producer if wait is true, and fails with Full otherwise.  pop
    dequeues one item; when the queue is empty it blocks if wait is true,
    and returns Empty otherwise.  before_poll returns 0 if the queue is
    empty and nonzero if an item was observed.  after_poll consumes
    pending notifications, of which this model has none.  No other thread
    runs during a call, so a call that has to wait does not return. *)
Record fifo := {
  cells : list ptr;
  capacity : nat;
  fd : Z
}.

Definition fifo_push (q : fifo) (i : ptr) (wait : bool) : option (Z * fifo) :=
  if (length (cells q) <? capacity q)%nat
  then Some (0, {| cells := cells q ++ [i]; capacity := capacity q; fd := fd q |})
  else if wait then None else Some (-1, q).

Definition fifo_pop (q : fifo) (wait : bool) : option (option ptr * fifo) :=
  match cells q with
  | i :: l => Some (Some i, {| cells := l; capacity := capacity q; fd := fd q |})
  | [] => if wait then None else Some (None, q)
  end.

Definition fifo_before_poll (q : fifo) : Z * fifo :=
  match cells q with
  | [] => (0, q)
  | _ :: _ => (-1, q)
  end.

#[export] Instance fifo_asyncq : AsyncQ fifo := {
  pa_asyncq_push := fifo_push;
  pa_asyncq_pop := fifo_pop;
  pa_asyncq_before_poll := fifo_before_poll;
  pa_asyncq_after_poll := fun q => q;
  pa_asyncq_get_fd := fd
}.

(** Modelled from the spec: the same AsyncQ as the consumer sees it
    while producers run.  A successful push makes the consumer observe the
    item on a subsequent pop, and "any push that becomes visible after the
    empty check but before re-arming the fd is caught by before_poll
    returning nonzero".  [arriving] lists, for the pops and before_polls
    the consumer is going to make, the items whose push completes just
    before each of them. *)
Record shared_fifo := {
  seen : fifo;
  arriving : list (list ptr)
}.

Definition arrive (q : shared_fifo) : shared_fifo :=
  match arriving q with
  | [] => q
  | b :: bs =>
      {| seen := {| cells := cells (seen q) ++ b;
                    capacity := capacity (seen q);
                    fd := fd (seen q) |};
         arriving := bs |}
  end.

#[export] Instance shared_fifo_asyncq : AsyncQ shared_fifo := {
  pa_asyncq_push := fun q i wait =>
    match fifo_push (seen q) i wait with
    | Some (r, f) => Some (r, {| seen := f; arriving := arriving q |})
    | None => None
    end;
  pa_asyncq_pop := fun q wait =>
    let q := arrive q in
    match fifo_pop (seen q) wait with
    | Some (r, f) => Some (r, {| seen := f; arriving := arriving q |})
    | None => None
    end;
  pa_asyncq_before_poll := fun q =>
    let q := arrive q in
    ((fifo_before_poll (seen q)).1, q);
  pa_asyncq_after_poll := fun q => q;
  pa_asyncq_get_fd := fun q => fd (seen q)
}.

(** ** Users for the examples

    A state that counts the calls made into the users' code.  A handler
    answers with the message code plus the number of calls made before. *)
Definition counting_process_msg (o : ptr) (code : Z) (userdata : option ptr) (offset : Z)
    (chunk : option pa_memchunk) (e : Z) : Z * Z :=
  (code + e, e + 1).

#[export] Instance counting_users : Users Z := {
  process_msg := counting_process_msg;
  run_free_cb := fun _ _ e => e + 1;
  indeterminate := fun e => Item.Mk e None None None e pa_memchunk_reset None e
}.

(** ** Reading the call log *)

(** The calls that release the payload of an item. *)
Definition is_payload_call (e : event) : bool :=
  match e with
  | EvMsgobjectUnref _ | EvMemblockUnref _ | EvFreeCb _ _ => true
  | _ => false
  end.

Definition payload_calls (tr : list event) : list event :=
  List.filter is_payload_call tr.

(** The calls by which [pa_asyncmsgq_free] releases the payload of the
    item [it]. *)
Definition release_calls (it : asyncmsgq_item) : list event :=
  match Item.object it with Some o => [EvMsgobjectUnref o] | None => [] end
  ++ match Chunk.memblock (Item.memchunk it) with Some b => [EvMemblockUnref b] | None => [] end
  ++ match Item.free_cb it with Some cb => [EvFreeCb cb (Item.userdata it)] | None => [] end.

(** The arguments of the handler calls in a log, in order. *)
Definition handler_call (e : event)
  : option (ptr * Z * option ptr * Z * option pa_memchunk) :=
  match e with
  | EvProcessMsg o code userdata offset chunk _ => Some (o, code, userdata, offset, chunk)
  | _ => None
  end.

Definition handler_calls (tr : list event) := omap handler_call tr.

(** The handler call that dispatching the message [it] makes: none for a
    message without target. *)
Definition message_call (it : asyncmsgq_item)
  : option (ptr * Z * option ptr * Z * option pa_memchunk) :=
  match Item.object it with
  | Some o => Some (o, Item.code it, Item.userdata it, Item.offset it,
                    Some (Item.memchunk it))
  | None => None
  end.

(** The results of the pops in a log, in order. *)
Definition pop_result (e : event) : option (option ptr) :=
  match e with
  | EvPop _ r => Some r
  | _ => None
  end.

Definition pops (tr : list event) := omap pop_result tr.

(** How many of the messages [its] hold a reference to [o] that the
    queue took: messages on the post path whose [target] is [o]. *)
Definition queue_refs (target : asyncmsgq_item → option ptr) (o : ptr)
    (its : list asyncmsgq_item) : Z :=
  Z.of_nat (length (List.filter
    (fun it => negb (nonnull (Item.semaphore it)) && bool_decide (target it = Some o)) its)).

(** How many of the messages [its] have the target [o]. *)
Definition target_refs (o : ptr) (its : list asyncmsgq_item) : Z :=
  Z.of_nat (length (List.filter (fun it => bool_decide (Item.object it = Some o)) its)).

(** The messages at the addresses [ps] can be delivered in the state
    [w]: they are the records [its], each in a record of its own, the
    reply semaphores of the sent ones exist, and every target is
    referenced at least once for each message that names it (by the
    queue for a posted message, by the waiting caller for a sent one). *)
Definition deliverable {Q E} (w : world Q E) (ps : list ptr)
    (its : list asyncmsgq_item) : Prop :=
  NoDup ps
  ∧ Forall2 (fun p it => items w !! p = Some it) ps its
  ∧ Forall (fun it => ∀ s, Item.semaphore it = Some s → is_Some (semaphores w !! s)) its
  ∧ ∀ o, target_refs o its ≤ refcnt (msgobject_refs w) o.

(** The messages at the addresses [ps] can be received one after the
    other in the state [w]: they are the records [its], each in a record
    of its own, the reply semaphores of the sent ones exist, and the
    target of each is referenced when the message is got, that is, its
    count exceeds the number of posted messages before it that name the
    target, whose completion gives the queue's reference back. *)
Definition receivable {Q E} (w : world Q E) (ps : list ptr)
    (its : list asyncmsgq_item) : Prop :=
  NoDup ps
  ∧ Forall2 (fun p it => items w !! p = Some it) ps its
  ∧ Forall (fun it => ∀ s, Item.semaphore it = Some s → is_Some (semaphores w !! s)) its
  ∧ ∀ k it o, its !! k = Some it → Item.object it = Some o →
      queue_refs Item.object o (take k its) < refcnt (msgobject_refs w) o.

(** ** Producers and the consumer together

    Threads interleave at the calls on the queue.  [pa_asyncmsgq_send]
    takes part in two steps, because the sender is suspended in
    [pa_semaphore_wait] while other threads run: the push, and the return
    once the semaphore lets the sender through.  A call that would have to
    wait in the current state is not a step of that state. *)

Inductive call :=
| Post (object : option ptr) (code : Z) (userdata : option ptr) (offset : Z)
       (chunk : option pa_memchunk) (free_cb : option ptr)
| SendPush (t : nat) (object : option ptr) (code : Z) (userdata : option ptr)
           (offset : Z) (chunk : option pa_memchunk)
| SendReturn (t : nat)
| Get (object : option (option ptr)) (code : option Z) (userdata : option (option ptr))
      (offset : option Z) (chunk : option pa_memchunk) (wait : bool)
| Done (ret : Z).

(** What a run records: thread [t] pushed the item [i] of its send;
    [pa_asyncmsgq_done(ret)] completed the item [i]; the send of thread [t]
    returned [r]. *)
Inductive observation :=
| Pushed (t : nat) (i : ptr)
| Completed (i : ptr) (ret : Z)
| Returned (t : nat) (r : Z).

Section System.
Context {E : Type} `{!Users E}.

(** The state of a run: the state of the queue, the senders that are
    suspended with the item of their frame, and the observations made so
    far, the latest first. *)
Record system := {
  sys_world : world fifo E;
  waiting : gmap nat ptr;
  history : list observation
}.

Definition step (c : call) (σ : system) : option system :=
  match c with
  | Post object code userdata offset chunk free_cb =>
      match pa_asyncmsgq_post object code userdata offset chunk free_cb (sys_world σ) with
      | Returns _ w => Some {| sys_world := w; waiting := waiting σ; history := history σ |}
      | _ => None
      end
  | SendPush t object code userdata offset chunk =>
      match waiting σ !! t with
      | Some _ => None
      | None =>
          match pa_asyncmsgq_send_push object code userdata offset chunk (sys_world σ) with
          | Returns i w =>
              Some {| sys_world := w;
                      waiting := <[t := i]> (waiting σ);
                      history := Pushed t i :: history σ |}
          | _ => None
          end
      end
  | SendReturn t =>
      match waiting σ !! t with
      | None => None
      | Some i =>
          match pa_asyncmsgq_send_wait i (sys_world σ) with
          | Returns r w =>
              Some {| sys_world := w;
                      waiting := delete t (waiting σ);
                      history := Returned t r :: history σ |}
          | _ => None
          end
      end
  | Get object code userdata offset chunk wait =>
      match pa_asyncmsgq_get object code userdata offset chunk wait (sys_world σ) with
      | Returns _ w => Some {| sys_world := w; waiting := waiting σ; history := history σ |}
      | _ => None
      end
  | Done ret =>
      match current (msgq (sys_world σ)) with
      | None => None
      | Some c =>
          match pa_asyncmsgq_done ret (sys_world σ) with
          | Returns _ w =>
              Some {| sys_world := w;
                      waiting := waiting σ;
                      history := Completed c ret :: history σ |}
          | _ => None
          end
      end
  end.

Fixpoint run (cs : list call) (σ : system) : option system :=
  match cs with
  | [] => Some σ
  | c :: cs =>
      match step c σ with
      | Some σ' => run cs σ'
      | None => None
      end
  end.

(** A queue as [pa_asyncmsgq_new] makes it, before any call: nothing
    queued, nothing in flight, no record allocated, nobody waiting. *)
Definition initial (σ : system) : Prop :=
  cells (asyncq (msgq (sys_world σ))) = []
  ∧ mutex (msgq (sys_world σ)) = false
  ∧ current (msgq (sys_world σ)) = None
  ∧ flist_cells (flist (sys_world σ)) = []
  ∧ items (sys_world σ) = ∅
  ∧ waiting σ = ∅
  ∧ history σ = [].

End System.

Arguments system : clear implicits.

(** The observation is not a push or a return of thread [t]. *)
Definition not_thread (t : nat) (o : observation) : Prop :=
  match o with
  | Pushed t' _ | Returned t' _ => t' ≠ t
  | Completed _ _ => True
  end.

(** The observation is not a completion of the item [i]. *)
Definition not_completed (i : ptr) (o : observation) : Prop :=
  match o with
  | Completed i' _ => i' ≠ i
  | _ => True
  end.

(** In the history [h] (latest first) the latest send of thread [t] was
    completed with [r]: [t] pushed an item [i], the item was completed
    once after that, with [r], and [t] has not pushed or returned
    since its push. *)
Definition answered (t : nat) (r : Z) (h : list observation) : Prop :=
  ∃ hc i hb ha,
    h = hc ++ Completed i r :: hb ++ Pushed t i :: ha
    ∧ Forall (not_thread t) (hc ++ hb)
    ∧ Forall (not_completed i) (hc ++ hb).

(** Every return of a send in the history [h] (latest first) was
    answered. *)
Fixpoint answered_history (h : list observation) : Prop :=
  match h with
  | [] => True
  | o :: h =>
      match o with
      | Returned t r => answered t r h
      | _ => True
      end
      ∧ answered_history h
  end.

(** The addresses the queue holds: queued, in flight, pooled. *)
Definition owned {E} (w : world fifo E) : list ptr :=
  cells (asyncq (msgq w)) ++ option_list (current (msgq w)) ++ flist_cells (flist w).

(** The suspended sender [t] with item [i] is in order: its record is in
    memory and carries its semaphore; either the semaphore is at 0 and
    the item was not completed since the push, or the item was completed
    once since, with the value now in its [ret] field, and is no longer
    queued or in flight. *)
Definition sender_ok {E} (σ : system E) (t : nat) (i : ptr) : Prop :=
  ∃ it s n hw ha,
    items (sys_world σ) !! i = Some it
    ∧ Item.semaphore it = Some s
    ∧ semaphores (sys_world σ) !! s = Some n
    ∧ (i ∉ flist_cells (flist (sys_world σ)))
    ∧ history σ = hw ++ Pushed t i :: ha
    ∧ Forall (not_thread t) hw
    ∧ ((n = 0%nat ∧ Forall (not_completed i) hw)
       ∨ ((i ∉ cells (asyncq (msgq (sys_world σ))))
          ∧ current (msgq (sys_world σ)) ≠ Some i
          ∧ ∃ hc hb, hw = hc ++ Completed i (Item.ret it) :: hb
                     ∧ Forall (not_completed i) (hc ++ hb))).

(** What holds of every state of a run. *)
Record sys_inv {E} (σ : system E) : Prop := {
  inv_mutex : mutex (msgq (sys_world σ)) = false;
  inv_nodup : NoDup (owned (sys_world σ));
  inv_alloc : ∀ p, p ∈ owned (sys_world σ) → is_Some (items (sys_world σ) !! p);
  inv_senders : ∀ t i, waiting σ !! t = Some i → sender_ok σ t i;
  inv_sems : ∀ p it s,
    items (sys_world σ) !! p = Some it → Item.semaphore it = Some s →
    ∃ t, waiting σ !! t = Some p;
  inv_unshared : ∀ t1 t2 i1 i2 it1 it2 s,
    waiting σ !! t1 = Some i1 → waiting σ !! t2 = Some i2 →
    items (sys_world σ) !! i1 = Some it1 → items (sys_world σ) !! i2 = Some it2 →
    Item.semaphore it1 = Some s → Item.semaphore it2 = Some s → t1 = t2;
  inv_history : answered_history (history σ)
}.

(** ** The consumer inside [pa_asyncmsgq_done]

    For the sender of an item, [pa_asyncmsgq_done] is not one step: the
    post of the semaphore lets the sender run while the consumer is still
    inside the call.  Here the consumer executes the reply to a sent item
    statement by statement, and the producers' calls take place between
    any two of its statements. *)

(** The consumer inside [pa_asyncmsgq_done(ret)] for the in-flight item
    [c] with the semaphore [s], having executed [done_pc] statements of
    the reply. *)
Record done_frame := {
  done_item : ptr;
  done_semaphore : ptr;
  done_ret : Z;
  done_pc : nat
}.

(** A thread makes a call, or the consumer executes the next statement
    of the [pa_asyncmsgq_done] it is inside of. *)
Inductive move :=
| Enter (c : call)
| Resume.


Section Statements.
Context {E : Type} `{!Users E}.

Record fine_system := {
  at_calls : system E;
  in_done : option done_frame
}.

(** The call log shows that the statement that took [w] to [w'] was the
    post of the semaphore [s]. *)
Definition is_post_of (s : ptr) (w w' : world fifo E) : bool :=
  match drop (length (trace w)) (trace w') with
  | [EvSemaphorePost s'] => bool_decide (s' = s)
  | _ => false
  end.

(** One move.  [reply] gives the statements of the reply in the order of
    their execution; for the code as it is written this is [done_reply].

    A call of [pa_asyncmsgq_done(ret)] with a sent item in flight passes
    the assertion on [a->current] and the test of
    [a->current->semaphore], and has the statements of the reply before
    it; with a posted item in flight it is one step, as no sender waits
    for it.  The consumer is one thread: inside
    [pa_asyncmsgq_done] it makes no other call.  After the statements of
    the reply comes [a->current = NULL], with which the call returns.
    The completion of a sent item is observed when its semaphore is
    posted, from when on its sender can run. *)
Definition fine_step_with (reply : ptr → ptr → Z → list (M fifo E unit))
    (m : move) (θ : fine_system) : option fine_system :=
  let σ := at_calls θ in
  let w := sys_world σ in
  match m, in_done θ with
  | Enter (Get _ _ _ _ _ _), Some _ => None
  | Enter (Done _), Some _ => None
  | Enter (Done ret), None =>
      match current (msgq w) with
      | None => None
      | Some c =>
          match items w !! c with
          | None => None
          | Some it =>
              match Item.semaphore it with
              | Some s =>
                  Some {| at_calls := σ;
                          in_done := Some {| done_item := c; done_semaphore := s;
                                             done_ret := ret; done_pc := 0 |} |}
              | None =>
                  (fun σ' => {| at_calls := σ'; in_done := None |}) <$> step (Done ret) σ
              end
          end
      end
  | Enter c, _ => (fun σ' => {| at_calls := σ'; in_done := in_done θ |}) <$> step c σ
  | Resume, None => None
  | Resume, Some f =>
      match reply (done_item f) (done_semaphore f) (done_ret f) !! done_pc f with
      | Some statement =>
          match statement w with
          | Returns _ w' =>
              Some {| at_calls :=
                        {| sys_world := w';
                           waiting := waiting σ;
                           history :=
                             (if is_post_of (done_semaphore f) w w'
                              then [Completed (done_item f) (done_ret f)] else [])
                             ++ history σ |};
                      in_done := Some {| done_item := done_item f;
                                         done_semaphore := done_semaphore f;
                                         done_ret := done_ret f;
                                         done_pc := S (done_pc f) |} |}
          | _ => None
          end
      | None =>
          match put_current None w with
          | Returns _ w' =>
              Some {| at_calls := {| sys_world := w'; waiting := waiting σ;
                                     history := history σ |};
                      in_done := None |}
          | _ => None
          end
      end
  end.

Fixpoint fine_run_with (reply : ptr → ptr → Z → list (M fifo E unit))
    (ms : list move) (θ : fine_system) : option fine_system :=
  match ms with
  | [] => Some θ
  | m :: ms =>
      match fine_step_with reply m θ with
      | Some θ' => fine_run_with reply ms θ'
      | None => None
      end
  end.


(** The consumer is not inside [pa_asyncmsgq_done]. *)
Definition between_calls (σ : system E) : fine_system :=
  {| at_calls := σ; in_done := None |}.





End Statements.

Arguments fine_system : clear implicits.

(** ** States for the examples *)

(** A message as scenario 1 of the design document posts it: target 1,
    code 7, user data 5 with releaser 9, offset 42, a chunk of block 3. *)
Definition posted_item : asyncmsgq_item :=
  Item.Mk 7 (Some 1%positive) (Some 5%positive) (Some 9%positive) 42
    (Chunk.Mk (Some 3%positive) 0 16) None 0.

(** A message as scenario 2 sends it: target 1, code 3, user data 5, no
    chunk, reply semaphore 8. *)
Definition sent_item : asyncmsgq_item :=
  Item.Mk 3 (Some 1%positive) (Some 5%positive) None 0 pa_memchunk_reset
    (Some 8%positive) (-1).

Definition example_world (q : list ptr) (c : option ptr) : world fifo Z := {|
  msgq := {| asyncq := {| cells := q; capacity := 4; fd := 3 |};
             mutex := false;
             current := c |};
  items := {[ 10%positive := posted_item; 11%positive := sent_item ]};
  flist := {| flist_cells := []; flist_size := 2 |};
  msgobject_refs := {[ 1%positive := 2 ]};
  memblock_refs := {[ 3%positive := 1 ]};
  semaphores := {[ 8%positive := 0%nat ]};
  env := 0;
  trace := []
|}.

(** Scenario 3: two posts to target 1 with codes 1 and 2, queued at the
    addresses 20 and 21. *)
Definition first_post : asyncmsgq_item :=
  Item.Mk 1 (Some 1%positive) None None 0 pa_memchunk_reset None 0.

Definition second_post : asyncmsgq_item :=
  Item.Mk 2 (Some 1%positive) None None 0 pa_memchunk_reset None 0.

Definition two_posts_world : world fifo Z := {|
  msgq := {| asyncq := {| cells := [20%positive; 21%positive]; capacity := 4; fd := 3 |};
             mutex := false;
             current := None |};
  items := {[ 20%positive := first_post; 21%positive := second_post ]};
  flist := {| flist_cells := []; flist_size := 2 |};
  msgobject_refs := {[ 1%positive := 3 ]};
  memblock_refs := ∅;
  semaphores := ∅;
  env := 0;
  trace := []
|}.

(** Scenario 4: the consumer's queue is empty when the callback runs, and
    a producer's post of the record at address 10 becomes visible after
    the callback's first get and before its before_poll. *)
Definition racing_world : world shared_fifo Z := {|
  msgq := {| asyncq := {| seen := {| cells := []; capacity := 4; fd := 3 |};
                          arriving := [[]; [10%positive]] |};
             mutex := false;
             current := None |};
  items := {[ 10%positive := posted_item ]};
  flist := {| flist_cells := []; flist_size := 2 |};
  msgobject_refs := {[ 1%positive := 2 ]};
  memblock_refs := {[ 3%positive := 1 ]};
  semaphores := ∅;
  env := 0;
  trace := []
|}.

(** A new queue, whose users hold one reference to target 1. *)
Definition new_system : system Z := {|
  sys_world := {|
    msgq := {| asyncq := {| cells := []; capacity := 4; fd := 3 |};
               mutex := false;
               current := None |};
    items := ∅;
    flist := {| flist_cells := []; flist_size := 2 |};
    msgobject_refs := {[ 1%positive := 1 ]};
    memblock_refs := ∅;
    semaphores := ∅;
    env := 0;
    trace := []
  |};
  waiting := ∅;
  history := []
|}.

(** Scenario 2: thread 0 sends code 3 to target 1; the consumer gets the
    message, completes it with 99, and the send returns. *)
Definition round_trip : list call :=
  [ SendPush 0 (Some 1%positive) 3 (Some 5%positive) 0 None;
    Get (Some None) (Some 0) (Some None) (Some 0) (Some pa_memchunk_reset) false;
    Done 99;
    SendReturn 0 ].


(** The sent message and then the posted one, both for target 1, which
    is referenced once: by the queue, for the posted message. *)
Definition sent_then_posted_world : world fifo Z := {|
  msgq := {| asyncq := {| cells := [11%positive; 10%positive]; capacity := 4; fd := 3 |};
             mutex := false;
             current := None |};
  items := {[ 10%positive := posted_item; 11%positive := sent_item ]};
  flist := {| flist_cells := []; flist_size := 2 |};
  msgobject_refs := {[ 1%positive := 1 ]};
  memblock_refs := {[ 3%positive := 1 ]};
  semaphores := {[ 8%positive := 0%nat ]};
  env := 0;
  trace := []
|}.

(** The posted message of scenario 1 in flight, with the record at
    address 20 in the pool. *)
Definition pooled_world : world fifo Z := {|
  msgq := {| asyncq := {| cells := []; capacity := 4; fd := 3 |};
             mutex := false;
             current := Some 10%positive |};
  items := {[ 10%positive := posted_item; 20%positive := first_post ]};
  flist := {| flist_cells := [20%positive]; flist_size := 2 |};
  msgobject_refs := {[ 1%positive := 2 ]};
  memblock_refs := {[ 3%positive := 1 ]};
  semaphores := ∅;
  env := 0;
  trace := []
|}.

(** ** asyncmsgq.c: the constructor *)

(** The constructor of the underlying queue (pulsecore/asyncq.c is not
    among the sources): [pa_asyncq_new(size)] returns a queue, or NULL. *)
Class AsyncQNew (Q : Type) := {
  pa_asyncq_new : N → option Q
}.

Section Constructor.
Context {Q E : Type} `{!AsyncQ Q} `{!AsyncQNew Q} `{!Users E}.

(** [pa_asyncmsgq_new].  The structure allocated by [pa_xnew] is the one
    of the state: all three of its fields are written.  [pa_mutex_new(0)]
    gives a mutex that nobody holds. *)
Definition pa_asyncmsgq_new (size : N) : M Q E unit := fun w =>
  match pa_asyncq_new size with
  | Some q => Returns tt (set_msgq {| asyncq := q; mutex := false; current := None |} w)
  | None => AssertFails
  end.

End Constructor.

(** Modelled from the spec: the "constructor taking a capacity hint" of
    the AsyncQ (pulsecore/asyncq.c is not among the sources): an empty
    FIFO.  [cap] gives the capacity chosen for a hint and [f] the
    descriptor of the wake source. *)
Definition fifo_new (cap : N → nat) (f : Z) (size : N) : option fifo :=
  Some {| cells := []; capacity := cap size; fd := f |}.

Definition fifo_asyncq_new (cap : N → nat) (f : Z) : AsyncQNew fifo := {|
  pa_asyncq_new := fifo_new cap f
|}.

(** ** The writer mutex in the call log *)

Definition is_mutex_call (e : event) : bool :=
  match e with
  | EvMutexLock | EvMutexUnlock => true
  | _ => false
  end.

(** A call that neither takes nor releases the writer mutex, whether it
    returns or suspends its caller. *)
Definition lock_free {Q E A} (m : M Q E A) : Prop :=
  ∀ w,
    match m w with
    | Returns _ w' | Blocks w' =>
        mutex (msgq w') = mutex (msgq w)
        ∧ ∃ tr, trace w' = trace w ++ tr
                ∧ forallb (fun e => negb (is_mutex_call e)) tr = true
    | _ => True
    end.

(** The calls of the allocator in a log. *)
Definition is_alloc_call (e : event) : bool :=
  match e with
  | EvXnew _ | EvXfree _ => true
  | _ => false
  end.

(** The calls of releasers in a log, in order. *)
Definition free_cb_call (e : event) : option (ptr * option ptr) :=
  match e with
  | EvFreeCb cb userdata => Some (cb, userdata)
  | _ => None
  end.

Definition free_cb_calls (tr : list event) := omap free_cb_call tr.


(** ** What the queue holds, over all interleavings *)

(** The messages that the queue holds in the state [w]: the records of
    the items that are queued or in flight. *)
Definition held {E} (w : world fifo E) : list asyncmsgq_item :=
  omap (fun p => items w !! p) (cells (asyncq (msgq w)) ++ option_list (current (msgq w))).

(** Since the state [w0], the queue has taken one reference to a target
    and to a memory block for each posted message it holds that names
    them, and no other. *)
Definition refs_balanced {E} (w0 w : world fifo E) : Prop :=
  (∀ o, refcnt (msgobject_refs w) o =
        refcnt (msgobject_refs w0) o + queue_refs Item.object o (held w))
  ∧ (∀ b, refcnt (memblock_refs w) b =
          refcnt (memblock_refs w0) b
          + queue_refs (fun it => Chunk.memblock (Item.memchunk it)) b (held w)).

(** Every item record in memory is queued, in flight or pooled, or is
    the record in the frame of a suspended sender. *)
Definition no_stray_record {E} (σ : system E) : Prop :=
  ∀ p, is_Some (items (sys_world σ) !! p) →
       p ∈ owned (sys_world σ) ∨ ∃ t, waiting σ !! t = Some p.

(** * The core (pulsecore/core.c) *)

(** [struct timeval] *)
Module Timeval.
Record timeval := Mk {
  tv_sec : Z;
  tv_usec : Z
}.
End Timeval.
Abbreviation timeval := Timeval.timeval.

(** The functions of core.c that are stored or passed as callbacks. *)
Inductive core_fn :=
| fn_core_free
| fn_core_process_msg
| fn_asyncmsgq_cb
| fn_quit_callback.

(** The hooks of the core.  core.c only passes their addresses on. *)
Inductive core_hook :=
| hook_sink_input_new
| hook_sink_disconnect
| hook_source_output_new
| hook_source_disconnect.

(** [struct pa_core] (pulsecore/core.h is not among the sources): the
    members that core.c reads or writes.  The parent [pa_msgobject] is
    represented by its two function pointers; its reference count is kept
    with the other counts of message targets.  [c->asyncmsgq] is the queue
    structure of the state.  Pointers to objects of other modules are
    addresses. *)
Module Core.
Record pa_core := Mk {
  parent_free : option core_fn;
  parent_process_msg : option core_fn;
  mainloop : option ptr;
  clients : option ptr;
  sinks : option ptr;
  sources : option ptr;
  source_outputs : option ptr;
  sink_inputs : option ptr;
  default_source_name : option ptr;
  default_sink_name : option ptr;
  modules : option ptr;
  namereg : option ptr;
  scache : option ptr;
  autoload_idxset : option ptr;
  autoload_hashmap : option ptr;
  running_as_daemon : Z;
  default_sample_spec_format : Z;
  default_sample_spec_rate : Z;
  default_sample_spec_channels : Z;
  module_auto_unload_event : option ptr;
  module_defer_unload_event : option ptr;
  scache_auto_unload_event : option ptr;
  subscription_defer_event : option ptr;
  subscriptions : option ptr;
  subscription_event_queue : option ptr;
  subscription_event_last : option ptr;
  mempool : option ptr;
  disallow_module_loading : Z;
  quit_event : option ptr;
  exit_idle_time : Z;
  module_idle_time : Z;
  scache_idle_time : Z;
  resample_method : Z;
  is_system_instance : Z;
  cookie : Z;
  asyncmsgq_event : option ptr
}.

Definition set_quit_event v c :=
  Mk (parent_free c) (parent_process_msg c) (mainloop c) (clients c) (sinks c) (sources c)
    (source_outputs c) (sink_inputs c) (default_source_name c) (default_sink_name c)
    (modules c) (namereg c) (scache c) (autoload_idxset c) (autoload_hashmap c)
    (running_as_daemon c) (default_sample_spec_format c) (default_sample_spec_rate c)
    (default_sample_spec_channels c) (module_auto_unload_event c)
    (module_defer_unload_event c) (scache_auto_unload_event c) (subscription_defer_event c)
    (subscriptions c) (subscription_event_queue c) (subscription_event_last c) (mempool c)
    (disallow_module_loading c) v (exit_idle_time c) (module_idle_time c)
    (scache_idle_time c) (resample_method c) (is_system_instance c) (cookie c)
    (asyncmsgq_event c).

Definition set_cookie v c :=
  Mk (parent_free c) (parent_process_msg c) (mainloop c) (clients c) (sinks c) (sources c)
    (source_outputs c) (sink_inputs c) (default_source_name c) (default_sink_name c)
    (modules c) (namereg c) (scache c) (autoload_idxset c) (autoload_hashmap c)
    (running_as_daemon c) (default_sample_spec_format c) (default_sample_spec_rate c)
    (default_sample_spec_channels c) (module_auto_unload_event c)
    (module_defer_unload_event c) (scache_auto_unload_event c) (subscription_defer_event c)
    (subscriptions c) (subscription_event_queue c) (subscription_event_last c) (mempool c)
    (disallow_module_loading c) (quit_event c) (exit_idle_time c) (module_idle_time c)
    (scache_idle_time c) (resample_method c) (is_system_instance c) v
    (asyncmsgq_event c).

Definition set_asyncmsgq_event v c :=
  Mk (parent_free c) (parent_process_msg c) (mainloop c) (clients c) (sinks c) (sources c)
    (source_outputs c) (sink_inputs c) (default_source_name c) (default_sink_name c)
    (modules c) (namereg c) (scache c) (autoload_idxset c) (autoload_hashmap c)
    (running_as_daemon c) (default_sample_spec_format c) (default_sample_spec_rate c)
    (default_sample_spec_channels c) (module_auto_unload_event c)
    (module_defer_unload_event c) (scache_auto_unload_event c) (subscription_defer_event c)
    (subscriptions c) (subscription_event_queue c) (subscription_event_last c) (mempool c)
    (disallow_module_loading c) (quit_event c) (exit_idle_time c) (module_idle_time c)
    (scache_idle_time c) (resample_method c) (is_system_instance c) (cookie c) v.

Arguments set_quit_event v c /.
Arguments set_cookie v c /.
Arguments set_asyncmsgq_event v c /.
End Core.
Abbreviation pa_core := Core.pa_core.

(** The calls core.c makes, in the order they are made.  A call to a
    function of asyncmsgq.c is logged here as a call; what it does is in
    the state and the call log of the queue. *)
Inductive core_call :=
| CallMempoolNew (shared : Z) (r : option ptr)
| CallLogWarn
| CallLog
| CallMsgobjectNew (r : ptr)
| CallIdxsetNew (r : option ptr)
| CallIdxsetFree (s : option ptr)
| CallHookInit (h : core_hook)
| CallHookFree (h : core_hook)
| CallPropertyInit
| CallPropertyCleanup
| CallRandom (r : Z)
| CallCheckSignalIsBlocked (sig : Z)
| CallAsyncmsgqNew (size : N)
| CallAsyncmsgqBeforePoll (r : Z)
| CallAsyncmsgqGetFd (r : Z)
| CallAsyncmsgqAfterPoll
| CallAsyncmsgqFree
| CallIoNew (m : ptr) (fd : Z) (events : Z) (cb : core_fn) (r : option ptr)
| CallIoFree (m : ptr) (e : option ptr)
| CallTimeNew (m : ptr) (tv : timeval) (cb : core_fn) (r : option ptr)
| CallTimeFree (m : ptr) (e : option ptr)
| CallQuit (m : ptr) (retval : Z)
| CallGettimeofday (tv : timeval)
| CallModuleUnload (m : option ptr)
| CallModuleUnloadAll
| CallScacheFree
| CallNameregFree
| CallAutoloadFree
| CallSubscriptionFreeAll
| CallXfree (p : option ptr)
| CallMempoolFree (p : option ptr).

(** The code that core.c calls and that is not among the sources, taken
    as it is called: each function acts on a state [X] of the rest of the
    server, and a function that is passed the core can also write the
    core's members.  With them the values of the macros and enumerators
    that core.c names, and the largest value of [time_t]. *)
Class Collaborators (X : Type) := {
  PA_CORE_MESSAGE_UNLOAD_MODULE : Z;
  PA_SAMPLE_S16NE : Z;
  PA_RESAMPLER_SRC_SINC_FASTEST : Z;
  SIGPIPE : Z;
  TIME_T_MAX : Z;
  io_new : ptr → Z → Z → core_fn → X → option ptr * X;
  io_free : ptr → option ptr → X → X;
  time_new : ptr → timeval → core_fn → X → option ptr * X;
  time_free : ptr → option ptr → X → X;
  mainloop_quit : ptr → Z → X → X;
  pa_gettimeofday : X → timeval * X;
  pa_idxset_new : X → option ptr * X;
  pa_idxset_size : option ptr → X → N;
  pa_idxset_isempty : option ptr → X → bool;
  pa_idxset_free : option ptr → X → X;
  pa_mempool_new : Z → X → option ptr * X;
  pa_mempool_free : option ptr → X → X;
  pa_msgobject_new : X → ptr * X;
  indeterminate_core : X → pa_core;
  pa_hook_init : core_hook → X → X;
  pa_hook_free : core_hook → X → X;
  pa_property_init : pa_core → X → pa_core * X;
  pa_property_cleanup : pa_core → X → pa_core * X;
  pa_random : X → Z * X;
  pa_check_signal_is_blocked : Z → X → X;
  pa_module_unload : pa_core → option ptr → X → pa_core * X;
  pa_module_unload_all : pa_core → X → pa_core * X;
  pa_scache_free : pa_core → X → pa_core * X;
  pa_namereg_free : pa_core → X → pa_core * X;
  pa_autoload_free : pa_core → X → pa_core * X;
  pa_subscription_free_all : pa_core → X → pa_core * X;
  pa_xfree : option ptr → X → X
}.

Section CoreC.
Context {Q E X : Type} `{!AsyncQ Q} `{!AsyncQNew Q} `{!Users E} `{!Collaborators X}.

(** The state the functions of core.c run in: the core [c] at its
    address [self], the state of its queue, the state of the rest of the
    server, and the calls made so far. *)
Record core_world := {
  core : pa_core;
  self : ptr;
  queue : world Q E;
  outside : X;
  core_log : list core_call
}.

Definition set_core v w := Build_core_world v (self w) (queue w) (outside w) (core_log w).
Definition set_self v w := Build_core_world (core w) v (queue w) (outside w) (core_log w).
Definition set_queue v w := Build_core_world (core w) (self w) v (outside w) (core_log w).
Definition set_outside v w := Build_core_world (core w) (self w) (queue w) v (core_log w).
Definition called e w :=
  Build_core_world (core w) (self w) (queue w) (outside w) (core_log w ++ [e]).

Definition CM (A : Type) := core_world → outcome core_world A.

Definition get_core : CM pa_core := fun w => Returns (core w) w.

(** A store to members of [*c]. *)
Definition modify_core (f : pa_core → pa_core) : CM unit := fun w =>
  Returns tt (set_core (f (core w)) w).

Definition get_outside : CM X := fun w => Returns (outside w) w.

Definition note (e : core_call) : CM unit := fun w => Returns tt (called e w).

(** A call of a collaborator that returns a value. *)
Definition ask {A} (f : X → A * X) (e : A → core_call) : CM A := fun w =>
  let rx := f (outside w) in
  Returns rx.1 (called (e rx.1) (set_outside rx.2 w)).

(** A call of a collaborator that returns nothing. *)
Definition tell (f : X → X) (e : core_call) : CM unit := fun w =>
  Returns tt (called e (set_outside (f (outside w)) w)).

(** A call of a collaborator that is passed the core. *)
Definition tell_core (f : pa_core → X → pa_core * X) (e : core_call) : CM unit := fun w =>
  let cx := f (core w) (outside w) in
  Returns tt (called e (set_core cx.1 (set_outside cx.2 w))).

(** A call of a function of asyncmsgq.c on [c->asyncmsgq]. *)
Definition on_queue {A} (m : M Q E A) (e : A → core_call) : CM A := fun w =>
  match m (queue w) with
  | Returns x q => Returns x (called (e x) (set_queue q w))
  | AssertFails => AssertFails
  | Blocks q => Blocks (set_queue q w)
  | Faults => Faults
  | OutOfFuel => OutOfFuel
  end.

(** A call through a member of [pa_mainloop_api]: reading the member
    through a NULL pointer is a fault. *)
Definition through {A} (m : option ptr) (k : ptr → CM A) : CM A :=
  match m with
  | Some m => k m
  | None => fun _ => Faults
  end.

(** [PA_CORE(o)]: the cast asserts that [o] is a [pa_core].  The state
    holds one core, so [o] is one exactly if it is that core. *)
Definition PA_CORE (o : option ptr) : CM unit := fun w =>
  pa_assert (bool_decide (o = Some (self w))) w.

(** [pa_core_assert_ref(c)] *)
Definition pa_core_assert_ref : CM unit := fun w =>
  pa_assert (0 <? refcnt (msgobject_refs (queue w)) (self w)) w.

(** [core_process_msg] *)
Definition core_process_msg (o : option ptr) (code : Z) (userdata : option ptr)
    (offset : Z) (chunk : option pa_memchunk) : CM Z :=
  PA_CORE o ;;
  pa_core_assert_ref ;;
  if code =? PA_CORE_MESSAGE_UNLOAD_MODULE
  then
    tell_core (fun c => pa_module_unload c userdata) (CallModuleUnload userdata) ;;
    pure 0
  else pure (-1).

(** [asyncmsgq_cb] with [userdata] the core of the state: the callback
    as embedded above, run on the core's queue. *)
Definition core_asyncmsgq_cb (fuel : nat) (fd : Z) (events : Z) : CM unit := fun w =>
  match asyncmsgq_cb fuel fd events (queue w) with
  | Returns x q => Returns x (set_queue q w)
  | AssertFails => AssertFails
  | Blocks q => Blocks (set_queue q w)
  | Faults => Faults
  | OutOfFuel => OutOfFuel
  end.

(** [tv.tv_sec += c->exit_idle_time], for a value that is not negative.
    A sum beyond the range of [time_t] is undefined behaviour. *)
Definition add_seconds (tv : timeval) (s : Z) : CM timeval := fun w =>
  if Timeval.tv_sec tv + s <=? TIME_T_MAX
  then Returns (Timeval.Mk (Timeval.tv_sec tv + s) (Timeval.tv_usec tv)) w
  else Faults.

(** [quit_callback], with [userdata] the core of the state, as it is
    compiled when [NDEBUG] is not defined.  The condition of its [assert]
    is the assignment [c->quit_event = e]. *)
Definition quit_callback (m : option ptr) (e : option ptr) (tv : option timeval)
  : CM unit :=
  modify_core (Core.set_quit_event e) ;;
  pa_assert (nonnull e) ;;
  through m (fun m => tell (mainloop_quit m 0) (CallQuit m 0)).

(** [pa_core_check_quit] *)
Definition pa_core_check_quit : CM unit :=
  let* c := get_core in
  let* x := get_outside in
  if negb (nonnull (Core.quit_event c)) && (0 <=? Core.exit_idle_time c)
     && (pa_idxset_size (Core.clients c) x =? 0)%N
  then
    let* tv := ask pa_gettimeofday CallGettimeofday in
    let* tv := add_seconds tv (Core.exit_idle_time c) in
    let* e := through (Core.mainloop c) (fun m =>
                ask (time_new m tv fn_quit_callback) (CallTimeNew m tv fn_quit_callback)) in
    modify_core (Core.set_quit_event e)
  else if nonnull (Core.quit_event c) && (0 <? pa_idxset_size (Core.clients c) x)%N
  then
    through (Core.mainloop c) (fun m =>
      tell (time_free m (Core.quit_event c)) (CallTimeFree m (Core.quit_event c))) ;;
    modify_core (Core.set_quit_event None)
  else pure tt.

(** [pa_msgobject_new(pa_core)] (pulsecore/msgobject.c is not among the
    sources): a new object, which becomes the core of the state.  Its
    members are indeterminate, and it holds the one reference of its
    creator. *)
Definition core_msgobject_new : CM ptr := fun w =>
  let rx := pa_msgobject_new (outside w) in
  Returns rx.1
    (called (CallMsgobjectNew rx.1)
       (set_core (indeterminate_core rx.2)
          (set_self rx.1
             (set_queue (set_msgobject_refs (<[rx.1 := 1]> (msgobject_refs (queue w)))
                           (queue w))
                (set_outside rx.2 w))))).

(** The assignments of [pa_core_new] from [c->parent.parent.free] to
    [c->is_system_instance], made to the new object [c0]: no call is made
    between them other than the five of [pa_idxset_new], whose results
    are [cl], [si], [so], [soo] and [sii]. *)
Definition core_members (c0 : pa_core) (m pool cl si so soo sii : option ptr) : pa_core :=
  Core.Mk (Some fn_core_free) (Some fn_core_process_msg) m cl si so soo sii
    None None None None None None None 0
    PA_SAMPLE_S16NE 44100 2
    None None None None None None None
    pool 0 None (-1) 20 20 PA_RESAMPLER_SRC_SINC_FASTEST 0
    (Core.cookie c0) (Core.asyncmsgq_event c0).

(** [pa_core_new] from [pa_msgobject_new] on, with the pool it uses. *)
Definition pa_core_new_with (m pool : option ptr) : CM (option ptr) :=
  let* c := core_msgobject_new in
  let* cl := ask pa_idxset_new CallIdxsetNew in
  let* si := ask pa_idxset_new CallIdxsetNew in
  let* so := ask pa_idxset_new CallIdxsetNew in
  let* soo := ask pa_idxset_new CallIdxsetNew in
  let* sii := ask pa_idxset_new CallIdxsetNew in
  modify_core (fun c0 => core_members c0 m pool cl si so soo sii) ;;
  tell (pa_hook_init hook_sink_input_new) (CallHookInit hook_sink_input_new) ;;
  tell (pa_hook_init hook_sink_disconnect) (CallHookInit hook_sink_disconnect) ;;
  tell (pa_hook_init hook_source_output_new) (CallHookInit hook_source_output_new) ;;
  tell (pa_hook_init hook_source_disconnect) (CallHookInit hook_source_disconnect) ;;
  tell_core pa_property_init CallPropertyInit ;;
  let* r := ask pa_random CallRandom in
  modify_core (Core.set_cookie r) ;;
  tell (pa_check_signal_is_blocked SIGPIPE) (CallCheckSignalIsBlocked SIGPIPE) ;;
  on_queue (pa_asyncmsgq_new 0) (fun _ => CallAsyncmsgqNew 0) ;;
  let* r := on_queue pa_asyncmsgq_before_poll CallAsyncmsgqBeforePoll in
  pa_assert (r =? 0) ;;
  let* f := on_queue pa_asyncmsgq_get_fd CallAsyncmsgqGetFd in
  let* c1 := get_core in
  let* e := through (Core.mainloop c1) (fun ml =>
              ask (io_new ml f PA_IO_EVENT_INPUT fn_asyncmsgq_cb)
                (CallIoNew ml f PA_IO_EVENT_INPUT fn_asyncmsgq_cb)) in
  modify_core (Core.set_asyncmsgq_event e) ;;
  pa_assert (nonnull e) ;;
  pure (Some c).

(** [pa_core_new]: the choice of the memory pool, then the rest. *)
Definition pa_core_new (m : option ptr) (shared : Z) : CM (option ptr) :=
  pa_assert (nonnull m) ;;
  let* sp :=
    (if negb (shared =? 0)
     then
       let* pool := ask (pa_mempool_new shared) (CallMempoolNew shared) in
       if nonnull pool then pure (shared, pool)
       else note CallLogWarn ;; pure (0, pool)
     else pure (shared, None)) in
  if sp.1 =? 0
  then
    let* pool := ask (pa_mempool_new sp.1) (CallMempoolNew sp.1) in
    if nonnull pool then pa_core_new_with m pool
    else note CallLog ;; pure None
  else pa_core_new_with m sp.2.

(** [assert(pa_idxset_isempty(s)); pa_idxset_free(s, NULL, NULL)] for a
    member [s] of the core. *)
Definition free_empty_idxset (s : pa_core → option ptr) : CM unit :=
  let* c := get_core in
  let* x := get_outside in
  pa_assert (pa_idxset_isempty (s c) x) ;;
  tell (pa_idxset_free (s c)) (CallIdxsetFree (s c)).

(** [core_free] up to the calls on the queue. *)
Definition core_free_registries (o : option ptr) : CM unit :=
  PA_CORE o ;;
  tell_core pa_module_unload_all CallModuleUnloadAll ;;
  let* c := get_core in
  pa_assert (negb (nonnull (Core.modules c))) ;;
  free_empty_idxset Core.clients ;;
  free_empty_idxset Core.sinks ;;
  free_empty_idxset Core.sources ;;
  free_empty_idxset Core.source_outputs ;;
  free_empty_idxset Core.sink_inputs ;;
  tell_core pa_scache_free CallScacheFree ;;
  tell_core pa_namereg_free CallNameregFree ;;
  tell_core pa_autoload_free CallAutoloadFree ;;
  tell_core pa_subscription_free_all CallSubscriptionFreeAll ;;
  let* c := get_core in
  (if nonnull (Core.quit_event c)
   then through (Core.mainloop c) (fun m =>
          tell (time_free m (Core.quit_event c)) (CallTimeFree m (Core.quit_event c)))
   else pure tt) ;;
  tell (pa_xfree (Core.default_source_name c)) (CallXfree (Core.default_source_name c)) ;;
  tell (pa_xfree (Core.default_sink_name c)) (CallXfree (Core.default_sink_name c)).

(** [core_free] from [pa_mempool_free] on. *)
Definition core_free_rest : CM unit :=
  let* c := get_core in
  tell (pa_mempool_free (Core.mempool c)) (CallMempoolFree (Core.mempool c)) ;;
  tell_core pa_property_cleanup CallPropertyCleanup ;;
  let* c := get_core in
  through (Core.mainloop c) (fun m =>
    tell (io_free m (Core.asyncmsgq_event c)) (CallIoFree m (Core.asyncmsgq_event c))) ;;
  tell (pa_hook_free hook_sink_input_new) (CallHookFree hook_sink_input_new) ;;
  tell (pa_hook_free hook_sink_disconnect) (CallHookFree hook_sink_disconnect) ;;
  tell (pa_hook_free hook_source_output_new) (CallHookFree hook_source_output_new) ;;
  tell (pa_hook_free hook_source_disconnect) (CallHookFree hook_source_disconnect) ;;
  fun w => tell (pa_xfree (Some (self w))) (CallXfree (Some (self w))) w.

(** [core_free]; [fuel] bounds the loop of [pa_asyncmsgq_free]. *)
Definition core_free (fuel : nat) (o : option ptr) : CM unit :=
  core_free_registries o ;;
  on_queue pa_asyncmsgq_after_poll (fun _ => CallAsyncmsgqAfterPoll) ;;
  on_queue (pa_asyncmsgq_free fuel) (fun _ => CallAsyncmsgqFree) ;;
  core_free_rest.

End CoreC.

Arguments core_world : clear implicits.
Arguments CM : clear implicits.
Arguments set_core {Q E X} v w /.
Arguments set_self {Q E X} v w /.
Arguments set_queue {Q E X} v w /.
Arguments set_outside {Q E X} v w /.
Arguments called {Q E X} e w /.

(** ** Reading the logs of the core and of its queue *)

(** The timers pending after the calls of [time_new] and [time_free] in
    a log, oldest first; [None] if a timer is freed that is not pending. *)
Fixpoint remove_timer (t : ptr) (live : list ptr) : option (list ptr) :=
  match live with
  | [] => None
  | t' :: live =>
      if bool_decide (t' = t) then Some live
      else (t' ::.) <$> remove_timer t live
  end.

Definition timer_call (live : option (list ptr)) (e : core_call) : option (list ptr) :=
  match e with
  | CallTimeNew _ _ _ (Some t) => (fun l => l ++ [t]) <$> live
  | CallTimeFree _ (Some t) => live ≫= remove_timer t
  | _ => live
  end.

Definition pending_timers (l : list core_call) : option (list ptr) :=
  foldl timer_call (Some []) l.

(** The poll discipline of the underlying queue, for the consumer's
    calls in a log: before_poll is called only on a queue that is not
    armed and arms it when it returns 0, after_poll is called only on an
    armed queue and disarms it, and nothing is popped from an armed
    queue.  The result is whether the queue is armed at the end, or
    [None] if the discipline is broken. *)
Fixpoint poll_discipline (armed : bool) (tr : list event) : option bool :=
  match tr with
  | [] => Some armed
  | EvBeforePoll r :: tr => if armed then None else poll_discipline (r =? 0) tr
  | EvAfterPoll :: tr => if armed then poll_discipline false tr else None
  | EvPop _ _ :: tr => if armed then None else poll_discipline false tr
  | _ :: tr => poll_discipline armed tr
  end.

Section CoreSessions.
Context {Q E X : Type} `{!AsyncQ Q} `{!AsyncQNew Q} `{!Users E} `{!Collaborators X}.

(** The core needs no change by [pa_core_check_quit]: a pending quit
    timer goes with no client, and no timer goes with a client or with a
    negative idle time. *)
Definition settled (w : core_world Q E X) : Prop :=
  let n := pa_idxset_size (Core.clients (core w)) (outside w) in
  if nonnull (Core.quit_event (core w)) then n = 0%N
  else Core.exit_idle_time (core w) < 0 ∨ n ≠ 0%N.

(** What happens to a core between its creation and its destruction, as
    far as the quit timer is concerned: [pa_core_check_quit] is called,
    the main loop calls [quit_callback] for the pending timer, and other
    code changes the rest of the server (clients come and go) and members
    of the core other than [quit_event]. *)
Inductive core_step :=
| StepCheckQuit
| StepQuitFires (m : option ptr) (tv : option timeval)
| StepElsewhere (f : pa_core → pa_core) (g : X → X).

Definition core_step_run (s : core_step) : CM Q E X unit :=
  match s with
  | StepCheckQuit => pa_core_check_quit
  | StepQuitFires m tv => fun w =>
      match Core.quit_event (core w) with
      | Some e => quit_callback m (Some e) tv w
      | None => Returns tt w
      end
  | StepElsewhere f g => fun w =>
      Returns tt
        (set_outside (g (outside w))
           (set_core (Core.set_quit_event (Core.quit_event (core w)) (f (core w))) w))
  end.

Fixpoint core_session (ss : list core_step) : CM Q E X unit :=
  match ss with
  | [] => pure tt
  | s :: ss => core_step_run s ;; core_session ss
  end.




(** A call of core.c that leaves the queue alone. *)
Definition keeps_queue {A} (m : CM Q E X A) : Prop :=
  ∀ w r w', m w = Returns r w' → queue w' = queue w ∧ self w' = self w.

End CoreSessions.

Arguments core_step : clear implicits.

(** The bookkeeping of the quit timer: the timers that the core's calls
    left pending are the one in [c->quit_event], or none. *)
Definition timers_accounted {Q E X} (w : core_world Q E X) : Prop :=
  pending_timers (core_log w) = Some (option_list (Core.quit_event (core w))).

(** ** A server for the examples

    The rest of the server as a clock, the next address to hand out, the
    number of connected clients, and whether shared memory is to be had.
    Every index set other than that of the clients is empty, and the
    collaborators that are passed the core leave it as it is. *)
Record toy_server := {
  now : Z;
  next : ptr;
  n_clients : N;
  shared_memory : bool
}.

Definition hand_out (x : toy_server) : option ptr * toy_server :=
  (Some (next x),
   {| now := now x; next := Pos.succ (next x); n_clients := n_clients x;
      shared_memory := shared_memory x |}).

Definition toy_core : pa_core :=
  Core.Mk None None None None None None None None None None None None None None None 0
    0 0 0 None None None None None None None None 0 None 0 0 0 0 0 0 None.

#[export] Instance toy_collaborators : Collaborators toy_server := {
  PA_CORE_MESSAGE_UNLOAD_MODULE := 0;
  PA_SAMPLE_S16NE := 3;
  PA_RESAMPLER_SRC_SINC_FASTEST := 2;
  SIGPIPE := 13;
  TIME_T_MAX := 9223372036854775807;
  io_new := fun _ _ _ _ => hand_out;
  io_free := fun _ _ x => x;
  time_new := fun _ _ _ => hand_out;
  time_free := fun _ _ x => x;
  mainloop_quit := fun _ _ x => x;
  pa_gettimeofday := fun x => (Timeval.Mk (now x) 0, x);
  pa_idxset_new := hand_out;
  pa_idxset_size := fun _ x => n_clients x;
  pa_idxset_isempty := fun _ x => (n_clients x =? 0)%N;
  pa_idxset_free := fun _ x => x;
  pa_mempool_new := fun shared x =>
    if negb (shared =? 0) && negb (shared_memory x) then (None, x) else hand_out x;
  pa_mempool_free := fun _ x => x;
  pa_msgobject_new := fun x => (next x, (hand_out x).2);
  indeterminate_core := fun _ => toy_core;
  pa_hook_init := fun _ x => x;
  pa_hook_free := fun _ x => x;
  pa_property_init := fun c x => (c, x);
  pa_property_cleanup := fun c x => (c, x);
  pa_random := fun x => (now x, x);
  pa_check_signal_is_blocked := fun _ x => x;
  pa_module_unload := fun c _ x => (c, x);
  pa_module_unload_all := fun c x => (c, x);
  pa_scache_free := fun c x => (c, x);
  pa_namereg_free := fun c x => (c, x);
  pa_autoload_free := fun c x => (c, x);
  pa_subscription_free_all := fun c x => (c, x);
  pa_xfree := fun _ x => x
}.

(** A process before [pa_core_new]: no queue memory in use, one message
    target at address 1 with one reference, no shared memory, the time
    1000 and no client. *)
Definition toy_start : core_world fifo Z toy_server := {|
  core := toy_core;
  self := 1%positive;
  queue := {|
    msgq := {| asyncq := {| cells := []; capacity := 0; fd := 0 |};
               mutex := false;
               current := None |};
    items := ∅;
    flist := {| flist_cells := []; flist_size := 2 |};
    msgobject_refs := {[ 1%positive := 1 ]};
    memblock_refs := ∅;
    semaphores := ∅;
    env := 0;
    trace := []
  |};
  outside := {| now := 1000; next := 100%positive; n_clients := 0; shared_memory := false |};
  core_log := []
|}.

(** The constructor of the queue for the examples: capacity 4 whatever
    the hint, descriptor 3. *)
#[export] Instance toy_asyncq_new : AsyncQNew fifo := fifo_asyncq_new (fun _ => 4%nat) 3.

(** A core in use: main loop at address 50, idle time 5 seconds, no
    quit timer, every pointer to an object of another module NULL. *)
Definition toy_running_core : pa_core :=
  Core.Mk (Some fn_core_free) (Some fn_core_process_msg) (Some 50%positive)
    None None None None None None None None None None None None 0
    3 44100 2 None None None None None None None None 0 None 5 20 20 2 0 0 None.

(** The core in use, with an empty queue and no client. *)
Definition toy_running : core_world fifo Z toy_server := {|
  core := toy_running_core;
  self := 1%positive;
  queue := example_world [] None;
  outside := {| now := 1000; next := 100%positive; n_clients := 0; shared_memory := false |};
  core_log := []
|}.

(** The core in use, with the message of scenario 1 posted to it and not
    yet delivered. *)
Definition toy_loaded : core_world fifo Z toy_server := {|
  core := toy_running_core;
  self := 1%positive;
  queue := example_world [10%positive] None;
  outside := {| now := 1000; next := 100%positive; n_clients := 0; shared_memory := false |};
  core_log := []
|}.

(** A client connects. *)
Definition client_connects (x : toy_server) : toy_server :=
  {| now := now x; next := next x; n_clients := N.succ (n_clients x);
     shared_memory := shared_memory x |}.

(** An idle spell: the core is checked without clients, which arms the
    quit timer; a client connects and the core is checked again, which
    frees the timer. *)
Definition idle_spell : list (core_step toy_server) :=
  [ StepCheckQuit; StepElsewhere (fun c => c) client_connects; StepCheckQuit ].

(** A post of a message for target 1 and the get that takes it. *)
Definition post_and_get : list call :=
  [ Post (Some 1%positive) 7 None 0 None None;
    Get (Some None) (Some 0) (Some None) (Some 0) (Some pa_memchunk_reset) false ].

(** * Properties *)

(** Running a call symbolically: unfold the sequencing and the
    primitives, and use the facts known about the state. *)
#[local] Arguments fresh : simpl never.
#[local] Arguments dom : simpl never.

Ltac unfold_prims :=
  unfold done_reply in *; cbn [in_order] in *;
  unfold bind, pure, skip, get_current, put_current, load_item, modify_item,
    pa_assert, pa_flist_pop, pa_flist_push, pa_xnew_item, pa_xfree_item,
    stack_item, stack_release,
    pa_msgobject_ref, pa_msgobject_unref, pa_msgobject_assert_ref,
    pa_memblock_ref, pa_memblock_unref, pa_mutex_lock, pa_mutex_unlock,
    pa_semaphore_new, pa_semaphore_wait, pa_semaphore_post, pa_semaphore_free,
    asyncq_push, asyncq_pop, asyncq_before_poll, asyncq_after_poll, asyncq_get_fd,
    call_free_cb, call_process_msg in *.

Ltac unfold_setters :=
  unfold set_msgq, set_items, set_flist, set_msgobject_refs, set_memblock_refs,
    set_semaphores, set_env, log, set_asyncq, set_mutex, set_current,
    Item.set_code, Item.set_object, Item.set_userdata, Item.set_free_cb,
    Item.set_offset, Item.set_memchunk, Item.set_semaphore, Item.set_ret in *.

(** A sequence returns only if both of its parts do. *)
Lemma bind_returns {W A B} (m : W → outcome W A) (k : A → W → outcome W B) w y w' :
  bind m k w = Returns y w' →
  ∃ x w1, m w = Returns x w1 ∧ k x w1 = Returns y w'.
Proof.
  unfold bind. destruct (m w) as [x w1| |w1| |]; try discriminate. eauto.
Qed.

Section Properties.
Context {Q E : Type} `{!AsyncQ Q} `{!Users E}.
Implicit Types w : world Q E.

(** [pa_asyncmsgq_done] on the post path. *)
Lemma done_post_path (ret : Z) w c it :
  current (msgq w) = Some c →
  items w !! c = Some it →
  Item.semaphore it = None →
  ∃ w', pa_asyncmsgq_done ret w = Returns tt w' ∧
    let pooled := (length (flist_cells (flist w)) <? flist_size (flist w))%nat in
    trace w' = trace w
      ++ match Item.free_cb it with
         | Some cb => [EvFreeCb cb (Item.userdata it)]
         | None => []
         end
      ++ match Item.object it with
         | Some o => [EvMsgobjectUnref o]
         | None => []
         end
      ++ match Chunk.memblock (Item.memchunk it) with
         | Some b => [EvMemblockUnref b]
         | None => []
         end
      ++ (if pooled then [EvFlistPush c 0] else [EvFlistPush c (-1); EvXfree c])
    ∧ env w' = match Item.free_cb it with
               | Some cb => run_free_cb cb (Item.userdata it) (env w)
               | None => env w
               end
    ∧ msgobject_refs w' =
        match Item.object it with
        | Some o => <[o := refcnt (msgobject_refs w) o - 1]> (msgobject_refs w)
        | None => msgobject_refs w
        end
    ∧ memblock_refs w' =
        match Chunk.memblock (Item.memchunk it) with
        | Some b => <[b := refcnt (memblock_refs w) b - 1]> (memblock_refs w)
        | None => memblock_refs w
        end
    ∧ flist_cells (flist w') =
        (if pooled then c :: flist_cells (flist w) else flist_cells (flist w))
    ∧ flist_size (flist w') = flist_size (flist w)
    ∧ items w' = (if pooled then items w else delete c (items w))
    ∧ semaphores w' = semaphores w
    ∧ msgq w' = set_current None (msgq w).
Proof.
  intros Hc Hi Hs.
  unfold pa_asyncmsgq_done. unfold_prims. rewrite Hc. simpl. rewrite Hi, Hs.
  destruct (Item.free_cb it), (Item.object it), (Chunk.memblock (Item.memchunk it));
    simpl;
    destruct (length (flist_cells (flist w)) <? flist_size (flist w))%nat; simpl;
    rewrite ?Hi; simpl; eexists; (split; [reflexivity|]); simpl;
    rewrite <- ?app_assoc; simpl; repeat split; reflexivity.
Qed.

(** C1.  [pa_asyncmsgq_done] on an in-flight item without reply
    semaphore returns and releases the item's resources, each once: the
    calls it makes are, in this order, [free_cb(userdata)] if [free_cb] is
    set, one unref of [object] if it is set, one unref of the chunk's
    block if it is set, and the push of the record onto the free list,
    followed by freeing the record if the list was full.  The counts drop
    by one, the record ends up in the pool or is gone from memory, and
    [current] is cleared. *)
Theorem done_releases_posted_item (ret : Z) w c it :
  current (msgq w) = Some c →
  items w !! c = Some it →
  Item.semaphore it = None →
  ∃ w', pa_asyncmsgq_done ret w = Returns tt w' ∧
    let pooled := (length (flist_cells (flist w)) <? flist_size (flist w))%nat in
    trace w' = trace w
      ++ match Item.free_cb it with
         | Some cb => [EvFreeCb cb (Item.userdata it)]
         | None => []
         end
      ++ match Item.object it with
         | Some o => [EvMsgobjectUnref o]
         | None => []
         end
      ++ match Chunk.memblock (Item.memchunk it) with
         | Some b => [EvMemblockUnref b]
         | None => []
         end
      ++ (if pooled then [EvFlistPush c 0] else [EvFlistPush c (-1); EvXfree c])
    ∧ env w' = match Item.free_cb it with
               | Some cb => run_free_cb cb (Item.userdata it) (env w)
               | None => env w
               end
    ∧ msgobject_refs w' =
        match Item.object it with
        | Some o => <[o := refcnt (msgobject_refs w) o - 1]> (msgobject_refs w)
        | None => msgobject_refs w
        end
    ∧ memblock_refs w' =
        match Chunk.memblock (Item.memchunk it) with
        | Some b => <[b := refcnt (memblock_refs w) b - 1]> (memblock_refs w)
        | None => memblock_refs w
        end
    ∧ flist_cells (flist w') =
        (if pooled then c :: flist_cells (flist w) else flist_cells (flist w))
    ∧ flist_size (flist w') = flist_size (flist w)
    ∧ items w' = (if pooled then items w else delete c (items w))
    ∧ semaphores w' = semaphores w
    ∧ msgq w' = set_current None (msgq w).
Proof. apply done_post_path. Qed.

(** Results of [pa_asyncmsgq_get] and [pa_asyncmsgq_done] used by several
    properties. *)

Lemma get_in_flight object code userdata offset chunk wait w :
  nonnull (current (msgq w)) = true →
  pa_asyncmsgq_get object code userdata offset chunk wait w = AssertFails.
Proof.
  intros Hc. unfold pa_asyncmsgq_get. unfold_prims.
  destruct code; simpl; [|reflexivity]. rewrite Hc. reflexivity.
Qed.

Lemma get_empty object code userdata offset chunk wait w q' :
  current (msgq w) = None →
  pa_asyncq_pop (asyncq (msgq w)) wait = Some (None, q') →
  pa_asyncmsgq_get object (Some code) userdata offset chunk wait w =
    Returns (-1, Build_out_params object (Some code) userdata offset chunk)
      (log (EvPop wait None) (set_msgq (set_asyncq q' (msgq w)) w)).
Proof.
  intros Hc Hpop. unfold pa_asyncmsgq_get. unfold_prims. simpl.
  rewrite Hc. simpl. rewrite Hpop. simpl.
  destruct w as [[q m c] ? ? ? ? ? ? ?]; simpl in *. subst c. reflexivity.
Qed.

Lemma get_item object code userdata offset chunk wait w c q' it :
  current (msgq w) = None →
  pa_asyncq_pop (asyncq (msgq w)) wait = Some (Some c, q') →
  items w !! c = Some it →
  (nonnull object = true → ∀ o, Item.object it = Some o → 0 < refcnt (msgobject_refs w) o) →
  pa_asyncmsgq_get object (Some code) userdata offset chunk wait w =
    Returns (0, {| out_object := if nonnull object then Some (Item.object it) else None;
                   out_code := Some (Item.code it);
                   out_userdata := if nonnull userdata then Some (Item.userdata it) else None;
                   out_offset := if nonnull offset then Some (Item.offset it) else None;
                   out_chunk := if nonnull chunk then Some (Item.memchunk it) else None |})
      (log (EvPop wait (Some c))
         (set_msgq (set_current (Some c) (set_asyncq q' (msgq w))) w)).
Proof.
  intros Hc Hpop Hit Href. unfold pa_asyncmsgq_get. unfold_prims. simpl.
  rewrite Hc. simpl. rewrite Hpop. simpl. rewrite Hit.
  destruct (nonnull object) eqn:Ho; simpl; [|reflexivity].
  destruct (Item.object it) as [o|] eqn:Hobj; simpl; [|reflexivity].
  specialize (Href eq_refl o eq_refl).
  destruct (0 <? refcnt (msgobject_refs w) o) eqn:Hlt; [reflexivity|].
  apply Z.ltb_ge in Hlt. lia.
Qed.

Lemma done_idle ret w :
  current (msgq w) = None → pa_asyncmsgq_done ret w = AssertFails.
Proof.
  intros Hc. unfold pa_asyncmsgq_done. unfold_prims. rewrite Hc. reflexivity.
Qed.

Lemma done_clears_current ret w w' :
  pa_asyncmsgq_done ret w = Returns tt w' → current (msgq w') = None.
Proof.
  unfold pa_asyncmsgq_done. intros Hrun.
  apply bind_returns in Hrun as (c & w1 & _ & Hrun).
  apply bind_returns in Hrun as (_ & w2 & _ & Hrun).
  apply bind_returns in Hrun as (_ & w3 & _ & Hrun).
  unfold put_current in Hrun. injection Hrun as <-. reflexivity.
Qed.

Lemma get_returns_current object code userdata offset chunk wait w rl w' :
  pa_asyncmsgq_get object code userdata offset chunk wait w = Returns rl w' →
  (rl.1 = 0 ∨ rl.1 = -1) ∧ nonnull (current (msgq w')) = (rl.1 =? 0).
Proof.
  unfold pa_asyncmsgq_get. unfold_prims.
  destruct code; simpl; [|discriminate].
  destruct (nonnull (current (msgq w))); simpl; [discriminate|].
  destruct (pa_asyncq_pop (asyncq (msgq w)) wait) as [[[c|] q']|]; simpl;
    [ | intros [= <- <-]; simpl; auto | discriminate ].
  destruct (items w !! c) as [it|]; [|discriminate].
  destruct (nonnull object); simpl.
  - destruct (Item.object it) as [o|]; simpl.
    + destruct (0 <? refcnt (msgobject_refs w) o); simpl; [|discriminate].
      intros [= <- <-]; simpl; auto.
    + intros [= <- <-]; simpl; auto.
  - intros [= <- <-]; simpl; auto.
Qed.

Lemma consumer_run_in_flight cs : ∀ last w l w',
  nonnull (current (msgq w)) = got_item last →
  consumer_run cs last w = Returns l w' →
  nonnull (current (msgq w')) = got_item l.
Proof.
  induction cs as [|c cs IH]; intros last w l w' Hinv Hrun; simpl in Hrun.
  - unfold pure in Hrun. injection Hrun as <- <-. exact Hinv.
  - apply bind_returns in Hrun as (r & w1 & Hstep & Hrun).
    eapply IH; [|exact Hrun].
    destruct c as [object code userdata offset chunk wait|ret]; simpl in Hstep.
    + apply bind_returns in Hstep as (rl & w2 & Hget & Hstep).
      unfold pure in Hstep. injection Hstep as <- <-.
      apply get_returns_current in Hget. simpl. tauto.
    + apply bind_returns in Hstep as ([] & w2 & Hdone & Hstep).
      unfold pure in Hstep. injection Hstep as <- <-.
      apply done_clears_current in Hdone. rewrite Hdone. reflexivity.
Qed.

Lemma done_send_path ret w c it s n :
  current (msgq w) = Some c →
  items w !! c = Some it →
  Item.semaphore it = Some s →
  semaphores w !! s = Some n →
  pa_asyncmsgq_done ret w =
    Returns tt
      (set_msgq (set_current None (msgq w))
         (log (EvSemaphorePost s)
            (set_semaphores (<[s := S n]> (semaphores w))
               (set_items (<[c := Item.set_ret ret it]> (items w)) w)))).
Proof.
  intros Hc Hit Hs Hn. unfold pa_asyncmsgq_done. unfold_prims.
  rewrite Hc. simpl. rewrite Hit. simpl. rewrite Hs. simpl. rewrite Hit. simpl.
  rewrite Hn, Hs. reflexivity.
Qed.

Lemma send_push_outcome object code userdata offset chunk w :
  let i := fresh (dom (items w)) in
  let s := fresh (dom (semaphores w)) in
  let filled tr0 a :=
    Build_world a
      (<[i := Item.Mk code object userdata None offset
                (default pa_memchunk_reset chunk) (Some s) (-1)]> (items w))
      (flist w) (msgobject_refs w) (memblock_refs w)
      (<[s := 0%nat]> (semaphores w)) (env w)
      (trace w ++ EvSemaphoreNew s :: EvMutexLock :: tr0) in
  mutex (msgq w) = false →
  pa_asyncmsgq_send_push object code userdata offset chunk w =
    if match chunk with Some c => nonnull (Chunk.memblock c) | None => true end
    then
      match pa_asyncq_push (asyncq (msgq w)) i true with
      | Some (r, q') =>
          if r =? 0
          then Returns i
                 (filled [EvPush i true 0; EvMutexUnlock]
                    (Build_pa_asyncmsgq q' false (current (msgq w))))
          else AssertFails
      | None =>
          Blocks (filled [] (Build_pa_asyncmsgq (asyncq (msgq w)) true (current (msgq w))))
      end
    else AssertFails.
Proof.
  intros i s filled Hm.
  destruct w as [[q m cur] its fl orefs brefs sems e tr]; simpl in *. subst m.
  unfold pa_asyncmsgq_send_push. unfold_prims. simpl. fold i.
  destruct chunk as [c|]; simpl;
    [destruct (Chunk.memblock c) as [b|] eqn:Hb; simpl|];
    repeat (rewrite ?lookup_insert_eq, ?insert_insert_eq; simpl);
    try reflexivity;
    fold s;
    (destruct (pa_asyncq_push q i true) as [[r q0]|] eqn:Hpush;
     [destruct (r =? 0) eqn:Hr; [apply Z.eqb_eq in Hr; subst r|]|]);
    subst filled; simpl;
    repeat (rewrite ?lookup_insert_eq, ?insert_insert_eq, ?Hr; simpl);
    rewrite <- ?app_assoc; reflexivity.
Qed.

Lemma send_push_returns object code userdata offset chunk w q' :
  let i := fresh (dom (items w)) in
  let s := fresh (dom (semaphores w)) in
  mutex (msgq w) = false →
  (∀ c, chunk = Some c → nonnull (Chunk.memblock c) = true) →
  pa_asyncq_push (asyncq (msgq w)) i true = Some (0, q') →
  pa_asyncmsgq_send_push object code userdata offset chunk w =
    Returns i
      (Build_world (Build_pa_asyncmsgq q' false (current (msgq w)))
         (<[i := Item.Mk code object userdata None offset
                   (default pa_memchunk_reset chunk) (Some s) (-1)]> (items w))
         (flist w) (msgobject_refs w) (memblock_refs w)
         (<[s := 0%nat]> (semaphores w)) (env w)
         (trace w ++ [EvSemaphoreNew s; EvMutexLock; EvPush i true 0; EvMutexUnlock])).
Proof.
  intros i s Hm Hchunk Hpush.
  rewrite send_push_outcome by exact Hm. fold i. rewrite Hpush. simpl.
  destruct chunk as [c|]; [rewrite (Hchunk c eq_refl)|]; reflexivity.
Qed.

(** C3.  On the send path the queue leaves the payload alone.
    [pa_asyncmsgq_send], up to its wait, stores [object] and [chunk] in
    the item as they are, with no releaser and the answer -1, creates the
    reply semaphore and pushes the item under the mutex: the reference
    counts, the pool and the users' state are as before and no call other
    than those four is made.  [pa_asyncmsgq_done] on an item with a
    semaphore writes [ret] into the item, posts the semaphore and clears
    [current], and does nothing else: every other field of the item, the
    reference counts, the pool and the users' state are unchanged. *)
Theorem send_path_leaves_payload object code userdata offset chunk w q' ret w2 c it s n :
  mutex (msgq w) = false →
  (∀ m, chunk = Some m → nonnull (Chunk.memblock m) = true) →
  pa_asyncq_push (asyncq (msgq w)) (fresh (dom (items w))) true = Some (0, q') →
  current (msgq w2) = Some c →
  items w2 !! c = Some it →
  Item.semaphore it = Some s →
  semaphores w2 !! s = Some n →
  (∃ i w', pa_asyncmsgq_send_push object code userdata offset chunk w = Returns i w'
     ∧ items w' = <[i := Item.Mk code object userdata None offset
                            (default pa_memchunk_reset chunk)
                            (Some (fresh (dom (semaphores w)))) (-1)]> (items w)
     ∧ msgobject_refs w' = msgobject_refs w
     ∧ memblock_refs w' = memblock_refs w
     ∧ flist w' = flist w
     ∧ env w' = env w
     ∧ trace w' = trace w ++ [EvSemaphoreNew (fresh (dom (semaphores w)));
                              EvMutexLock; EvPush i true 0; EvMutexUnlock])
  ∧ (∃ w', pa_asyncmsgq_done ret w2 = Returns tt w'
     ∧ items w' = <[c := Item.Mk (Item.code it) (Item.object it) (Item.userdata it)
                            (Item.free_cb it) (Item.offset it) (Item.memchunk it)
                            (Item.semaphore it) ret]> (items w2)
     ∧ semaphores w' = <[s := S n]> (semaphores w2)
     ∧ msgobject_refs w' = msgobject_refs w2
     ∧ memblock_refs w' = memblock_refs w2
     ∧ flist w' = flist w2
     ∧ env w' = env w2
     ∧ trace w' = trace w2 ++ [EvSemaphorePost s]
     ∧ msgq w' = set_current None (msgq w2)).
Proof.
  intros Hm Hchunk Hpush Hc Hit Hs Hn. split.
  - eexists _, _. split; [apply send_push_returns; eassumption|].
    simpl. repeat split; reflexivity.
  - eexists. split; [eapply done_send_path; eassumption|].
    simpl. repeat split; reflexivity.
Qed.

(** C4.  The consumer side is a two-state machine on [current].
    [pa_asyncmsgq_get] asserts that [current] is empty; when the pop
    finds nothing it returns -1 and leaves the state as it was, apart
    from what the pop did to the asyncq and the call log; whenever it
    returns, [current] is set exactly if it returned 0.
    [pa_asyncmsgq_done] asserts that [current] is set and, whenever it
    returns, has cleared it.  Hence after any sequence of get and done
    calls that starts idle and does not abort, [current] is set exactly
    if the last call was a get that succeeded. *)
Theorem consumer_state_machine object code userdata offset chunk wait ret cs w :
  (nonnull (current (msgq w)) = true →
     pa_asyncmsgq_get object code userdata offset chunk wait w = AssertFails)
  ∧ (∀ c0 q', current (msgq w) = None →
       pa_asyncq_pop (asyncq (msgq w)) wait = Some (None, q') →
       ∃ w', pa_asyncmsgq_get object (Some c0) userdata offset chunk wait w =
               Returns (-1, Build_out_params object (Some c0) userdata offset chunk) w'
         ∧ current (msgq w') = None
         ∧ mutex (msgq w') = mutex (msgq w)
         ∧ items w' = items w ∧ flist w' = flist w
         ∧ msgobject_refs w' = msgobject_refs w ∧ memblock_refs w' = memblock_refs w
         ∧ semaphores w' = semaphores w ∧ env w' = env w)
  ∧ (∀ rl w', pa_asyncmsgq_get object code userdata offset chunk wait w = Returns rl w' →
       (rl.1 = 0 ∨ rl.1 = -1) ∧ nonnull (current (msgq w')) = (rl.1 =? 0))
  ∧ (current (msgq w) = None → pa_asyncmsgq_done ret w = AssertFails)
  ∧ (∀ w', pa_asyncmsgq_done ret w = Returns tt w' → current (msgq w') = None)
  ∧ (∀ l w', current (msgq w) = None →
       consumer_run cs None w = Returns l w' →
       nonnull (current (msgq w')) = got_item l).
Proof.
  repeat split.
  - apply get_in_flight.
  - intros c0 q' Hc Hpop. eexists. split; [eapply get_empty; eassumption|].
    simpl. repeat split; done.
  - eapply get_returns_current; eassumption.
  - eapply get_returns_current; eassumption.
  - apply done_idle.
  - apply done_clears_current.
  - intros l w' Hc. apply consumer_run_in_flight. rewrite Hc. reflexivity.
Qed.

(** C9.  [pa_asyncmsgq_dispatch] returns what the handler of [object]
    returns for the arguments, or 0 when there is no object.  It always
    returns; the value and the users' state after the call are determined
    by the arguments and the users' state before it, and the queue, the
    item memory, the pool, the reference counts and the semaphores are the
    same after the call. *)
Theorem dispatch_calls_handler object code userdata offset memchunk w :
  ∃ r w',
    pa_asyncmsgq_dispatch object code userdata offset memchunk w = Returns r w'
    ∧ r = match object with
          | Some o => (process_msg o code userdata offset memchunk (env w)).1
          | None => 0
          end
    ∧ env w' = match object with
               | Some o => (process_msg o code userdata offset memchunk (env w)).2
               | None => env w
               end
    ∧ trace w' = trace w ++ match object with
                            | Some o => [EvProcessMsg o code userdata offset memchunk r]
                            | None => []
                            end
    ∧ msgq w' = msgq w ∧ items w' = items w ∧ flist w' = flist w
    ∧ msgobject_refs w' = msgobject_refs w ∧ memblock_refs w' = memblock_refs w
    ∧ semaphores w' = semaphores w.
Proof.
  unfold pa_asyncmsgq_dispatch. destruct object as [o|]; unfold_prims.
  - eexists _, _. split; [reflexivity|]. simpl. repeat split; reflexivity.
  - eexists _, _. split; [reflexivity|]. simpl. rewrite app_nil_r.
    repeat split; reflexivity.
Qed.

(** C10.  [pa_asyncmsgq_get] accepts NULL for the out-parameters
    [object], [userdata], [offset] and [chunk]: when the queue is idle and
    the pop yields an item, the call returns 0, every out-parameter that
    is not NULL holds the corresponding field of the item, and a NULL one
    is skipped.  (When [object] is not NULL and the item has a target, the
    target must be referenced: the code asserts it.)  A NULL [code] fails
    the assertion. *)
Theorem get_tolerates_null_out_params object code userdata offset chunk wait w c q' it :
  current (msgq w) = None →
  pa_asyncq_pop (asyncq (msgq w)) wait = Some (Some c, q') →
  items w !! c = Some it →
  (nonnull object = true → ∀ o, Item.object it = Some o → 0 < refcnt (msgobject_refs w) o) →
  (∃ l w', pa_asyncmsgq_get object (Some code) userdata offset chunk wait w = Returns (0, l) w'
     ∧ out_code l = Some (Item.code it)
     ∧ out_object l = match object with Some _ => Some (Item.object it) | None => None end
     ∧ out_userdata l = match userdata with Some _ => Some (Item.userdata it) | None => None end
     ∧ out_offset l = match offset with Some _ => Some (Item.offset it) | None => None end
     ∧ out_chunk l = match chunk with Some _ => Some (Item.memchunk it) | None => None end
     ∧ current (msgq w') = Some c)
  ∧ pa_asyncmsgq_get object None userdata offset chunk wait w = AssertFails.
Proof.
  intros Hc Hpop Hit Href. split.
  - eexists _, _. split; [eapply get_item; eassumption|].
    simpl. destruct object, userdata, offset, chunk; simpl; repeat split; reflexivity.
  - reflexivity.
Qed.

(** *** The call log only grows *)

Lemma grows_pure {A} (x : A) : grows (Q:=Q) (E:=E) (pure x).
Proof. intros w y w' [= <- <-]. exists []. by rewrite app_nil_r. Qed.

Lemma grows_bind {A B} (m : M Q E A) (k : A → M Q E B) :
  grows m → (∀ x, grows (k x)) → grows (bind m k).
Proof.
  intros Hm Hk w y w' Hrun.
  apply bind_returns in Hrun as (x & w1 & Hrun1 & Hrun2).
  destruct (Hm _ _ _ Hrun1) as (tr1 & Htr1 & Hp1).
  destruct (Hk _ _ _ _ Hrun2) as (tr2 & Htr2 & Hp2).
  exists (tr1 ++ tr2). split; [by rewrite Htr2, Htr1, app_assoc|].
  by rewrite forallb_app, Hp1, Hp2.
Qed.

Ltac grows_prim :=
  let H := fresh in
  intros ? ? ? H; unfold_prims; unfold pa_assert in *; repeat case_match;
  simplify_eq; simpl;
  first [by eexists | by (exists []; rewrite app_nil_r)].

Ltac solve_grows :=
  repeat first
    [ apply grows_pure
    | apply grows_bind; [|intros ?]
    | match goal with
      | |- grows (match ?x with _ => _ end) => destruct x
      end
    | grows_prim ].

Lemma grows_get object code userdata offset chunk wait :
  grows (Q:=Q) (E:=E) (pa_asyncmsgq_get object code userdata offset chunk wait).
Proof. unfold pa_asyncmsgq_get. solve_grows. Qed.

Lemma grows_dispatch object code userdata offset memchunk :
  grows (Q:=Q) (E:=E) (pa_asyncmsgq_dispatch object code userdata offset memchunk).
Proof. unfold pa_asyncmsgq_dispatch. solve_grows. Qed.

Lemma grows_done ret : grows (Q:=Q) (E:=E) (pa_asyncmsgq_done ret).
Proof. unfold pa_asyncmsgq_done. solve_grows. Qed.

(** *** The readiness callback *)

Lemma cb_drain_idiom fuel : ∀ w w',
  asyncmsgq_cb_drain fuel w = Returns tt w' → idiom_drain w w'.
Proof.
  induction fuel as [|fuel IH]; intros w w' Hrun; simpl in Hrun; [discriminate|].
  apply bind_returns in Hrun as (rl & w1 & Hget & Hrun).
  destruct (rl.1 =? 0) eqn:Hr.
  - apply bind_returns in Hrun as (ret & w2 & Hdispatch & Hrun).
    apply bind_returns in Hrun as ([] & w3 & Hdone & Hrun).
    eapply idiom_drain_message; eauto. by apply Z.eqb_eq.
  - unfold skip, pure in Hrun. injection Hrun as <-.
    eapply idiom_drain_empty; eauto. by apply Z.eqb_neq.
Qed.

Lemma idiom_drain_cb w w' :
  idiom_drain w w' →
  ∃ fuel, ∀ fuel', (fuel ≤ fuel')%nat → asyncmsgq_cb_drain fuel' w = Returns tt w'.
Proof.
  induction 1 as [w rl w1 Hget Hr|w rl w1 ret w2 w3 w4 Hget Hr Hdispatch Hdone _ [fuel IH]].
  - exists 1%nat. intros [|fuel'] Hle; [lia|]. simpl.
    unfold bind. rewrite Hget. apply Z.eqb_neq in Hr. rewrite Hr. reflexivity.
  - exists (S fuel). intros [|fuel'] Hle; [lia|]. simpl.
    unfold bind at 1. rewrite Hget. apply Z.eqb_eq in Hr. rewrite Hr.
    unfold bind at 1. rewrite Hdispatch. unfold bind. rewrite Hdone.
    apply IH. lia.
Qed.

Lemma cb_loop_idiom fuel : ∀ w w',
  asyncmsgq_cb_loop fuel w = Returns tt w' → idiom_rearm w w'.
Proof.
  induction fuel as [|fuel IH]; intros w w' Hrun; simpl in Hrun; [discriminate|].
  apply bind_returns in Hrun as ([] & w1 & Hdrain & Hrun).
  apply bind_returns in Hrun as (r & w2 & Hpoll & Hrun).
  apply cb_drain_idiom in Hdrain.
  destruct (r =? 0) eqn:Hr.
  - unfold skip, pure in Hrun. injection Hrun as <-.
    apply Z.eqb_eq in Hr. subst r. eapply idiom_rearm_armed; eauto.
  - apply Z.eqb_neq in Hr. eapply idiom_rearm_observed; eauto.
Qed.

Lemma idiom_rearm_cb w w' :
  idiom_rearm w w' →
  ∃ fuel, ∀ fuel', (fuel ≤ fuel')%nat → asyncmsgq_cb_loop fuel' w = Returns tt w'.
Proof.
  induction 1 as [w w1 w2 Hdrain Hpoll|w w1 r w2 w3 Hdrain Hpoll Hr _ [fuel IH]].
  - apply idiom_drain_cb in Hdrain as [fuel Hdrain].
    exists (S fuel). intros [|fuel'] Hle; [lia|]. simpl.
    unfold bind at 1. rewrite Hdrain by lia.
    unfold bind. rewrite Hpoll. reflexivity.
  - apply idiom_drain_cb in Hdrain as [fuel0 Hdrain].
    exists (S (fuel0 `max` fuel)). intros [|fuel'] Hle; [lia|]. simpl.
    unfold bind at 1. rewrite Hdrain by lia.
    unfold bind. rewrite Hpoll. apply Z.eqb_neq in Hr. rewrite Hr.
    apply IH. lia.
Qed.

Lemma idiom_drain_grows w w' :
  idiom_drain w w' →
  ∃ tr, trace w' = trace w ++ tr ∧ forallb (fun e => negb (is_poll_call e)) tr = true.
Proof.
  induction 1 as [w rl w1 Hget _|w rl w1 ret w2 w3 w4 Hget _ Hdispatch Hdone _ IH].
  - by apply grows_get in Hget.
  - apply grows_get in Hget as (tr1 & Htr1 & Hp1).
    apply grows_dispatch in Hdispatch as (tr2 & Htr2 & Hp2).
    apply grows_done in Hdone as (tr3 & Htr3 & Hp3).
    destruct IH as (tr4 & Htr4 & Hp4).
    exists (tr1 ++ tr2 ++ tr3 ++ tr4).
    split; [by rewrite Htr4, Htr3, Htr2, Htr1, <- !app_assoc|].
    by rewrite !forallb_app, Hp1, Hp2, Hp3, Hp4.
Qed.

(** Steps 2 and 3 end with the call of before_poll that returns 0, and
    make no other such call and no call of after_poll. *)
Lemma idiom_rearm_ends_armed w w' :
  idiom_rearm w w' →
  ∃ tr, trace w' = trace w ++ tr ++ [EvBeforePoll 0]
    ∧ Forall (fun e => e ≠ EvAfterPoll ∧ e ≠ EvBeforePoll 0) tr.
Proof.
  assert (Hfree : ∀ tr, forallb (fun e => negb (is_poll_call e)) tr = true →
            Forall (fun e => e ≠ EvAfterPoll ∧ e ≠ EvBeforePoll 0) tr).
  { intros tr Htr. apply Forall_forall. intros e He.
    apply list_elem_of_In in He.
    pose proof (proj1 (forallb_forall _ _) Htr e He) as Hp.
    by destruct e. }
  induction 1 as [w w1 w2 Hdrain Hpoll|w w1 r w2 w3 Hdrain Hpoll Hr _ IH].
  - apply idiom_drain_grows in Hdrain as (tr1 & Htr1 & Hp1).
    unfold pa_asyncmsgq_before_poll, asyncq_before_poll in Hpoll.
    injection Hpoll as Hr <-. simpl. rewrite Hr.
    exists tr1. split; [by rewrite Htr1, <- app_assoc|]. by apply Hfree.
  - apply idiom_drain_grows in Hdrain as (tr1 & Htr1 & Hp1).
    destruct IH as (tr3 & Htr3 & Hp3).
    unfold pa_asyncmsgq_before_poll, asyncq_before_poll in Hpoll.
    injection Hpoll as Hr' Hw2. rewrite <- Hw2 in Htr3. simpl in Htr3. rewrite Hr' in Htr3.
    exists (tr1 ++ EvBeforePoll r :: tr3).
    split; [by rewrite Htr3, Htr1, <- !app_assoc|].
    apply Forall_app. split; [by apply Hfree|].
    apply Forall_cons. split; [|exact Hp3].
    split; [discriminate|]. intros [= ->]. done.
Qed.

(** C8.  The core's readiness callback is the drain idiom: for the
    queue's descriptor and the input event (both asserted), the callback
    returns, for some bound on its iterations, in exactly the states that
    the idiom reaches: after_poll first, then dispatch and done for as
    long as a non-blocking get succeeds, then before_poll, draining again
    whenever before_poll returns nonzero and returning to the main loop
    when it returns 0.  In the call log of a callback that has returned,
    after_poll is the first call and is made once, and the one call of
    before_poll with result 0 is the last call. *)
Theorem asyncmsgq_cb_is_drain_idiom fd events w w' :
  pa_asyncq_get_fd (asyncq (msgq w)) = fd →
  events = PA_IO_EVENT_INPUT →
  ((∃ fuel, asyncmsgq_cb fuel fd events w = Returns tt w') ↔ drain_idiom w w')
  ∧ (drain_idiom w w' →
     ∃ tr, trace w' = trace w ++ EvAfterPoll :: tr ++ [EvBeforePoll 0]
       ∧ Forall (fun e => e ≠ EvAfterPoll ∧ e ≠ EvBeforePoll 0) tr).
Proof.
  intros Hfd Hev. unfold asyncmsgq_cb, drain_idiom. split; [split|].
  - intros [fuel Hrun].
    apply bind_returns in Hrun as (f & w0 & Hf & Hrun).
    unfold pa_asyncmsgq_get_fd, asyncq_get_fd in Hf. injection Hf as <- <-.
    apply bind_returns in Hrun as ([] & w1 & Ha1 & Hrun).
    apply bind_returns in Hrun as ([] & w2 & Ha2 & Hrun).
    apply bind_returns in Hrun as ([] & w3 & Hpoll & Hrun).
    unfold pa_assert in Ha1, Ha2.
    destruct (_ =? fd); [|discriminate]. injection Ha1 as <-.
    destruct (events =? _); [|discriminate]. injection Ha2 as <-.
    exists w3. split; [exact Hpoll|]. eapply cb_loop_idiom; eauto.
  - intros (w1 & Hpoll & Hrearm).
    apply idiom_rearm_cb in Hrearm as [fuel Hloop]. exists fuel.
    unfold bind, pa_asyncmsgq_get_fd, asyncq_get_fd, pa_assert.
    rewrite Hfd, Hev, !Z.eqb_refl, Hpoll. apply Hloop. lia.
  - intros (w1 & Hpoll & Hrearm).
    apply idiom_rearm_ends_armed in Hrearm as (tr & Htr & Hp).
    unfold pa_asyncmsgq_after_poll, asyncq_after_poll in Hpoll.
    injection Hpoll as <-. simpl in Htr.
    exists tr. split; [by rewrite Htr, <- app_assoc|exact Hp].
Qed.

(** *** Posting *)

Lemma post_outcome object code userdata offset chunk free_cb w old :
  let pooled := head (flist_cells (flist w)) in
  let i := default (fresh (dom (items w))) pooled in
  let filled tr0 a :=
    Build_world a
      (<[i := Item.Mk code object userdata free_cb offset
                (default pa_memchunk_reset chunk) None (Item.ret old)]> (items w))
      {| flist_cells := tail (flist_cells (flist w)); flist_size := flist_size (flist w) |}
      match object with
      | Some o => <[o := refcnt (msgobject_refs w) o + 1]> (msgobject_refs w)
      | None => msgobject_refs w
      end
      match chunk ≫= Chunk.memblock with
      | Some b => <[b := refcnt (memblock_refs w) b + 1]> (memblock_refs w)
      | None => memblock_refs w
      end
      (semaphores w) (env w)
      (trace w ++ [EvFlistPop pooled]
         ++ (if nonnull pooled then [] else [EvXnew i])
         ++ match object with Some o => [EvMsgobjectRef o] | None => [] end
         ++ match chunk ≫= Chunk.memblock with Some b => [EvMemblockRef b] | None => [] end
         ++ EvMutexLock :: tr0) in
  mutex (msgq w) = false →
  match pooled with
  | Some p => items w !! p
  | None => Some (indeterminate (env w))
  end = Some old →
  (∀ c, chunk = Some c → nonnull (Chunk.memblock c) = true) →
  pa_asyncmsgq_post object code userdata offset chunk free_cb w =
    match pa_asyncq_push (asyncq (msgq w)) i true with
    | Some (r, q') =>
        if r =? 0
        then Returns tt
               (filled [EvPush i true 0; EvMutexUnlock]
                  (Build_pa_asyncmsgq q' false (current (msgq w))))
        else AssertFails
    | None =>
        Blocks (filled [] (Build_pa_asyncmsgq (asyncq (msgq w)) true (current (msgq w))))
    end.
Proof.
  intros pooled i filled Hm Hold Hchunk.
  destruct w as [[q m cur] its [fl n] orefs brefs sems e tr]; simpl in *. subst m.
  unfold pa_asyncmsgq_post. unfold_prims. simpl.
  destruct (pa_asyncq_push q i true) as [[r q0]|] eqn:Hpush;
    [destruct (r =? 0) eqn:Hr; [apply Z.eqb_eq in Hr; subst r|]|];
    subst filled pooled i;
    (destruct fl as [|p fl]; simpl in *; [injection Hold as <-|]);
    destruct object as [o|], chunk as [c|]; simpl;
    try rewrite (Hchunk c eq_refl); simpl;
    try (destruct (Chunk.memblock c) as [b|] eqn:Hb;
         [|specialize (Hchunk c eq_refl); rewrite Hb in Hchunk; discriminate]);
    repeat (rewrite ?lookup_insert_eq, ?insert_insert_eq, ?Hold, ?Hb, ?Hpush, ?Hr; simpl);
    rewrite <- ?app_assoc; reflexivity.
Qed.

Lemma post_asserts_block object code userdata offset c free_cb w old :
  match head (flist_cells (flist w)) with
  | Some p => items w !! p
  | None => Some (indeterminate (env w))
  end = Some old →
  Chunk.memblock c = None →
  pa_asyncmsgq_post object code userdata offset (Some c) free_cb w = AssertFails.
Proof.
  intros Hold Hb.
  destruct w as [[q m cur] its [fl n] orefs brefs sems e tr]; simpl in *.
  unfold pa_asyncmsgq_post. unfold_prims. simpl.
  destruct fl as [|p fl]; simpl in *; rewrite ?Hold; simpl;
    destruct object as [o|]; simpl; rewrite Hb;
    repeat (rewrite ?lookup_insert_eq; simpl); reflexivity.
Qed.

(** *** Waiting for a code *)

Lemma wait_for_get_fails fuel code w q' :
  current (msgq w) = None →
  pa_asyncq_pop (asyncq (msgq w)) true = Some (None, q') →
  pa_asyncmsgq_wait_for (S fuel) code w =
    Returns (-1) (log (EvPop true None) (set_msgq (set_asyncq q' (msgq w)) w)).
Proof.
  intros Hcur Hpop. cbn [pa_asyncmsgq_wait_for]. unfold bind, get_into_locals, locals.
  cbn [out_object out_code out_userdata out_offset out_chunk].
  rewrite (get_empty _ _ _ _ _ _ _ q' Hcur Hpop). reflexivity.
Qed.

(** *** Waiting for a code: the loop of the design document *)

(** What the calls of a round add to the call log. *)
Lemma get_locals_log wait w rl w1 :
  get_into_locals wait w = Returns rl w1 →
  ∃ x, trace w1 = trace w ++ [EvPop wait x]
    ∧ (rl.1 = 0 ↔ is_Some x)
    ∧ (rl.1 = 0 ∨ rl.1 = -1).
Proof.
  unfold get_into_locals, locals, pa_asyncmsgq_get. unfold_prims.
  unfold pa_assert, pure. simpl.
  intros Hrun. repeat case_match; simplify_eq; simpl; eexists;
    (split; [reflexivity|]); (split; [|auto]); split; try done;
    intros [? ?]; done.
Qed.

Lemma dispatch_locals_log l w1 ret w2 :
  dispatch_locals l w1 = Returns ret w2 →
  trace w2 = trace w1 ++ round_handler_call (l, ret)
  ∧ (default None (out_object l) = None → ret = 0).
Proof.
  unfold dispatch_locals, pa_asyncmsgq_dispatch, round_handler_call. simpl.
  destruct (default None (out_object l)) as [o|]; unfold call_process_msg, pure;
    intros [= <- <-]; simpl.
  - by split.
  - by rewrite app_nil_r.
Qed.

Lemma done_log ret w2 w3 :
  pa_asyncmsgq_done ret w2 = Returns tt w3 →
  ∃ tr, trace w3 = trace w2 ++ tr
    ∧ pops tr = []
    ∧ List.filter is_handler_call tr = [].
Proof.
  intros Hrun.
  destruct (current (msgq w2)) as [c|] eqn:Hc.
  2:{ revert Hrun. unfold pa_asyncmsgq_done. unfold_prims. by rewrite Hc. }
  destruct (items w2 !! c) as [it|] eqn:Hit.
  2:{ revert Hrun. unfold pa_asyncmsgq_done. unfold_prims. rewrite Hc. simpl.
      by rewrite Hit. }
  destruct (Item.semaphore it) as [s|] eqn:Hs.
  - destruct (semaphores w2 !! s) as [n|] eqn:Hn.
    + rewrite (done_send_path ret w2 c it s n Hc Hit Hs Hn) in Hrun.
      injection Hrun as <-. by exists [EvSemaphorePost s].
    + revert Hrun. unfold pa_asyncmsgq_done. unfold_prims. rewrite Hc. simpl.
      rewrite Hit. simpl. rewrite Hs. simpl. rewrite Hit. simpl. by rewrite Hn.
  - destruct (done_post_path ret w2 c it Hc Hit Hs) as (w' & Hrun' & Htr & _).
    rewrite Hrun' in Hrun. injection Hrun as <-. rewrite Htr.
    eexists. split; [reflexivity|].
    by destruct (Item.free_cb it), (Item.object it), (Chunk.memblock (Item.memchunk it)),
      (length (flist_cells (flist w2)) <? flist_size (flist w2))%nat.
Qed.


Lemma wait_for_is_loop code fuel : ∀ w r w',
  pa_asyncmsgq_wait_for fuel code w = Returns r w' →
  ∃ rs, wait_loop code w rs r w'.
Proof.
  induction fuel as [|fuel IH]; intros w r w' Hrun; [discriminate|].
  cbn [pa_asyncmsgq_wait_for] in Hrun.
  apply bind_returns in Hrun as (rl & w1 & Hget & Hrun).
  destruct (get_locals_log _ _ _ _ Hget) as (x & _ & _ & Hr).
  destruct (rl.1 <? 0) eqn:Hneg.
  - unfold pure in Hrun. injection Hrun as <- <-.
    exists []. eapply wait_loop_fails; [exact Hget|]. apply Z.ltb_lt in Hneg. lia.
  - apply Z.ltb_ge in Hneg. assert (Hr0 : rl.1 = 0) by lia.
    apply bind_returns in Hrun as (ret & w2 & Hdispatch & Hrun).
    apply bind_returns in Hrun as ([] & w3 & Hdone & Hrun).
    case_bool_decide as Hcode.
    + destruct (IH _ _ _ Hrun) as [rs Hloop].
      exists ((rl.2, ret) :: rs). by eapply wait_loop_next.
    + unfold pure in Hrun. injection Hrun as <- <-.
      exists [(rl.2, ret)]. eapply wait_loop_match; eauto.
Qed.

Lemma wait_loop_is_wait_for code w rs r w' :
  wait_loop code w rs r w' →
  ∃ fuel, ∀ fuel', (fuel ≤ fuel')%nat → pa_asyncmsgq_wait_for fuel' code w = Returns r w'.
Proof.
  induction 1 as [w rl w1 Hget Hr|w rl w1 ret w2 w3 Hget Hr Hdispatch Hdone Hcode
                  |w rl w1 ret w2 w3 rs r w4 Hget Hr Hdispatch Hdone Hcode _ [fuel IH]].
  - exists 1%nat. intros [|fuel'] Hle; [lia|]. cbn [pa_asyncmsgq_wait_for].
    unfold bind. rewrite Hget.
    destruct (get_locals_log _ _ _ _ Hget) as (x & _ & _ & [?| Hm]); [done|].
    rewrite Hm. reflexivity.
  - exists 1%nat. intros [|fuel'] Hle; [lia|]. cbn [pa_asyncmsgq_wait_for].
    unfold bind at 1. rewrite Hget, Hr. simpl.
    unfold bind at 1. rewrite Hdispatch. unfold bind. rewrite Hdone.
    by rewrite bool_decide_eq_false_2 by (intros Hne; by apply Hne).
  - exists (S fuel). intros [|fuel'] Hle; [lia|]. cbn [pa_asyncmsgq_wait_for].
    unfold bind at 1. rewrite Hget, Hr. simpl.
    unfold bind at 1. rewrite Hdispatch. unfold bind at 1. rewrite Hdone.
    rewrite bool_decide_eq_true_2 by exact Hcode. apply IH. lia.
Qed.

(** The rounds of the loop: the value returned tells whether the last
    message processed had the code, no message before it had, a message
    without target is completed with 0 and any other with the result of
    its handler, and each round makes one successful pop and, for a
    message with a target, one handler call. *)
Lemma wait_loop_rounds code w rs r w' :
  wait_loop code w rs r w' →
  ((r = 0 ∧ ∃ pre m, rs = pre ++ [m]
             ∧ Forall (fun m => round_code m ≠ code) pre
             ∧ round_code m = code)
   ∨ (r = -1 ∧ Forall (fun m => round_code m ≠ code) rs))
  ∧ Forall (fun m => default None (out_object m.1) = None → m.2 = 0) rs
  ∧ ∃ tr ps,
      trace w' = trace w ++ tr
      ∧ length ps = length rs
      ∧ pops tr = (Some <$> ps) ++ (if r =? 0 then [] else [None])
      ∧ List.filter is_handler_call tr = flat_map round_handler_call rs.
Proof.
  induction 1 as [w rl w1 Hget Hr|w rl w1 ret w2 w3 Hget Hr Hdispatch Hdone Hcode
                  |w rl w1 ret w2 w3 rs r w4 Hget Hr Hdispatch Hdone Hcode _ IH].
  - split; [right; by split|]. split; [constructor|].
    destruct (get_locals_log _ _ _ _ Hget) as (x & Htr & Hx & _).
    destruct x as [c|]; [exfalso; apply Hr, Hx; eauto|].
    exists [EvPop true None], []. by repeat split.
  - split; [left; split; [done|]; by exists [], (rl.2, ret)|].
    destruct (get_locals_log _ _ _ _ Hget) as (x & Htr1 & Hx & _).
    destruct (proj1 Hx Hr) as [c ->].
    destruct (dispatch_locals_log _ _ _ _ Hdispatch) as [Htr2 Hret].
    destruct (done_log _ _ _ Hdone) as (tr3 & Htr3 & Hpops3 & Hcalls3).
    split; [by repeat constructor|].
    exists ([EvPop true (Some c)] ++ round_handler_call (rl.2, ret) ++ tr3), [c].
    split; [by rewrite Htr3, Htr2, Htr1, <- !app_assoc|]. split; [done|].
    split.
    + unfold pops in *. rewrite !omap_app, Hpops3. simpl.
      unfold round_handler_call. cbn [fst snd].
      destruct (default None (out_object rl.2)); reflexivity.
    + rewrite !List.filter_app, Hcalls3. simpl. rewrite !app_nil_r.
      unfold round_handler_call. cbn [fst snd].
      destruct (default None (out_object rl.2)); reflexivity.
  - destruct IH as (Hres & Hzero & tr & ps & Htr & Hlen & Hpops & Hcalls).
    destruct (get_locals_log _ _ _ _ Hget) as (x & Htr1 & Hx & _).
    destruct (proj1 Hx Hr) as [c ->].
    destruct (dispatch_locals_log _ _ _ _ Hdispatch) as [Htr2 Hret].
    destruct (done_log _ _ _ Hdone) as (tr3 & Htr3 & Hpops3 & Hcalls3).
    split; [|split].
    + destruct Hres as [(-> & pre & m & -> & Hpre & Hm)|(-> & Hall)].
      * left. split; [done|]. exists ((rl.2, ret) :: pre), m.
        split; [done|]. split; [by constructor|done].
      * right. split; [done|]. by constructor.
    + by constructor.
    + exists ([EvPop true (Some c)] ++ round_handler_call (rl.2, ret) ++ tr3 ++ tr), (c :: ps).
      split; [by rewrite Htr, Htr3, Htr2, Htr1, <- !app_assoc|].
      split; [simpl; by rewrite Hlen|]. split.
      * unfold pops in *. rewrite !omap_app, Hpops3, Hpops. simpl.
        unfold round_handler_call. cbn [fst snd].
      destruct (default None (out_object rl.2)); reflexivity.
      * rewrite !List.filter_app, Hcalls3, Hcalls. simpl.
        unfold round_handler_call. cbn [fst snd].
      destruct (default None (out_object rl.2)); reflexivity.
Qed.

End Properties.

(** ** Properties that depend on the queue being first-in first-out *)

Section FifoProperties.
Context {E : Type} `{!Users E}.
Implicit Types w : world fifo E.

Lemma refcnt_insert (m : gmap ptr Z) o v o' :
  refcnt (<[o := v]> m) o' = if bool_decide (o = o') then v else refcnt m o'.
Proof.
  unfold refcnt. case_bool_decide as Ho.
  - subst. by rewrite lookup_insert_eq.
  - by rewrite lookup_insert_ne.
Qed.

Lemma queue_refs_cons target o it its :
  queue_refs target o (it :: its) =
    (if negb (nonnull (Item.semaphore it)) && bool_decide (target it = Some o)
     then 1 else 0) + queue_refs target o its.
Proof.
  unfold queue_refs. simpl.
  destruct (negb (nonnull (Item.semaphore it)) && bool_decide (target it = Some o));
    simpl length; lia.
Qed.

(** Records that stay where they are stay the records of a list of
    addresses. *)
Lemma Forall2_items_frame (m m' : gmap ptr asyncmsgq_item) ps its :
  Forall2 (fun p it => m !! p = Some it) ps its →
  (∀ p, p ∈ ps → m' !! p = m !! p) →
  Forall2 (fun p it => m' !! p = Some it) ps its.
Proof.
  induction 1 as [|p it ps its Hp _ IH]; intros Hsame; constructor.
  - rewrite Hsame; [exact Hp|]. apply list_elem_of_here.
  - apply IH. intros p' Hp'. apply Hsame. by apply list_elem_of_further.
Qed.

(** *** Destruction *)

(** One iteration of the loop of [pa_asyncmsgq_free] on a posted item. *)
Lemma free_loop_step w fuel p ps it :
  cells (asyncq (msgq w)) = p :: ps →
  items w !! p = Some it →
  Item.semaphore it = None →
  ∃ w1 tr,
    pa_asyncmsgq_free_loop (S fuel) w = pa_asyncmsgq_free_loop fuel w1
    ∧ cells (asyncq (msgq w1)) = ps
    ∧ trace w1 = trace w ++ tr
    ∧ payload_calls tr = release_calls it
    ∧ pops tr = [Some p]
    ∧ (∀ p', p' ≠ p → items w1 !! p' = items w !! p')
    ∧ (p ∈ flist_cells (flist w1) ∨ items w1 !! p = None)
    ∧ (∀ p', p' ∈ flist_cells (flist w) → p' ∈ flist_cells (flist w1))
    ∧ (∀ p', items w !! p' = None → items w1 !! p' = None)
    ∧ (∀ o, refcnt (msgobject_refs w1) o =
            refcnt (msgobject_refs w) o
            - if bool_decide (Item.object it = Some o) then 1 else 0)
    ∧ (∀ b, refcnt (memblock_refs w1) b =
            refcnt (memblock_refs w) b
            - if bool_decide (Chunk.memblock (Item.memchunk it) = Some b) then 1 else 0)
    ∧ semaphores w1 = semaphores w.
Proof.
  intros Hcells Hit Hsem.
  destruct w as [[[cs cap f] m cur] its [fl n] orefs brefs sems e tr]; simpl in *.
  subst cs. unfold release_calls.
  cbn [pa_asyncmsgq_free_loop]. unfold_prims. simpl. unfold fifo_pop. simpl.
  rewrite Hit, Hsem. simpl.
  destruct (Item.object it) as [o|], (Chunk.memblock (Item.memchunk it)) as [b|],
    (Item.free_cb it) as [cb|]; simpl;
    destruct (length fl <? n)%nat; simpl; rewrite ?Hit; simpl;
    (eexists _, _; split; [reflexivity|]);
    unfold_setters; simpl;
    (split; [reflexivity|]);
    (split; [rewrite <- ?app_assoc; reflexivity|]);
    (split; [reflexivity|]);
    (split; [reflexivity|]);
    (split; [intros p' Hp'; by rewrite ?lookup_delete_ne|]);
    (split; [first [left; by apply list_elem_of_here | right; by apply lookup_delete_eq]|]);
    (split; [intros p' Hp'; first [by apply list_elem_of_further | done]|]);
    (split; [intros p' Hp';
       first [done | destruct (decide (p = p')) as [->|];
                     [by rewrite lookup_delete_eq | by rewrite lookup_delete_ne]]|]);
    (split; [intros o'; rewrite ?refcnt_insert;
       repeat case_bool_decide; simplify_eq; lia|]);
    (split; [intros b'; rewrite ?refcnt_insert;
       repeat case_bool_decide; simplify_eq; lia|]);
    reflexivity.
Qed.

Lemma free_loop_outcome ps : ∀ its w fuel,
  cells (asyncq (msgq w)) = ps →
  Forall2 (fun p it => items w !! p = Some it) ps its →
  NoDup ps →
  (length ps < fuel)%nat →
  if forallb (fun it => negb (nonnull (Item.semaphore it))) its
  then ∃ w' tr,
    pa_asyncmsgq_free_loop fuel w = Returns tt w'
    ∧ cells (asyncq (msgq w')) = []
    ∧ trace w' = trace w ++ tr ++ [EvPop false None]
    ∧ payload_calls tr = flat_map release_calls its
    ∧ pops tr = Some <$> ps
    ∧ (∀ p, p ∈ ps → p ∈ flist_cells (flist w') ∨ items w' !! p = None)
    ∧ (∀ p, p ∈ flist_cells (flist w) → p ∈ flist_cells (flist w'))
    ∧ (∀ p, items w !! p = None → items w' !! p = None)
    ∧ (∀ o, refcnt (msgobject_refs w') o =
            refcnt (msgobject_refs w) o - queue_refs Item.object o its)
    ∧ (∀ b, refcnt (memblock_refs w') b =
            refcnt (memblock_refs w) b
            - queue_refs (fun it => Chunk.memblock (Item.memchunk it)) b its)
    ∧ semaphores w' = semaphores w
  else pa_asyncmsgq_free_loop fuel w = AssertFails.
Proof.
  induction ps as [|p ps IH]; intros its w fuel Hcells Hits Hnodup Hfuel.
  - apply Forall2_nil_inv_l in Hits as ->. simpl.
    destruct fuel as [|fuel]; [simpl in Hfuel; lia|].
    exists (log (EvPop false None) w), []. simpl.
    unfold_prims. simpl. unfold fifo_pop. rewrite Hcells. simpl.
    split; [by destruct w as [[[? ? ?] ? ?] ? ? ? ? ? ? ?]; simpl in *; subst|].
    simpl. unfold queue_refs. simpl.
    repeat split; try done; try (intros; lia).
    intros p Hp. by apply not_elem_of_nil in Hp.
  - apply Forall2_cons_inv_l in Hits as (it & its' & Hit & Hits & ->).
    destruct fuel as [|fuel]; [simpl in Hfuel; lia|].
    apply NoDup_cons in Hnodup as [Hp Hnodup].
    cbn [forallb].
    destruct (Item.semaphore it) as [s|] eqn:Hsem; cbn [nonnull negb andb].
    + destruct w as [[[cs cap f] m cur] items0 [fl n] orefs brefs sems e tr]; simpl in *.
      subst cs. unfold_prims. simpl. unfold fifo_pop. simpl.
      rewrite Hit, Hsem. reflexivity.
    + destruct (free_loop_step w fuel p ps it Hcells Hit Hsem)
        as (w1 & tr1 & Hstep & Hcells1 & Htr1 & Hpay1 & Hpops1 & Hitems1 & Hfate1 & Hfl1
            & Hgone1 & Horefs1 & Hbrefs1 & Hsems1).
      rewrite Hstep.
      assert (Hits1 : Forall2 (fun p it => items w1 !! p = Some it) ps its').
      { eapply Forall2_items_frame; [exact Hits|].
        intros p' Hp'. apply Hitems1. intros ->. done. }
      specialize (IH its' w1 fuel Hcells1 Hits1 Hnodup ltac:(simpl in Hfuel; lia)).
      destruct (forallb _ its'); [|exact IH].
      destruct IH as (w' & tr & Hrun & Hcells' & Htr & Hpay & Hpops & Hfate & Hfl & Hgone
                      & Horefs & Hbrefs & Hsems).
      exists w', (tr1 ++ tr). split; [exact Hrun|]. split; [exact Hcells'|].
      split; [rewrite Htr, Htr1, <- !app_assoc; reflexivity|].
      split; [unfold payload_calls in *; rewrite List.filter_app, Hpay1, Hpay; reflexivity|].
      split; [unfold pops in *; rewrite omap_app, Hpops1, Hpops; reflexivity|].
      split.
      { intros p' [->|Hp']%elem_of_cons; [|by apply Hfate].
        destruct Hfate1 as [Hin|Hnone]; [left; by apply Hfl|right; by apply Hgone]. }
      split; [intros p' Hp'; by apply Hfl, Hfl1|].
      split; [intros p' Hp'; by apply Hgone, Hgone1|].
      split.
      { intros o. rewrite Horefs, Horefs1, queue_refs_cons, Hsem. simpl. lia. }
      split.
      { intros b. rewrite Hbrefs, Hbrefs1, queue_refs_cons, Hsem. simpl. lia. }
      congruence.
Qed.


(** C7.  [pa_asyncmsgq_free] pops every residual item and asserts that
    it has no reply semaphore.  When all residual items are posts, it
    returns with the queue empty, having released the payload of each
    item once and in queue order (unref of the object, unref of the
    chunk's block, call of the releaser, as far as they are set) and put
    each record back into the pool or freed it, and only then frees the
    asyncq, the mutex and the structure.  When a residual item carries a
    semaphore, the assertion fails. *)
Theorem free_releases_residual_items w ps its fuel :
  cells (asyncq (msgq w)) = ps →
  Forall2 (fun p it => items w !! p = Some it) ps its →
  NoDup ps →
  (length ps < fuel)%nat →
  if forallb (fun it => negb (nonnull (Item.semaphore it))) its
  then ∃ w' tr,
    pa_asyncmsgq_free fuel w = Returns tt w'
    ∧ cells (asyncq (msgq w')) = []
    ∧ trace w' = trace w ++ tr
        ++ [EvPop false None; EvAsyncqFree; EvMutexFree; EvQueueFree]
    ∧ pops tr = Some <$> ps
    ∧ payload_calls tr = flat_map release_calls its
    ∧ (∀ p, p ∈ ps → p ∈ flist_cells (flist w') ∨ items w' !! p = None)
    ∧ (∀ o, refcnt (msgobject_refs w') o =
            refcnt (msgobject_refs w) o - queue_refs Item.object o its)
    ∧ (∀ b, refcnt (memblock_refs w') b =
            refcnt (memblock_refs w) b
            - queue_refs (fun it => Chunk.memblock (Item.memchunk it)) b its)
  else pa_asyncmsgq_free fuel w = AssertFails.
Proof.
  intros Hcells Hits Hnodup Hfuel.
  pose proof (free_loop_outcome ps its w fuel Hcells Hits Hnodup Hfuel) as Hloop.
  destruct (forallb _ its).
  - destruct Hloop as (w' & tr & Hrun & Hcells' & Htr & Hpay & Hpops & Hfate & _ & _
                       & Horefs & Hbrefs & _).
    unfold pa_asyncmsgq_free, bind. rewrite Hrun. simpl.
    eexists _, tr. split; [reflexivity|]. simpl.
    split; [exact Hcells'|].
    split; [rewrite Htr, <- !app_assoc; reflexivity|].
    auto 10.
  - unfold pa_asyncmsgq_free, bind. rewrite Hloop. reflexivity.
Qed.

(** *** Consuming *)

(** One round of get, dispatch and done on the message at the head of
    the queue. *)
Lemma consume_step w wait p ps it :
  cells (asyncq (msgq w)) = p :: ps →
  current (msgq w) = None →
  items w !! p = Some it →
  (∀ o, Item.object it = Some o → 0 < refcnt (msgobject_refs w) o) →
  (∀ s, Item.semaphore it = Some s → is_Some (semaphores w !! s)) →
  ∃ rl w1 ret w2 w3 tr,
    get_into_locals wait w = Returns rl w1
    ∧ rl.1 = 0
    ∧ out_code rl.2 = Some (Item.code it)
    ∧ dispatch_locals rl.2 w1 = Returns ret w2
    ∧ pa_asyncmsgq_done ret w2 = Returns tt w3
    ∧ cells (asyncq (msgq w3)) = ps
    ∧ current (msgq w3) = None
    ∧ trace w3 = trace w ++ tr
    ∧ pops tr = [Some p]
    ∧ handler_calls tr = option_list (message_call it)
    ∧ (∀ p', p' ≠ p → items w3 !! p' = items w !! p')
    ∧ (∀ s, is_Some (semaphores w !! s) → is_Some (semaphores w3 !! s))
    ∧ (∀ o, refcnt (msgobject_refs w3) o =
            refcnt (msgobject_refs w) o
            - if negb (nonnull (Item.semaphore it)) && bool_decide (Item.object it = Some o)
              then 1 else 0).
Proof.
  intros Hcells Hcur Hit Href Hsem.
  destruct w as [[[cs cap f] m cur] its [fl n] orefs brefs sems e tr]; simpl in *.
  subst cs cur.
  unfold get_into_locals, dispatch_locals, pa_asyncmsgq_get, pa_asyncmsgq_dispatch,
    pa_asyncmsgq_done, message_call.
  unfold_prims. simpl. unfold fifo_pop. simpl. rewrite Hit. simpl.
  assert (Hpos : ∀ o, Item.object it = Some o → (0 <? refcnt orefs o) = true)
    by (intros o Ho; by apply Z.ltb_lt, Href).
  assert (Hsems : ∀ s, Item.semaphore it = Some s → ∃ k, sems !! s = Some k)
    by (intros s Hs; by apply Hsem).
  destruct (Item.object it) as [o|] eqn:Hobj;
    (destruct (Item.semaphore it) as [s|] eqn:Hs;
     [ destruct (Hsems s eq_refl) as [k Hk]
     | destruct (Item.free_cb it) as [cb|] eqn:Hcb;
       destruct (Chunk.memblock (Item.memchunk it)) as [b|] eqn:Hblk;
       destruct (length fl <? n)%nat eqn:Hroom ]);
    simpl; rewrite ?(Hpos o eq_refl); simpl;
    (eexists _, _, _, _, _, _);
    (do 4 (split; [reflexivity|])); simpl;
    repeat (rewrite ?Hit, ?Hs, ?Hk, ?Hcb, ?Hobj, ?Hblk, ?Hroom; simpl);
    (split; [reflexivity|]); simpl;
    (split; [reflexivity|]); (split; [reflexivity|]);
    (split; [rewrite <- ?app_assoc; reflexivity|]);
    (split; [reflexivity|]); (split; [reflexivity|]);
    (split; [intros p' Hp'; by rewrite ?lookup_delete_ne, ?lookup_insert_ne|]);
    (split; [intros s' Hs';
       first [exact Hs'
             | destruct (decide (s = s')) as [->|];
               [by rewrite lookup_insert_eq | by rewrite lookup_insert_ne]]|]);
    intros o'; rewrite ?refcnt_insert; repeat case_bool_decide; simplify_eq; lia.
Qed.

Lemma target_refs_cons o it its :
  target_refs o (it :: its) =
    (if bool_decide (Item.object it = Some o) then 1 else 0) + target_refs o its.
Proof.
  unfold target_refs. simpl.
  destruct (bool_decide (Item.object it = Some o)); simpl length; lia.
Qed.

Lemma target_refs_nonneg o its : 0 ≤ target_refs o its.
Proof. unfold target_refs. lia. Qed.

(** A round on the head of a deliverable queue succeeds and leaves the
    rest deliverable. *)
Lemma deliverable_round w wait p ps it its :
  cells (asyncq (msgq w)) = p :: ps →
  current (msgq w) = None →
  deliverable w (p :: ps) (it :: its) →
  ∃ rl w1 ret w2 w3 tr,
    get_into_locals wait w = Returns rl w1
    ∧ rl.1 = 0
    ∧ out_code rl.2 = Some (Item.code it)
    ∧ dispatch_locals rl.2 w1 = Returns ret w2
    ∧ pa_asyncmsgq_done ret w2 = Returns tt w3
    ∧ cells (asyncq (msgq w3)) = ps
    ∧ current (msgq w3) = None
    ∧ trace w3 = trace w ++ tr
    ∧ pops tr = [Some p]
    ∧ handler_calls tr = option_list (message_call it)
    ∧ deliverable w3 ps its.
Proof.
  intros Hcells Hcur (Hnodup & Hits & Hsems & Hrefs).
  apply NoDup_cons in Hnodup as [Hp Hnodup].
  apply Forall2_cons in Hits as [Hit Hits].
  apply Forall_cons in Hsems as [Hsem Hsems].
  assert (Href : ∀ o, Item.object it = Some o → 0 < refcnt (msgobject_refs w) o).
  { intros o Ho. specialize (Hrefs o). rewrite target_refs_cons in Hrefs.
    rewrite bool_decide_eq_true_2 in Hrefs by done.
    pose proof (target_refs_nonneg o its). lia. }
  destruct (consume_step w wait p ps it Hcells Hcur Hit Href Hsem)
    as (rl & w1 & ret & w2 & w3 & tr & Hget & Hr & Hcode & Hdispatch & Hdone & Hcells3
        & Hcur3 & Htr & Hpops & Hcalls & Hitems3 & Hsems3 & Hrefs3).
  exists rl, w1, ret, w2, w3, tr. do 10 (split; [assumption|]).
  split; [exact Hnodup|]. split.
  { eapply Forall2_items_frame; [exact Hits|].
    intros p' Hp'. apply Hitems3. intros ->. done. }
  split.
  { eapply Forall_impl; [exact Hsems|]. intros it' Hit' s Hs. by apply Hsems3, Hit'. }
  intros o. specialize (Hrefs o). rewrite target_refs_cons in Hrefs.
  rewrite Hrefs3.
  destruct (negb (nonnull (Item.semaphore it))), (bool_decide (Item.object it = Some o));
    simpl; lia.
Qed.

(** A round on the head of a receivable queue succeeds and leaves the
    rest receivable. *)
Lemma receivable_round w wait p ps rest it its :
  cells (asyncq (msgq w)) = p :: ps ++ rest →
  current (msgq w) = None →
  receivable w (p :: ps) (it :: its) →
  ∃ rl w1 ret w2 w3 tr,
    get_into_locals wait w = Returns rl w1
    ∧ rl.1 = 0
    ∧ out_code rl.2 = Some (Item.code it)
    ∧ dispatch_locals rl.2 w1 = Returns ret w2
    ∧ pa_asyncmsgq_done ret w2 = Returns tt w3
    ∧ cells (asyncq (msgq w3)) = ps ++ rest
    ∧ current (msgq w3) = None
    ∧ trace w3 = trace w ++ tr
    ∧ pops tr = [Some p]
    ∧ handler_calls tr = option_list (message_call it)
    ∧ receivable w3 ps its
    ∧ (∀ o, refcnt (msgobject_refs w3) o =
            refcnt (msgobject_refs w) o - queue_refs Item.object o [it]).
Proof.
  intros Hcells Hcur (Hnodup & Hits & Hsems & Hrefs).
  apply NoDup_cons in Hnodup as [Hp Hnodup].
  apply Forall2_cons in Hits as [Hit Hits].
  apply Forall_cons in Hsems as [Hsem Hsems].
  assert (Href : ∀ o, Item.object it = Some o → 0 < refcnt (msgobject_refs w) o).
  { intros o Ho. exact (Hrefs 0%nat it o eq_refl Ho). }
  destruct (consume_step w wait p (ps ++ rest) it Hcells Hcur Hit Href Hsem)
    as (rl & w1 & ret & w2 & w3 & tr & Hget & Hr & Hcode & Hdispatch & Hdone & Hcells3
        & Hcur3 & Htr & Hpops & Hcalls & Hitems3 & Hsems3 & Hrefs3).
  exists rl, w1, ret, w2, w3, tr. do 10 (split; [assumption|]).
  split; [|intros o; rewrite Hrefs3, queue_refs_cons; change (queue_refs Item.object o []) with 0; lia].
  split; [exact Hnodup|]. split.
  { eapply Forall2_items_frame; [exact Hits|].
    intros p' Hp'. apply Hitems3. intros ->. done. }
  split.
  { eapply Forall_impl; [exact Hsems|]. intros it' Hit' s Hs. by apply Hsems3, Hit'. }
  intros k it' o Hk Ho. specialize (Hrefs (S k) it' o Hk Ho).
  simpl in Hrefs. rewrite queue_refs_cons in Hrefs. rewrite Hrefs3. lia.
Qed.

(** [pa_asyncmsgq_wait_for] on a queue whose messages up to the first
    one with the code are receivable. *)
Lemma wait_for_found code its_pre : ∀ itm ps rest w fuel,
  cells (asyncq (msgq w)) = ps ++ rest →
  current (msgq w) = None →
  receivable w ps (its_pre ++ [itm]) →
  Forall (fun it => Item.code it ≠ code) its_pre →
  Item.code itm = code →
  (length its_pre < fuel)%nat →
  ∃ w' tr,
    pa_asyncmsgq_wait_for fuel code w = Returns 0 w'
    ∧ cells (asyncq (msgq w')) = rest
    ∧ current (msgq w') = None
    ∧ trace w' = trace w ++ tr
    ∧ pops tr = Some <$> ps
    ∧ handler_calls tr = omap message_call (its_pre ++ [itm])
    ∧ (∀ o, refcnt (msgobject_refs w') o =
            refcnt (msgobject_refs w) o - queue_refs Item.object o (its_pre ++ [itm])).
Proof.
  induction its_pre as [|it its_pre IH];
    intros itm ps rest w fuel Hcells Hcur Hrec Hcodes Hcode Hfuel;
    (destruct fuel as [|fuel]; [simpl in Hfuel; lia|]);
    (destruct ps as [|p ps];
     [destruct Hrec as (_ & Hits & _); by apply Forall2_nil_inv_l in Hits|]);
    simpl in Hrec, Hcells;
    destruct (receivable_round w true p ps rest _ _ Hcells Hcur Hrec)
      as (rl & w1 & ret & w2 & w3 & tr & Hget & Hr & Hout & Hdispatch & Hdone & Hcells3
          & Hcur3 & Htr & Hpops & Hcalls & Hrec3 & Hrefs3);
    cbn [pa_asyncmsgq_wait_for]; unfold bind at 1; rewrite Hget, Hr; simpl;
    unfold bind at 1; rewrite Hdispatch; unfold bind at 1; rewrite Hdone, Hout; simpl.
  - rewrite bool_decide_eq_false_2 by (intros Hne; by apply Hne).
    destruct Hrec3 as (_ & Hits3 & _). apply Forall2_nil_inv_r in Hits3 as ->.
    exists w3, tr. split; [reflexivity|].
    split; [exact Hcells3|]. split; [exact Hcur3|]. split; [exact Htr|].
    split; [exact Hpops|]. split; [|exact Hrefs3].
    rewrite Hcalls. by destruct (message_call itm).
  - apply Forall_cons in Hcodes as [Hne Hcodes].
    rewrite bool_decide_eq_true_2 by exact Hne.
    destruct (IH itm ps rest w3 fuel Hcells3 Hcur3 Hrec3 Hcodes Hcode
                ltac:(simpl in Hfuel; lia))
      as (w' & tr' & Hrun & Hcells' & Hcur' & Htr' & Hpops' & Hcalls' & Hrefs').
    exists w', (tr ++ tr'). split; [exact Hrun|].
    split; [exact Hcells'|]. split; [exact Hcur'|].
    split; [rewrite Htr', Htr, <- app_assoc; reflexivity|].
    split; [unfold pops in *; rewrite omap_app, Hpops, Hpops'; reflexivity|].
    split.
    + unfold handler_calls in *. rewrite omap_app, Hcalls, Hcalls'.
      simpl. by destruct (message_call it).
    + intros o. rewrite Hrefs', Hrefs3. simpl.
      rewrite (queue_refs_cons _ _ it (its_pre ++ [itm])), queue_refs_cons.
      change (queue_refs Item.object o []) with 0. lia.
Qed.

(** [pa_asyncmsgq_wait_for] on a receivable queue that holds no message
    with the code: every message is delivered and the consumer is
    suspended in the next get. *)
Lemma wait_for_not_found code its : ∀ ps w fuel,
  cells (asyncq (msgq w)) = ps →
  current (msgq w) = None →
  receivable w ps its →
  Forall (fun it => Item.code it ≠ code) its →
  (length its < fuel)%nat →
  ∃ w' tr,
    pa_asyncmsgq_wait_for fuel code w = Blocks w'
    ∧ cells (asyncq (msgq w')) = []
    ∧ trace w' = trace w ++ tr
    ∧ pops tr = Some <$> ps
    ∧ handler_calls tr = omap message_call its.
Proof.
  induction its as [|it its IH]; intros ps w fuel Hcells Hcur Hrec Hcodes Hfuel;
    (destruct fuel as [|fuel]; [simpl in Hfuel; lia|]).
  - destruct Hrec as (_ & Hits & _). apply Forall2_nil_inv_r in Hits as ->.
    exists w, []. cbn [pa_asyncmsgq_wait_for].
    unfold bind, get_into_locals, pa_asyncmsgq_get. unfold_prims. simpl.
    rewrite Hcur. simpl. unfold fifo_pop. rewrite Hcells. simpl.
    rewrite app_nil_r. done.
  - destruct ps as [|p ps];
      [destruct Hrec as (_ & Hits & _); by apply Forall2_nil_inv_l in Hits|].
    rewrite <- (app_nil_r ps) in Hcells.
    destruct (receivable_round w true p ps [] _ _ Hcells Hcur Hrec)
      as (rl & w1 & ret & w2 & w3 & tr & Hget & Hr & Hout & Hdispatch & Hdone & Hcells3
          & Hcur3 & Htr & Hpops & Hcalls & Hrec3 & _).
    rewrite app_nil_r in Hcells3.
    cbn [pa_asyncmsgq_wait_for]. unfold bind at 1. rewrite Hget, Hr. simpl.
    unfold bind at 1. rewrite Hdispatch. unfold bind at 1. rewrite Hdone, Hout. simpl.
    apply Forall_cons in Hcodes as [Hne Hcodes].
    rewrite bool_decide_eq_true_2 by exact Hne.
    destruct (IH ps w3 fuel Hcells3 Hcur3 Hrec3 Hcodes ltac:(simpl in Hfuel; lia))
      as (w' & tr' & Hrun & Hcells' & Htr' & Hpops' & Hcalls').
    exists w', (tr ++ tr'). split; [exact Hrun|]. split; [exact Hcells'|].
    split; [rewrite Htr', Htr, <- app_assoc; reflexivity|].
    split; [unfold pops in *; rewrite omap_app, Hpops, Hpops'; reflexivity|].
    unfold handler_calls in *. rewrite omap_app, Hcalls, Hcalls'.
    simpl. by destruct (message_call it).
Qed.

(** A prefix of a receivable queue is receivable. *)
Lemma receivable_prefix w ps1 ps2 its1 its2 :
  length ps1 = length its1 →
  receivable w (ps1 ++ ps2) (its1 ++ its2) →
  receivable w ps1 its1.
Proof.
  intros Hlen (Hnodup & Hits & Hsems & Hrefs).
  apply NoDup_app in Hnodup as (Hnodup & _).
  apply Forall2_app_inv in Hits as [Hits _]; [|exact Hlen].
  apply Forall_app in Hsems as [Hsems _].
  split; [exact Hnodup|]. split; [exact Hits|]. split; [exact Hsems|].
  intros k it o Hk Ho.
  assert (Hlt : (k < length its1)%nat) by (by eapply lookup_lt_Some).
  specialize (Hrefs k it o). rewrite lookup_app_l in Hrefs by exact Hlt.
  rewrite take_app_le in Hrefs by lia. by apply Hrefs.
Qed.


(** C5.  [pa_asyncmsgq_wait_for] is the wait loop of the design
    document.  On any underlying queue and in any state it returns, for
    some bound on its iterations, exactly as the loop does: rounds of a
    blocking get, the dispatch of the message and a done with the result
    of that dispatch, up to the first message with the requested code.
    It returns 0 exactly when a message with the code was processed,
    which is then the last one, and -1 exactly when a get failed before
    that; each message processed was popped once and its handler, if it
    has a target, called once, and the result of the handler is what done
    was called with.  On a first-in first-out queue whose messages up to
    the first one with the code are receivable, it returns 0 with those
    messages popped and handled once each in queue order, the references
    of the posted ones returned, and the later messages still queued;
    without such a message every message is delivered in order and the
    consumer then stays suspended in get. *)
Theorem wait_for_dispatches_until_code code w fuel :
  current (msgq w) = None →
  (∀ (Q : Type) (HQ : AsyncQ Q) (v : world Q E) r v',
     (∃ n, pa_asyncmsgq_wait_for n code v = Returns r v')
     ↔ (∃ rs, wait_loop code v rs r v'))
  ∧ (∀ (Q : Type) (HQ : AsyncQ Q) (v : world Q E) rs r v',
       wait_loop code v rs r v' →
       ((r = 0 ∧ ∃ pre m, rs = pre ++ [m]
                  ∧ Forall (fun m => round_code m ≠ code) pre
                  ∧ round_code m = code)
        ∨ (r = -1 ∧ Forall (fun m => round_code m ≠ code) rs))
       ∧ Forall (fun m => default None (out_object m.1) = None → m.2 = 0) rs
       ∧ ∃ tr ps,
           trace v' = trace v ++ tr
           ∧ length ps = length rs
           ∧ pops tr = (Some <$> ps) ++ (if r =? 0 then [] else [None])
           ∧ List.filter is_handler_call tr = flat_map round_handler_call rs)
  ∧ (∀ ps rest its_pre itm,
       cells (asyncq (msgq w)) = ps ++ rest →
       receivable w ps (its_pre ++ [itm]) →
       Forall (fun it => Item.code it ≠ code) its_pre →
       Item.code itm = code →
       (length its_pre < fuel)%nat →
       ∃ w' tr,
         pa_asyncmsgq_wait_for fuel code w = Returns 0 w'
         ∧ cells (asyncq (msgq w')) = rest
         ∧ current (msgq w') = None
         ∧ trace w' = trace w ++ tr
         ∧ pops tr = Some <$> ps
         ∧ handler_calls tr = omap message_call (its_pre ++ [itm])
         ∧ (∀ o, refcnt (msgobject_refs w') o =
                 refcnt (msgobject_refs w) o
                 - queue_refs Item.object o (its_pre ++ [itm])))
  ∧ (∀ its,
       receivable w (cells (asyncq (msgq w))) its →
       (length its < fuel)%nat →
       (Forall (fun it => Item.code it ≠ code) its →
        ∃ w' tr,
          pa_asyncmsgq_wait_for fuel code w = Blocks w'
          ∧ cells (asyncq (msgq w')) = []
          ∧ trace w' = trace w ++ tr
          ∧ pops tr = Some <$> cells (asyncq (msgq w))
          ∧ handler_calls tr = omap message_call its)
       ∧ ((∃ w', pa_asyncmsgq_wait_for fuel code w = Returns 0 w')
          ↔ Exists (fun it => Item.code it = code) its))
  ∧ (∀ (Q : Type) (HQ : AsyncQ Q) (v : world Q E) n q',
       current (msgq v) = None →
       pa_asyncq_pop (asyncq (msgq v)) true = Some (None, q') →
       ∃ v', pa_asyncmsgq_wait_for (S n) code v = Returns (-1) v').
Proof.
  intros Hcur. split; [|split; [|split; [|split]]].
  - intros Q HQ v r v'. split.
    + intros [n Hrun]. by eapply wait_for_is_loop.
    + intros [rs Hloop]. apply wait_loop_is_wait_for in Hloop as [n Hn].
      exists n. by apply Hn.
  - intros Q HQ v rs r v'. apply wait_loop_rounds.
  - intros ps rest its_pre itm Hcells Hrec Hcodes Hcode Hfuel.
    by eapply wait_for_found.
  - intros its Hrec Hfuel.
    assert (Hnone : Forall (fun it => Item.code it ≠ code) its →
      ∃ w' tr,
        pa_asyncmsgq_wait_for fuel code w = Blocks w'
        ∧ cells (asyncq (msgq w')) = []
        ∧ trace w' = trace w ++ tr
        ∧ pops tr = Some <$> cells (asyncq (msgq w))
        ∧ handler_calls tr = omap message_call its).
    { intros Hcodes. by eapply wait_for_not_found. }
    split; [exact Hnone|]. split.
    + intros [w' Hrun].
      destruct (decide (Exists (fun it => Item.code it = code) its)) as [|Hno]; [done|].
      apply not_Exists_Forall in Hno; [|intros it; apply _].
      destruct (Hnone Hno) as (w'' & tr & Hblocks & _). congruence.
    + intros Hex.
      apply Exists_exists in Hex as (x & Hx & Hcx).
      destruct (list_find_elem_of (fun it => Item.code it = code) its x Hx Hcx)
        as [[k itm] Hfind].
      apply list_find_Some in Hfind as (Hk & Hcode & Hbefore).
      pose proof (take_drop_middle _ _ _ Hk) as Hsplit.
      pose proof (lookup_lt_Some _ _ _ Hk) as Hlt.
      assert (Hlen : length (cells (asyncq (msgq w))) = length its).
      { destruct Hrec as (_ & Hits & _). by eapply Forall2_length. }
      assert (Hsplit' : its = (take k its ++ [itm]) ++ drop (S k) its)
        by (by rewrite <- app_assoc).
      rewrite <- (take_drop (S k) (cells (asyncq (msgq w)))), Hsplit' in Hrec.
      apply receivable_prefix in Hrec.
      2:{ rewrite length_app, !length_take, Hlen. cbn [length]. lia. }
      destruct (wait_for_found code (take k its) itm _ _ w fuel
                  (eq_sym (take_drop (S k) _)) Hcur Hrec) as (w' & tr & Hrun & _);
        [|exact Hcode| |eauto].
      * apply Forall_forall. intros it Hit.
        apply list_elem_of_lookup in Hit as [j Hj].
        apply lookup_take_Some in Hj as [Hj Hltj]. by eapply Hbefore.
      * rewrite length_take. lia.
  - intros Q HQ v n q' Hc Hpop. eexists. by eapply wait_for_get_fails.
Qed.

(** C6.  [pa_asyncmsgq_post] takes the record at the head of the pool, or
    a new one when the pool is empty; when a chunk is given it asserts
    that the chunk has a block.  With room in the queue it returns with
    the record holding [code], [object], [userdata], [free_cb], [offset],
    the chunk (or the absent chunk) and no semaphore, the counts of the
    object and of the block one higher, and the record at the tail of the
    queue; the push is the only call it makes between locking and
    unlocking the mutex, and it is made with [wait] set.  Without room
    the caller is suspended holding the mutex: the push does not fail. *)
Theorem post_enqueues object code userdata offset chunk free_cb w old :
  let q := asyncq (msgq w) in
  let pooled := head (flist_cells (flist w)) in
  let i := default (fresh (dom (items w))) pooled in
  mutex (msgq w) = false →
  match pooled with
  | Some p => items w !! p
  | None => Some (indeterminate (env w))
  end = Some old →
  if match chunk with Some c => nonnull (Chunk.memblock c) | None => true end
  then
    if (length (cells q) <? capacity q)%nat
    then ∃ w', pa_asyncmsgq_post object code userdata offset chunk free_cb w = Returns tt w'
      ∧ items w' = <[i := Item.Mk code object userdata free_cb offset
                             (default pa_memchunk_reset chunk) None (Item.ret old)]> (items w)
      ∧ flist_cells (flist w') = tail (flist_cells (flist w))
      ∧ msgobject_refs w' =
          match object with
          | Some o => <[o := refcnt (msgobject_refs w) o + 1]> (msgobject_refs w)
          | None => msgobject_refs w
          end
      ∧ memblock_refs w' =
          match chunk ≫= Chunk.memblock with
          | Some b => <[b := refcnt (memblock_refs w) b + 1]> (memblock_refs w)
          | None => memblock_refs w
          end
      ∧ cells (asyncq (msgq w')) = cells q ++ [i]
      ∧ mutex (msgq w') = false
      ∧ current (msgq w') = current (msgq w)
      ∧ semaphores w' = semaphores w
      ∧ env w' = env w
      ∧ trace w' = trace w ++ [EvFlistPop pooled]
          ++ (if nonnull pooled then [] else [EvXnew i])
          ++ match object with Some o => [EvMsgobjectRef o] | None => [] end
          ++ match chunk ≫= Chunk.memblock with Some b => [EvMemblockRef b] | None => [] end
          ++ [EvMutexLock; EvPush i true 0; EvMutexUnlock]
    else ∃ w', pa_asyncmsgq_post object code userdata offset chunk free_cb w = Blocks w'
      ∧ mutex (msgq w') = true
      ∧ cells (asyncq (msgq w')) = cells q
  else pa_asyncmsgq_post object code userdata offset chunk free_cb w = AssertFails.
Proof.
  intros q pooled i Hm Hold.
  destruct (match chunk with Some c => nonnull (Chunk.memblock c) | None => true end)
    eqn:Hchunk.
  - assert (Hc : ∀ c, chunk = Some c → nonnull (Chunk.memblock c) = true)
      by (intros c ->; exact Hchunk).
    rewrite (post_outcome object code userdata offset chunk free_cb w old Hm Hold Hc).
    simpl. unfold fifo_push. fold q.
    destruct (length (cells q) <? capacity q)%nat; simpl.
    + eexists. split; [reflexivity|]. simpl. repeat split; reflexivity.
    + eexists. split; [reflexivity|]. simpl. split; reflexivity.
  - destruct chunk as [c|]; [|discriminate].
    eapply post_asserts_block; [exact Hold|].
    destruct (Chunk.memblock c); [discriminate|reflexivity].
Qed.

End FifoProperties.

(** ** Producers and the consumer together *)

Section SystemProperties.
Context {E : Type} `{!Users E}.
Implicit Types w : world fifo E.
Implicit Types σ : system E.

(** *** What a call that returns has done to the state *)

Lemma post_effect object code userdata offset chunk free_cb w w' :
  mutex (msgq w) = false →
  (∀ p, head (flist_cells (flist w)) = Some p → is_Some (items w !! p)) →
  pa_asyncmsgq_post object code userdata offset chunk free_cb w = Returns tt w' →
  ∃ rec,
    let i := default (fresh (dom (items w))) (head (flist_cells (flist w))) in
    Item.semaphore rec = None
    ∧ items w' = <[i := rec]> (items w)
    ∧ cells (asyncq (msgq w')) = cells (asyncq (msgq w)) ++ [i]
    ∧ current (msgq w') = current (msgq w)
    ∧ mutex (msgq w') = false
    ∧ flist_cells (flist w') = tail (flist_cells (flist w))
    ∧ semaphores w' = semaphores w.
Proof.
  intros Hm Hhead Hrun.
  assert (∃ old, match head (flist_cells (flist w)) with
                 | Some p => items w !! p
                 | None => Some (indeterminate (env w))
                 end = Some old) as [old Hold].
  { destruct (head (flist_cells (flist w))) as [p|]; [|eauto].
    destruct (Hhead p eq_refl) as [old Hold]. eauto. }
  destruct (match chunk with Some c => nonnull (Chunk.memblock c) | None => true end)
    eqn:Hchunk.
  - assert (Hc : ∀ c, chunk = Some c → nonnull (Chunk.memblock c) = true)
      by (intros c ->; exact Hchunk).
    rewrite (post_outcome object code userdata offset chunk free_cb w old Hm Hold Hc)
      in Hrun.
    simpl in Hrun. unfold fifo_push in Hrun.
    destruct (length (cells (asyncq (msgq w))) <? capacity (asyncq (msgq w)))%nat;
      [|discriminate].
    simpl in Hrun. injection Hrun as <-. eexists. simpl. repeat split; reflexivity.
  - destruct chunk as [c|]; [|discriminate].
    rewrite (post_asserts_block object code userdata offset c free_cb w old Hold) in Hrun;
      [discriminate|].
    destruct (Chunk.memblock c); [discriminate|reflexivity].
Qed.

Lemma send_push_effect object code userdata offset chunk w i w' :
  mutex (msgq w) = false →
  pa_asyncmsgq_send_push object code userdata offset chunk w = Returns i w' →
  ∃ rec,
    let s := fresh (dom (semaphores w)) in
    i = fresh (dom (items w))
    ∧ Item.semaphore rec = Some s
    ∧ items w' = <[i := rec]> (items w)
    ∧ semaphores w' = <[s := 0%nat]> (semaphores w)
    ∧ cells (asyncq (msgq w')) = cells (asyncq (msgq w)) ++ [i]
    ∧ current (msgq w') = current (msgq w)
    ∧ mutex (msgq w') = false
    ∧ flist w' = flist w.
Proof.
  intros Hm Hrun. rewrite send_push_outcome in Hrun by exact Hm.
  destruct (match chunk with Some c => nonnull (Chunk.memblock c) | None => true end);
    [|discriminate].
  simpl in Hrun. unfold fifo_push in Hrun.
  destruct (length (cells (asyncq (msgq w))) <? capacity (asyncq (msgq w)))%nat;
    [|discriminate].
  simpl in Hrun. injection Hrun as <- <-. eexists. simpl. repeat split; reflexivity.
Qed.

(** The second half of a send: the sender gets through when its
    semaphore has been posted, and then returns the [ret] field of its
    item; otherwise it stays suspended. *)
Lemma send_wait_outcome (w : world fifo E) i it s n :
  items w !! i = Some it →
  Item.semaphore it = Some s →
  semaphores w !! s = Some n →
  pa_asyncmsgq_send_wait i w =
    match n with
    | O => Blocks w
    | S _ =>
        Returns (Item.ret it)
          (Build_world (msgq w) (delete i (items w)) (flist w) (msgobject_refs w)
             (memblock_refs w) (delete s (semaphores w)) (env w)
             (trace w ++ [EvSemaphoreWait s; EvSemaphoreFree s]))
    end.
Proof.
  intros Hit Hs Hn.
  destruct w as [a its fl orefs brefs sems e tr]; simpl in *.
  unfold pa_asyncmsgq_send_wait. unfold_prims. simpl. rewrite Hit. simpl. rewrite Hs.
  simpl. rewrite Hn.
  destruct n as [|n]; [reflexivity|]. simpl. rewrite Hit. simpl. rewrite Hs.
  simpl. rewrite lookup_insert_eq. simpl. rewrite Hit. simpl.
  rewrite delete_insert_eq, <- app_assoc. reflexivity.
Qed.

Lemma get_effect object code userdata offset chunk wait w rl w' :
  pa_asyncmsgq_get object code userdata offset chunk wait w = Returns rl w' →
  current (msgq w) = None
  ∧ items w' = items w ∧ semaphores w' = semaphores w ∧ flist w' = flist w
  ∧ mutex (msgq w') = mutex (msgq w)
  ∧ ((cells (asyncq (msgq w)) = [] ∧ cells (asyncq (msgq w')) = []
      ∧ current (msgq w') = None)
     ∨ (∃ c, cells (asyncq (msgq w)) = c :: cells (asyncq (msgq w'))
             ∧ current (msgq w') = Some c)).
Proof.
  destruct w as [[[cs cap f] m cur] its fl orefs brefs sems e tr]; simpl.
  unfold pa_asyncmsgq_get. unfold_prims. simpl.
  destruct code; simpl; [|discriminate].
  destruct cur; simpl; [discriminate|].
  unfold fifo_pop. simpl.
  destruct cs as [|c cs]; simpl.
  - destruct wait; simpl; [discriminate|]. intros [= <- <-]. simpl. auto 10.
  - destruct (its !! c) as [it|]; simpl; [|discriminate].
    destruct (nonnull object); simpl;
      [destruct (Item.object it) as [o|]; simpl;
       [destruct (0 <? refcnt orefs o); simpl; [|discriminate]|]|];
      intros [= <- <-]; simpl; eauto 10.
Qed.

Lemma done_effect ret w c it w' :
  current (msgq w) = Some c →
  items w !! c = Some it →
  pa_asyncmsgq_done ret w = Returns tt w' →
  cells (asyncq (msgq w')) = cells (asyncq (msgq w))
  ∧ current (msgq w') = None
  ∧ mutex (msgq w') = mutex (msgq w)
  ∧ match Item.semaphore it with
    | Some s =>
        ∃ n, semaphores w !! s = Some n
          ∧ items w' = <[c := Item.set_ret ret it]> (items w)
          ∧ semaphores w' = <[s := S n]> (semaphores w)
          ∧ flist w' = flist w
    | None =>
        semaphores w' = semaphores w
        ∧ ((flist_cells (flist w') = c :: flist_cells (flist w) ∧ items w' = items w)
           ∨ (flist_cells (flist w') = flist_cells (flist w)
              ∧ items w' = delete c (items w)))
    end.
Proof.
  intros Hc Hit Hrun.
  destruct (Item.semaphore it) as [s|] eqn:Hs.
  - destruct (semaphores w !! s) as [n|] eqn:Hn.
    + rewrite (done_send_path ret w c it s n Hc Hit Hs Hn) in Hrun.
      injection Hrun as <-. simpl. rewrite Hs. eauto 10.
    + exfalso. revert Hrun. unfold pa_asyncmsgq_done. unfold_prims.
      rewrite Hc. simpl. rewrite Hit. simpl. rewrite Hs. simpl. rewrite Hit. simpl.
      rewrite Hn. discriminate.
  - destruct (done_post_path ret w c it Hc Hit Hs)
      as (w1 & Hrun1 & _ & _ & _ & _ & Hfl & _ & Hitems & Hsems & Hq).
    rewrite Hrun1 in Hrun. injection Hrun as <-.
    rewrite Hq. simpl. split; [reflexivity|]. split; [reflexivity|].
    split; [reflexivity|]. split; [exact Hsems|].
    destruct (length (flist_cells (flist w)) <? flist_size (flist w))%nat; auto.
Qed.

(** *** The invariant is kept by every step *)

(** A step that leaves the record and the semaphore of a suspended sender
    alone, and observes nothing about the sender or its item, leaves the
    sender in order. *)
Lemma sender_ok_frame σ σ' t i new :
  sender_ok σ t i →
  items (sys_world σ') !! i = items (sys_world σ) !! i →
  (∀ it s, items (sys_world σ) !! i = Some it → Item.semaphore it = Some s →
     semaphores (sys_world σ') !! s = semaphores (sys_world σ) !! s) →
  i ∉ flist_cells (flist (sys_world σ')) →
  history σ' = new ++ history σ →
  Forall (not_thread t) new →
  Forall (not_completed i) new →
  (i ∉ cells (asyncq (msgq (sys_world σ))) → current (msgq (sys_world σ)) ≠ Some i →
     (i ∉ cells (asyncq (msgq (sys_world σ')))) ∧ current (msgq (sys_world σ')) ≠ Some i) →
  sender_ok σ' t i.
Proof.
  intros (it & s & n & hw & ha & Hit & Hs & Hn & Hfl & Hh & Hthread & Hcase)
    Hitems Hsems Hfl' Hh' Hnew_thread Hnew_completed Hgone.
  exists it, s, n, (new ++ hw), ha.
  split; [by rewrite Hitems|]. split; [exact Hs|].
  split; [by rewrite (Hsems it s Hit Hs)|]. split; [exact Hfl'|].
  split; [by rewrite Hh', Hh, app_assoc|].
  split; [by apply Forall_app|].
  destruct Hcase as [[-> Hnone]|(Hq & Hcur & hc & hb & -> & Hnone)].
  - left. split; [reflexivity|]. by apply Forall_app.
  - right. destruct (Hgone Hq Hcur) as [Hq' Hcur'].
    split; [exact Hq'|]. split; [exact Hcur'|].
    exists (new ++ hc), hb. split; [by rewrite app_assoc|].
    rewrite <- app_assoc. by apply Forall_app.
Qed.

Lemma step_post_inv σ σ' object code userdata offset chunk free_cb :
  sys_inv σ →
  step (Post object code userdata offset chunk free_cb) σ = Some σ' →
  sys_inv σ'.
Proof.
  intros [Hmutex Hnodup Halloc Hsenders Hsems Hunshared Hhistory] Hstep.
  simpl in Hstep.
  destruct (pa_asyncmsgq_post _ _ _ _ _ _ (sys_world σ)) as [[] w'| | | |] eqn:Hrun;
    try discriminate.
  injection Hstep as <-.
  apply post_effect in Hrun as (rec & Hrec & Hitems & Hcells & Hcur & Hm & Hfl & Hsm);
    [|exact Hmutex|].
  2:{ intros p Hp. apply Halloc. unfold owned.
      destruct (flist_cells (flist (sys_world σ))) as [|p' fl]; [discriminate|].
      injection Hp as ->. set_solver. }
  set (w := sys_world σ) in *.
  set (i := default (fresh (dom (items w))) (head (flist_cells (flist w)))) in *.
  assert (Hi : (i ∉ cells (asyncq (msgq w)) ++ option_list (current (msgq w))
                    ++ tail (flist_cells (flist w)))
               ∧ NoDup (cells (asyncq (msgq w)) ++ option_list (current (msgq w))
                        ++ tail (flist_cells (flist w)))
               ∧ (∀ j, j ∈ dom (items w) → j ∉ flist_cells (flist w) → j ≠ i)).
  { unfold owned in Hnodup, Halloc. subst i.
    destruct (flist_cells (flist w)) as [|p fl] eqn:Hfle; simpl.
    - split; [|split; [exact Hnodup|]].
      + intros Hin. apply Halloc, elem_of_dom in Hin. by apply is_fresh in Hin.
      + intros j Hj _ ->. by apply is_fresh in Hj.
    - rewrite !app_assoc in Hnodup. rewrite !app_assoc.
      apply NoDup_app in Hnodup as (Hn1 & Hn2 & Hn3).
      apply NoDup_cons in Hn3 as [Hp Hn3].
      split; [|split].
      + intros [Hin|Hin]%elem_of_app; [|done].
        apply (Hn2 p Hin). by left.
      + apply NoDup_app. split; [exact Hn1|]. split; [|exact Hn3].
        intros x Hx Hx'. apply (Hn2 x Hx). by right.
      + intros j _ Hj ->. apply Hj. by left. }
  destruct Hi as (Hi & Hnodup' & Hfresh).
  assert (Hsender_ne : ∀ t j, waiting σ !! t = Some j → j ≠ i).
  { intros t j Hj. destruct (Hsenders t j Hj) as (it & s & n & _ & _ & Hit & _ & _ & Hfl' & _).
    apply Hfresh; [by apply elem_of_dom|exact Hfl']. }
  constructor; simpl.
  - exact Hm.
  - unfold owned. rewrite Hcells, Hcur, Hfl, <- app_assoc. simpl.
    rewrite <- Permutation_middle. by apply NoDup_cons.
  - intros p. unfold owned. rewrite Hcells, Hcur, Hfl, Hitems.
    intros Hp. destruct (decide (p = i)) as [->|Hne].
    + rewrite lookup_insert_eq. eauto.
    + rewrite lookup_insert_ne by done. apply Halloc. unfold owned.
      destruct (flist_cells (flist w)); set_solver.
  - intros t j Hj. pose proof (Hsender_ne t j Hj) as Hne.
    apply (sender_ok_frame σ _ t j []); simpl; try done.
    + apply Hsenders, Hj.
    + rewrite Hitems. by rewrite lookup_insert_ne.
    + intros it s _ _. by rewrite Hsm.
    + rewrite Hfl. destruct (Hsenders t j Hj) as (_ & _ & _ & _ & _ & _ & _ & _ & Hfl' & _).
      fold w in Hfl'. destruct (flist_cells (flist w)); set_solver.
    + intros Hq Hc. rewrite Hcells, Hcur. split; [set_solver|exact Hc].
  - intros p it s. rewrite Hitems. intros Hp Hs.
    destruct (decide (p = i)) as [->|Hne].
    + rewrite lookup_insert_eq in Hp. injection Hp as <-. congruence.
    + rewrite lookup_insert_ne in Hp by done. by eapply Hsems.
  - intros t1 t2 i1 i2 it1 it2 s Ht1 Ht2. rewrite Hitems.
    rewrite !lookup_insert_ne by (by eapply not_eq_sym, Hsender_ne).
    by apply Hunshared.
  - exact Hhistory.
Qed.

Lemma step_send_push_inv σ σ' t object code userdata offset chunk :
  sys_inv σ →
  step (SendPush t object code userdata offset chunk) σ = Some σ' →
  sys_inv σ'.
Proof.
  intros [Hmutex Hnodup Halloc Hsenders Hsems Hunshared Hhistory] Hstep.
  simpl in Hstep.
  destruct (waiting σ !! t) eqn:Ht; [discriminate|].
  destruct (pa_asyncmsgq_send_push _ _ _ _ _ (sys_world σ)) as [i w'| | | |] eqn:Hrun;
    try discriminate.
  injection Hstep as <-.
  apply send_push_effect in Hrun
    as (rec & Hi & Hrec & Hitems & Hsm & Hcells & Hcur & Hm & Hfl); [|exact Hmutex].
  set (w := sys_world σ) in *.
  set (s := fresh (dom (semaphores w))) in *.
  assert (Hfresh : i ∉ owned w).
  { intros Hin. apply Halloc, elem_of_dom in Hin. subst i. by apply is_fresh in Hin. }
  assert (Hsender : ∀ t' j, waiting σ !! t' = Some j →
            t' ≠ t ∧ j ≠ i
            ∧ ∀ it s', items w !! j = Some it → Item.semaphore it = Some s' → s' ≠ s).
  { intros t' j Hj. split; [congruence|].
    destruct (Hsenders t' j Hj) as (it & s' & n & _ & _ & Hit & Hs' & Hn & _).
    split.
    - intros ->. apply elem_of_dom_2 in Hit. subst i. by apply is_fresh in Hit.
    - intros it0 s0 Hit0 Hs0 ->. fold w in Hit. rewrite Hit in Hit0. injection Hit0 as <-.
      rewrite Hs' in Hs0. injection Hs0 as ->.
      apply elem_of_dom_2 in Hn. by apply is_fresh in Hn. }
  constructor; simpl.
  - exact Hm.
  - unfold owned in *. rewrite Hcells, Hcur, Hfl, <- app_assoc. simpl.
    rewrite <- Permutation_middle. by apply NoDup_cons.
  - intros p. unfold owned. rewrite Hcells, Hcur, Hfl, Hitems.
    intros Hp. destruct (decide (p = i)) as [->|Hne].
    + rewrite lookup_insert_eq. eauto.
    + rewrite lookup_insert_ne by done. apply Halloc. unfold owned. set_solver.
  - intros t' j Hj. destruct (decide (t' = t)) as [->|Hne].
    + rewrite lookup_insert_eq in Hj. injection Hj as <-.
      exists rec, s, 0%nat, [], (history σ). simpl.
      split; [by rewrite Hitems, lookup_insert_eq|]. split; [exact Hrec|].
      split; [by rewrite Hsm, lookup_insert_eq|].
      split; [rewrite Hfl; unfold owned in Hfresh; set_solver|].
      split; [reflexivity|]. split; [constructor|]. left. by split.
    + rewrite lookup_insert_ne in Hj by done.
      destruct (Hsender t' j Hj) as (_ & Hji & Hsem).
      apply (sender_ok_frame σ _ t' j [Pushed t i]); simpl.
      * by apply Hsenders.
      * rewrite Hitems. by rewrite lookup_insert_ne.
      * intros it s' Hit Hs'. rewrite Hsm. rewrite lookup_insert_ne; [done|].
        by eapply not_eq_sym, Hsem.
      * rewrite Hfl. by destruct (Hsenders t' j Hj) as (_ & _ & _ & _ & _ & _ & _ & _ & ? & _).
      * reflexivity.
      * repeat constructor. simpl. congruence.
      * by repeat constructor.
      * intros Hq Hc. rewrite Hcells, Hcur. split; [set_solver|exact Hc].
  - intros p it s'. rewrite Hitems. intros Hp Hs'.
    destruct (decide (p = i)) as [->|Hne].
    + exists t. by rewrite lookup_insert_eq.
    + rewrite lookup_insert_ne in Hp by done.
      destruct (Hsems p it s' Hp Hs') as [t' Ht'].
      exists t'. rewrite lookup_insert_ne; [done|]. congruence.
  - intros t1 t2 i1 i2 it1 it2 s' Ht1 Ht2. rewrite Hitems.
    destruct (decide (t1 = t)) as [->|Hne1], (decide (t2 = t)) as [->|Hne2]; [done|..].
    + rewrite lookup_insert_eq in Ht1. injection Ht1 as <-.
      rewrite lookup_insert_ne in Ht2 by done.
      destruct (Hsender t2 i2 Ht2) as (_ & Hji & Hsem).
      rewrite lookup_insert_eq, lookup_insert_ne by done.
      intros [= <-] Hit2 Hs1 Hs2. exfalso.
      eapply Hsem; [exact Hit2|exact Hs2|]. congruence.
    + rewrite lookup_insert_eq in Ht2. injection Ht2 as <-.
      rewrite lookup_insert_ne in Ht1 by done.
      destruct (Hsender t1 i1 Ht1) as (_ & Hji & Hsem).
      rewrite lookup_insert_eq, lookup_insert_ne by done.
      intros Hit1 [= <-] Hs1 Hs2. exfalso.
      eapply Hsem; [exact Hit1|exact Hs1|]. congruence.
    + rewrite lookup_insert_ne in Ht1, Ht2 by done.
      destruct (Hsender t1 i1 Ht1) as (_ & Hji1 & _).
      destruct (Hsender t2 i2 Ht2) as (_ & Hji2 & _).
      rewrite !lookup_insert_ne by done. by apply Hunshared.
  - split; [exact I|exact Hhistory].
Qed.

Lemma step_send_return_inv σ σ' t :
  sys_inv σ →
  step (SendReturn t) σ = Some σ' →
  sys_inv σ'.
Proof.
  intros [Hmutex Hnodup Halloc Hsenders Hsems Hunshared Hhistory] Hstep.
  simpl in Hstep.
  destruct (waiting σ !! t) as [i|] eqn:Ht; [|discriminate].
  destruct (Hsenders t i Ht) as (it & s & n & hw & ha & Hit & Hs & Hn & Hfl & Hh & Hthread
                                 & Hcase).
  rewrite (send_wait_outcome _ i it s n Hit Hs Hn) in Hstep.
  destruct n as [|n]; [discriminate|]. injection Hstep as <-.
  destruct Hcase as [[? _]|(Hq & Hcur & hc & hb & -> & Hnone)]; [discriminate|].
  set (w := sys_world σ) in *.
  assert (Hfree : i ∉ owned w).
  { unfold owned. destruct (current (msgq w)) as [c|] eqn:Hc; simpl; [|set_solver].
    assert (c ≠ i) by congruence. set_solver. }
  assert (Hother : ∀ t' j, waiting σ !! t' = Some j → t' ≠ t →
            j ≠ i ∧ ∀ it' s', items w !! j = Some it' → Item.semaphore it' = Some s' → s' ≠ s).
  { intros t' j Hj Hne. split.
    - intros ->. apply Hne. by eapply (Hunshared t' t i i it it s).
    - intros it' s' Hit' Hs' ->. apply Hne.
      by eapply (Hunshared t' t j i it' it s). }
  constructor; simpl.
  - exact Hmutex.
  - exact Hnodup.
  - intros p Hp. rewrite lookup_delete_ne; [by apply Halloc|]. intros ->. done.
  - intros t' j Hj. apply lookup_delete_Some in Hj as [Hne Hj].
    destruct (Hother t' j Hj ltac:(congruence)) as [Hji Hsem].
    apply (sender_ok_frame σ _ t' j [Returned t (Item.ret it)]); simpl.
    + by apply Hsenders.
    + by rewrite lookup_delete_ne.
    + intros it' s' Hit' Hs'. rewrite lookup_delete_ne; [done|].
      by eapply not_eq_sym, Hsem.
    + by destruct (Hsenders t' j Hj) as (_ & _ & _ & _ & _ & _ & _ & _ & ? & _).
    + reflexivity.
    + repeat constructor. simpl. congruence.
    + by repeat constructor.
    + done.
  - intros p it' s' Hp Hs'. apply lookup_delete_Some in Hp as [Hne Hp].
    destruct (Hsems p it' s' Hp Hs') as [t' Ht'].
    exists t'. rewrite lookup_delete_ne; [done|]. intros ->. congruence.
  - intros t1 t2 i1 i2 it1 it2 s' Ht1 Ht2 Hit1 Hit2.
    apply lookup_delete_Some in Ht1 as [_ Ht1]. apply lookup_delete_Some in Ht2 as [_ Ht2].
    apply lookup_delete_Some in Hit1 as [_ Hit1].
    apply lookup_delete_Some in Hit2 as [_ Hit2].
    by eapply Hunshared.
  - split; [|exact Hhistory].
    exists hc, i, hb, ha. rewrite Hh, <- app_assoc. split; [reflexivity|].
    split.
    + apply Forall_app in Hthread as [Hc1 Hc2]. apply Forall_cons in Hc2 as [_ Hc2].
      by apply Forall_app.
    + exact Hnone.
Qed.

Lemma step_get_inv σ σ' object code userdata offset chunk wait :
  sys_inv σ →
  step (Get object code userdata offset chunk wait) σ = Some σ' →
  sys_inv σ'.
Proof.
  intros [Hmutex Hnodup Halloc Hsenders Hsems Hunshared Hhistory] Hstep.
  simpl in Hstep.
  destruct (pa_asyncmsgq_get _ _ _ _ _ _ (sys_world σ)) as [rl w'| | | |] eqn:Hrun;
    try discriminate.
  injection Hstep as <-.
  apply get_effect in Hrun as (Hcur & Hitems & Hsm & Hfl & Hm & Hcase).
  set (w := sys_world σ) in *.
  assert (Hperm : owned w' ≡ₚ owned w).
  { unfold owned. rewrite Hfl, Hcur.
    destruct Hcase as [(-> & -> & ->)|(c & -> & ->)]; [done|]. simpl.
    by rewrite <- Permutation_middle. }
  constructor; simpl.
  - by rewrite Hm.
  - by rewrite Hperm.
  - intros p Hp. rewrite Hitems. apply Halloc. by rewrite <- Hperm.
  - intros t j Hj.
    apply (sender_ok_frame σ _ t j []); simpl; try done.
    + by apply Hsenders.
    + by rewrite Hitems.
    + intros it s _ _. by rewrite Hsm.
    + rewrite Hfl. by destruct (Hsenders t j Hj) as (_ & _ & _ & _ & _ & _ & _ & _ & ? & _).
    + intros Hq Hc.
      destruct Hcase as [(_ & -> & ->)|(c & Hcells & ->)]; [set_solver|].
      fold w in Hq. rewrite Hcells in Hq. split; [set_solver|].
      intros [= ->]. set_solver.
  - intros p it s. rewrite Hitems. apply Hsems.
  - intros t1 t2 i1 i2 it1 it2 s. rewrite Hitems. apply Hunshared.
  - exact Hhistory.
Qed.

Lemma step_done_inv σ σ' ret :
  sys_inv σ →
  step (Done ret) σ = Some σ' →
  sys_inv σ'.
Proof.
  intros [Hmutex Hnodup Halloc Hsenders Hsems Hunshared Hhistory] Hstep.
  simpl in Hstep.
  destruct (current (msgq (sys_world σ))) as [c|] eqn:Hc; [|discriminate].
  destruct (pa_asyncmsgq_done ret (sys_world σ)) as [[] w'| | | |] eqn:Hrun;
    try discriminate.
  injection Hstep as <-.
  set (w := sys_world σ) in *.
  assert (is_Some (items w !! c)) as [it Hit].
  { apply Halloc. unfold owned. rewrite Hc. set_solver. }
  destruct (done_effect ret w c it w' Hc Hit Hrun) as (Hcells & Hcur & Hm & Heffect).
  unfold owned in Hnodup. rewrite Hc in Hnodup. simpl in Hnodup.
  apply NoDup_app in Hnodup as (Hn1 & Hn2 & Hn3). apply NoDup_cons in Hn3 as [Hcfl Hn3].
  assert (Hcq : c ∉ cells (asyncq (msgq w))) by (intros Hin; apply (Hn2 c Hin); by left).
  assert (Hrest : NoDup (cells (asyncq (msgq w)) ++ flist_cells (flist w))).
  { apply NoDup_app. split; [exact Hn1|]. split; [|exact Hn3].
    intros x Hx Hx'. apply (Hn2 x Hx). by right. }
  destruct (Item.semaphore it) as [s|] eqn:Hs.
  - destruct Heffect as (n & Hn & Hitems & Hsm & Hfl).
    destruct (Hsems c it s Hit Hs) as [tc Htc].
    assert (Hsame : ∀ p it', items w' !! p = Some it' →
              ∃ it0, items w !! p = Some it0 ∧ Item.semaphore it0 = Item.semaphore it').
    { intros p it'. rewrite Hitems. destruct (decide (p = c)) as [->|Hne].
      - rewrite lookup_insert_eq. intros [= <-]. eauto.
      - rewrite lookup_insert_ne by done. eauto. }
    constructor; simpl.
    + by rewrite Hm.
    + unfold owned. by rewrite Hcells, Hcur, Hfl.
    + intros p. unfold owned. rewrite Hcells, Hcur, Hfl, Hitems. simpl. intros Hp.
      apply lookup_insert_is_Some'. right. apply Halloc. unfold owned. rewrite Hc.
      set_solver.
    + intros t j Hj. destruct (decide (j = c)) as [->|Hne].
      * destruct (Hsenders t c Hj)
          as (it0 & s0 & n0 & hw & ha & Hit0 & Hs0 & Hn0 & Hfl0 & Hh & Hthread & Hcase).
        fold w in Hit0, Hn0, Hfl0. rewrite Hit in Hit0. injection Hit0 as <-.
        rewrite Hs in Hs0. injection Hs0 as <-.
        destruct Hcase as [[-> Hnone]|(_ & Hcur0 & _)]; [|by fold w in Hcur0].
        exists (Item.set_ret ret it), s, (S n), (Completed c ret :: hw), ha. simpl.
        split; [by rewrite Hitems, lookup_insert_eq|]. split; [exact Hs|].
        split; [by rewrite Hsm, lookup_insert_eq|]. split; [by rewrite Hfl|].
        split; [by rewrite Hh|]. split; [by constructor|].
        right. rewrite Hcells, Hcur. split; [exact Hcq|]. split; [done|].
        by exists [], hw.
      * assert (Hsne : ∀ it' s', items w !! j = Some it' → Item.semaphore it' = Some s' →
                  s' ≠ s).
        { intros it' s' Hit' Hs' ->. apply Hne.
          assert (t = tc) as -> by (by eapply (Hunshared t tc j c it' it s)).
          congruence. }
        apply (sender_ok_frame σ _ t j [Completed c ret]); simpl.
        -- by apply Hsenders.
        -- rewrite Hitems. by rewrite lookup_insert_ne.
        -- intros it' s' Hit' Hs'. rewrite Hsm. rewrite lookup_insert_ne; [done|].
           by eapply not_eq_sym, Hsne.
        -- rewrite Hfl.
           by destruct (Hsenders t j Hj) as (_ & _ & _ & _ & _ & _ & _ & _ & ? & _).
        -- reflexivity.
        -- by repeat constructor.
        -- repeat constructor. simpl. congruence.
        -- intros Hq _. rewrite Hcells, Hcur. by split.
    + intros p it' s' Hp Hs'. destruct (Hsame p it' Hp) as (it0 & Hit0 & Hs0).
      eapply Hsems; [exact Hit0|rewrite Hs0; exact Hs'].
    + intros t1 t2 i1 i2 it1 it2 s' Ht1 Ht2 Hit1 Hit2 Hs1 Hs2.
      destruct (Hsame i1 it1 Hit1) as (it1' & Hit1' & Hs1').
      destruct (Hsame i2 it2 Hit2) as (it2' & Hit2' & Hs2').
      eapply (Hunshared t1 t2 i1 i2 it1' it2' s'); eauto; congruence.
    + split; [exact I|exact Hhistory].
  - destruct Heffect as (Hsm & Hpool).
    assert (Hsub : ∀ p it', items w' !! p = Some it' → items w !! p = Some it').
    { intros p it'. destruct Hpool as [(_ & ->)|(_ & ->)]; [done|].
      by intros [_ ?]%lookup_delete_Some. }
    assert (Hsender : ∀ t j, waiting σ !! t = Some j →
              j ≠ c ∧ items w' !! j = items w !! j ∧ j ∉ flist_cells (flist w')).
    { intros t j Hj.
      destruct (Hsenders t j Hj) as (it' & s' & _ & _ & _ & Hit' & Hs' & _ & Hfl' & _).
      fold w in Hit', Hfl'.
      assert (j ≠ c) by (intros ->; congruence). split; [done|].
      destruct Hpool as [(-> & ->)|(-> & ->)].
      - split; [done|]. set_solver.
      - split; [by rewrite lookup_delete_ne|done]. }
    constructor; simpl.
    + by rewrite Hm.
    + unfold owned. rewrite Hcells, Hcur. simpl.
      destruct Hpool as [(-> & _)|(-> & _)]; [|exact Hrest].
      rewrite <- Permutation_middle. apply NoDup_cons. split; [|exact Hrest].
      set_solver.
    + intros p. unfold owned. rewrite Hcells, Hcur. simpl. intros Hp.
      destruct Hpool as [(Hfl & ->)|(Hfl & ->)]; rewrite Hfl in Hp.
      * apply Halloc. unfold owned. rewrite Hc. set_solver.
      * rewrite lookup_delete_ne by set_solver.
        apply Halloc. unfold owned. rewrite Hc. set_solver.
    + intros t j Hj. destruct (Hsender t j Hj) as (Hne & Hitj & Hflj).
      apply (sender_ok_frame σ _ t j [Completed c ret]); simpl.
      * by apply Hsenders.
      * exact Hitj.
      * intros it' s' _ _. by rewrite Hsm.
      * exact Hflj.
      * reflexivity.
      * by repeat constructor.
      * repeat constructor. simpl. congruence.
      * intros Hq _. rewrite Hcells, Hcur. by split.
    + intros p it' s' Hp Hs'. eapply Hsems; [by apply Hsub|exact Hs'].
    + intros t1 t2 i1 i2 it1 it2 s' Ht1 Ht2 Hit1 Hit2.
      apply Hsub in Hit1, Hit2. by eapply Hunshared.
    + split; [exact I|exact Hhistory].
Qed.

Lemma step_inv c σ σ' : sys_inv σ → step c σ = Some σ' → sys_inv σ'.
Proof.
  destruct c.
  - apply step_post_inv.
  - apply step_send_push_inv.
  - apply step_send_return_inv.
  - apply step_get_inv.
  - apply step_done_inv.
Qed.

Lemma run_inv cs : ∀ σ σ', sys_inv σ → run cs σ = Some σ' → sys_inv σ'.
Proof.
  induction cs as [|c cs IH]; intros σ σ' Hinv Hrun; simpl in Hrun.
  - by injection Hrun as <-.
  - destruct (step c σ) as [σ1|] eqn:Hstep; [|discriminate].
    eapply IH; [|exact Hrun]. by eapply step_inv.
Qed.

Lemma initial_inv σ : initial σ → sys_inv σ.
Proof.
  intros (Hcells & Hm & Hcur & Hfl & Hitems & Hwaiting & Hh).
  constructor.
  - exact Hm.
  - unfold owned. rewrite Hcells, Hcur, Hfl. constructor.
  - unfold owned. rewrite Hcells, Hcur, Hfl. intros p Hp. by apply not_elem_of_nil in Hp.
  - intros t i. by rewrite Hwaiting, lookup_empty.
  - intros p it s. by rewrite Hitems, lookup_empty.
  - intros t1 t2 i1 i2 it1 it2 s. by rewrite Hwaiting, lookup_empty.
  - by rewrite Hh.
Qed.



End SystemProperties.

(** ** The sender and the consumer inside [pa_asyncmsgq_done] *)

Section StatementProperties.
Context {E : Type} `{!Users E}.
Implicit Types w : world fifo E.
Implicit Types σ : system E.
Implicit Types θ : fine_system E.

(** *** Calls that leave [a->current] alone *)










(** *** The item of a reply stays in flight while producers run *)


(** *** The statements of the reply *)





(** *** The invariant is kept by every move *)








End StatementProperties.

(** ** The consumer side and the writer mutex *)

Section MutexProperties.
Context {Q E : Type} `{!AsyncQ Q} `{!Users E}.
Implicit Types w : world Q E.

Lemma lock_free_pure {A} (x : A) : lock_free (Q:=Q) (E:=E) (pure x).
Proof. intros w. simpl. split; [done|]. exists []. by rewrite app_nil_r. Qed.

Lemma lock_free_bind {A B} (m : M Q E A) (k : A → M Q E B) :
  lock_free m → (∀ x, lock_free (k x)) → lock_free (bind m k).
Proof.
  intros Hm Hk w. unfold bind. specialize (Hm w).
  destruct (m w) as [x w1| |w1| |]; try done.
  specialize (Hk x w1).
  destruct (k x w1) as [y w2| |w2| |]; try done;
    destruct Hm as (Hm1 & tr1 & Ht1 & Hf1), Hk as (Hk1 & tr2 & Ht2 & Hf2);
    (split; [congruence|]); exists (tr1 ++ tr2);
    (split; [by rewrite Ht2, Ht1, app_assoc | by rewrite forallb_app, Hf1, Hf2]).
Qed.

Lemma lock_free_stuck {A} (o : outcome (world Q E) A) :
  match o with Returns _ _ | Blocks _ => False | _ => True end →
  lock_free (fun _ => o).
Proof. intros Ho w. by destruct o. Qed.

Ltac lock_free_prim :=
  intros ?; unfold_prims; unfold pa_assert in *; repeat case_match;
  simplify_eq; simpl; try done;
  (split; [done|]);
  first [ by (exists []; rewrite app_nil_r) | by (eexists; split; [reflexivity|]) ].

Ltac solve_lock_free :=
  repeat first
    [ apply lock_free_pure
    | apply lock_free_bind; [|intros ?]
    | apply lock_free_stuck; exact I
    | match goal with
      | |- lock_free (match ?x with _ => _ end) => destruct x
      | |- lock_free (if ?x then _ else _) => destruct x
      end
    | lock_free_prim ].

Lemma lock_free_get object code userdata offset chunk wait :
  lock_free (Q:=Q) (E:=E) (pa_asyncmsgq_get object code userdata offset chunk wait).
Proof. unfold pa_asyncmsgq_get. solve_lock_free. Qed.

Lemma lock_free_dispatch object code userdata offset memchunk :
  lock_free (Q:=Q) (E:=E) (pa_asyncmsgq_dispatch object code userdata offset memchunk).
Proof. unfold pa_asyncmsgq_dispatch. solve_lock_free. Qed.

Lemma lock_free_done ret : lock_free (Q:=Q) (E:=E) (pa_asyncmsgq_done ret).
Proof. unfold pa_asyncmsgq_done. solve_lock_free. Qed.

Lemma lock_free_wait_for code fuel :
  lock_free (Q:=Q) (E:=E) (pa_asyncmsgq_wait_for fuel code).
Proof.
  induction fuel as [|fuel IH]; cbn [pa_asyncmsgq_wait_for]; [by apply lock_free_stuck|].
  apply lock_free_bind; [apply lock_free_get|intros rl].
  destruct (rl.1 <? 0); [apply lock_free_pure|].
  apply lock_free_bind; [apply lock_free_dispatch|intros ret].
  apply lock_free_bind; [apply lock_free_done|intros _].
  destruct (bool_decide _); [exact IH|apply lock_free_pure].
Qed.

Lemma lock_free_cb_drain fuel : lock_free (Q:=Q) (E:=E) (asyncmsgq_cb_drain fuel).
Proof.
  induction fuel as [|fuel IH]; cbn [asyncmsgq_cb_drain]; [by apply lock_free_stuck|].
  apply lock_free_bind; [apply lock_free_get|intros rl].
  destruct (rl.1 =? 0); [|apply lock_free_pure].
  apply lock_free_bind; [apply lock_free_dispatch|intros ret].
  apply lock_free_bind; [apply lock_free_done|intros _]. exact IH.
Qed.

Lemma lock_free_before_poll : lock_free (Q:=Q) (E:=E) pa_asyncmsgq_before_poll.
Proof. unfold pa_asyncmsgq_before_poll. solve_lock_free. Qed.

Lemma lock_free_after_poll : lock_free (Q:=Q) (E:=E) pa_asyncmsgq_after_poll.
Proof. unfold pa_asyncmsgq_after_poll. solve_lock_free. Qed.

Lemma lock_free_get_fd : lock_free (Q:=Q) (E:=E) pa_asyncmsgq_get_fd.
Proof. unfold pa_asyncmsgq_get_fd. solve_lock_free. Qed.

Lemma lock_free_cb_loop fuel : lock_free (Q:=Q) (E:=E) (asyncmsgq_cb_loop fuel).
Proof.
  induction fuel as [|fuel IH]; cbn [asyncmsgq_cb_loop]; [by apply lock_free_stuck|].
  apply lock_free_bind; [apply lock_free_cb_drain|intros _].
  apply lock_free_bind; [apply lock_free_before_poll|intros r].
  destruct (r =? 0); [apply lock_free_pure|exact IH].
Qed.

Lemma lock_free_cb fuel fd events :
  lock_free (Q:=Q) (E:=E) (asyncmsgq_cb fuel fd events).
Proof.
  unfold asyncmsgq_cb.
  apply lock_free_bind; [apply lock_free_get_fd|intros f].
  apply lock_free_bind; [solve_lock_free|intros _].
  apply lock_free_bind; [solve_lock_free|intros _].
  apply lock_free_bind; [apply lock_free_after_poll|intros _].
  apply lock_free_cb_loop.
Qed.

Lemma lock_free_free_loop fuel : lock_free (Q:=Q) (E:=E) (pa_asyncmsgq_free_loop fuel).
Proof.
  induction fuel as [|fuel IH]; cbn [pa_asyncmsgq_free_loop]; [by apply lock_free_stuck|].
  apply lock_free_bind; [solve_lock_free|intros [i|]]; [|apply lock_free_pure].
  apply lock_free_bind; [solve_lock_free|intros it].
  do 4 (apply lock_free_bind; [solve_lock_free|intros _]).
  apply lock_free_bind; [solve_lock_free|intros r].
  apply lock_free_bind; [solve_lock_free|intros _]. exact IH.
Qed.

(** X1.  The writer mutex belongs to the writers.  [pa_asyncmsgq_get],
    [pa_asyncmsgq_dispatch], [pa_asyncmsgq_done], [pa_asyncmsgq_wait_for],
    the poll functions, the core's readiness callback and
    [pa_asyncmsgq_free] never lock or unlock it: whether such a call
    returns or leaves its caller suspended, the mutex is as before and the
    calls it made include no lock and no unlock. *)
Theorem consumer_side_takes_no_lock :
  (∀ object code userdata offset chunk wait,
     lock_free (Q:=Q) (E:=E) (pa_asyncmsgq_get object code userdata offset chunk wait))
  ∧ (∀ object code userdata offset memchunk,
       lock_free (Q:=Q) (E:=E) (pa_asyncmsgq_dispatch object code userdata offset memchunk))
  ∧ (∀ ret, lock_free (Q:=Q) (E:=E) (pa_asyncmsgq_done ret))
  ∧ (∀ fuel code, lock_free (Q:=Q) (E:=E) (pa_asyncmsgq_wait_for fuel code))
  ∧ lock_free (Q:=Q) (E:=E) pa_asyncmsgq_get_fd
  ∧ lock_free (Q:=Q) (E:=E) pa_asyncmsgq_before_poll
  ∧ lock_free (Q:=Q) (E:=E) pa_asyncmsgq_after_poll
  ∧ (∀ fuel fd events, lock_free (Q:=Q) (E:=E) (asyncmsgq_cb fuel fd events))
  ∧ (∀ fuel, lock_free (Q:=Q) (E:=E) (pa_asyncmsgq_free fuel)).
Proof.
  split; [intros; apply lock_free_get|].
  split; [intros; apply lock_free_dispatch|].
  split; [intros; apply lock_free_done|].
  split; [intros; apply lock_free_wait_for|].
  split; [apply lock_free_get_fd|].
  split; [apply lock_free_before_poll|].
  split; [apply lock_free_after_poll|].
  split; [intros; apply lock_free_cb|].
  intros fuel. unfold pa_asyncmsgq_free.
  apply lock_free_bind; [apply lock_free_free_loop|intros _].
  do 2 (apply lock_free_bind; [solve_lock_free|intros _]). solve_lock_free.
Qed.

End MutexProperties.

(** ** A send without the consumer, and the reuse of records *)

Section SendAndPool.
Context {Q E : Type} `{!AsyncQ Q} `{!Users E}.
Implicit Types w : world Q E.

(** [pa_asyncmsgq_send] while the writer mutex is held: the caller is
    suspended in [pa_mutex_lock], with its record filled in and its
    semaphore made. *)
Lemma send_mutex_held object code userdata offset chunk w :
  mutex (msgq w) = true →
  pa_asyncmsgq_send object code userdata offset chunk w =
    if match chunk with Some c => nonnull (Chunk.memblock c) | None => true end
    then
      Blocks
        (Build_world (msgq w)
           (<[fresh (dom (items w)) :=
                Item.Mk code object userdata None offset
                  (default pa_memchunk_reset chunk)
                  (Some (fresh (dom (semaphores w)))) (-1)]> (items w))
           (flist w) (msgobject_refs w) (memblock_refs w)
           (<[fresh (dom (semaphores w)) := 0%nat]> (semaphores w)) (env w)
           (trace w ++ [EvSemaphoreNew (fresh (dom (semaphores w)))]))
    else AssertFails.
Proof.
  intros Hm.
  destruct w as [[q m cur] its fl orefs brefs sems e tr]; simpl in *. subst m.
  unfold pa_asyncmsgq_send, pa_asyncmsgq_send_push. unfold_prims. simpl.
  destruct chunk as [c|]; simpl;
    [destruct (Chunk.memblock c) as [b|] eqn:Hb; simpl|];
    repeat (rewrite ?lookup_insert_eq, ?insert_insert_eq; simpl);
    reflexivity.
Qed.

(** X2.  [pa_asyncmsgq_send] does not return unless another thread
    completes its item.  Run with no other thread, it never returns a
    value: it fails an assertion when the chunk has no block or the push
    reports failure, and otherwise leaves its caller suspended, at the
    mutex, in the push, or in the wait on its semaphore with the item
    pushed.  Wherever the caller is suspended, its record holds the
    arguments, no releaser and the answer -1, its semaphore is at 0, and
    the reference counts are untouched. *)
Theorem send_needs_the_consumer object code userdata offset chunk w :
  let i := fresh (dom (items w)) in
  let s := fresh (dom (semaphores w)) in
  match pa_asyncmsgq_send object code userdata offset chunk w with
  | Returns _ _ => False
  | AssertFails =>
      (∃ c, chunk = Some c ∧ Chunk.memblock c = None)
      ∨ (mutex (msgq w) = false
         ∧ ∃ r q', pa_asyncq_push (asyncq (msgq w)) i true = Some (r, q') ∧ r ≠ 0)
  | Blocks w' =>
      items w' !! i = Some (Item.Mk code object userdata None offset
                              (default pa_memchunk_reset chunk) (Some s) (-1))
      ∧ semaphores w' !! s = Some 0%nat
      ∧ msgobject_refs w' = msgobject_refs w
      ∧ memblock_refs w' = memblock_refs w
      ∧ current (msgq w') = current (msgq w)
      ∧ ((mutex (msgq w) = true ∧ asyncq (msgq w') = asyncq (msgq w))
         ∨ (mutex (msgq w) = false
            ∧ pa_asyncq_push (asyncq (msgq w)) i true = None
            ∧ asyncq (msgq w') = asyncq (msgq w))
         ∨ (mutex (msgq w) = false
            ∧ pa_asyncq_push (asyncq (msgq w)) i true = Some (0, asyncq (msgq w'))
            ∧ mutex (msgq w') = false
            ∧ trace w' = trace w
                ++ [EvSemaphoreNew s; EvMutexLock; EvPush i true 0; EvMutexUnlock]))
  | Faults | OutOfFuel => False
  end.
Proof.
  intros i s. destruct (mutex (msgq w)) eqn:Hm.
  - rewrite send_mutex_held by exact Hm. fold i s.
    destruct chunk as [c|]; simpl;
      [destruct (Chunk.memblock c) as [b|] eqn:Hb; simpl; [|by eauto]|];
      rewrite !lookup_insert_eq; auto 10.
  - unfold pa_asyncmsgq_send, bind at 1.
    rewrite send_push_outcome by exact Hm. fold i s.
    destruct chunk as [c|]; simpl;
      [destruct (Chunk.memblock c) as [b|] eqn:Hb; simpl; [|by eauto]|];
      (destruct (pa_asyncq_push (asyncq (msgq w)) i true) as [[r q']|] eqn:Hpush;
       [destruct (r =? 0) eqn:Hr;
        [apply Z.eqb_eq in Hr; subst r|apply Z.eqb_neq in Hr; by eauto 10]|]);
      unfold pa_asyncmsgq_send_wait; unfold_prims; simpl;
      repeat (rewrite ?lookup_insert_eq; simpl); auto 15.
Qed.

(** X3.  Completing a posted message and posting the next one recycles
    a record of the pool.  When the pool has room, done on a posted item
    followed by a post fills a record that is the completed one or one
    that was pooled before, and leaves the others in the pool; neither
    call allocates or frees memory.  When the pool was empty, the record
    filled is the one just released.  The statement does not depend on
    which of its records the pool hands out. *)
Theorem done_then_post_reuses_record ret object code userdata offset chunk free_cb
    w c it :
  current (msgq w) = Some c →
  items w !! c = Some it →
  Item.semaphore it = None →
  (∀ p, p ∈ flist_cells (flist w) → is_Some (items w !! p)) →
  (length (flist_cells (flist w)) < flist_size (flist w))%nat →
  mutex (msgq w) = false →
  (∀ m, chunk = Some m → nonnull (Chunk.memblock m) = true) →
  (∀ p, p ∈ c :: flist_cells (flist w) →
     ∃ q', pa_asyncq_push (asyncq (msgq w)) p true = Some (0, q')) →
  ∃ w1 w2 tr p old,
    pa_asyncmsgq_done ret w = Returns tt w1
    ∧ pa_asyncmsgq_post object code userdata offset chunk free_cb w1 = Returns tt w2
    ∧ (p ∈ c :: flist_cells (flist w))
    ∧ items w !! p = Some old
    ∧ items w2 = <[p := Item.Mk code object userdata free_cb offset
                           (default pa_memchunk_reset chunk) None (Item.ret old)]> (items w)
    ∧ p :: flist_cells (flist w2) ≡ₚ c :: flist_cells (flist w)
    ∧ flist_size (flist w2) = flist_size (flist w)
    ∧ pa_asyncq_push (asyncq (msgq w)) p true = Some (0, asyncq (msgq w2))
    ∧ current (msgq w2) = None
    ∧ mutex (msgq w2) = false
    ∧ trace w2 = trace w ++ tr
    ∧ forallb (fun e => negb (is_alloc_call e)) tr = true
    ∧ (flist_cells (flist w) = [] → p = c).
Proof.
  intros Hc Hit Hs _ Hroom Hm Hchunk Hpush.
  destruct (Hpush c ltac:(by left)) as [q' Hq'].
  destruct (done_post_path ret w c it Hc Hit Hs)
    as (w1 & Hdone & Htr & _ & _ & _ & Hcells & Hsize & Hitems & _ & Hq).
  apply Nat.ltb_lt in Hroom. rewrite Hroom in Htr, Hcells, Hitems.
  assert (Hm1 : mutex (msgq w1) = false) by (by rewrite Hq).
  assert (Hold : match head (flist_cells (flist w1)) with
                 | Some p => items w1 !! p
                 | None => Some (indeterminate (env w1))
                 end = Some it) by (by rewrite Hcells, Hitems).
  pose proof (post_outcome object code userdata offset chunk free_cb w1 it Hm1 Hold Hchunk)
    as Hpost.
  rewrite Hcells in Hpost. simpl in Hpost. rewrite Hq in Hpost. simpl in Hpost.
  rewrite Hq' in Hpost. simpl in Hpost.
  eexists w1, _, _, c, it. split; [exact Hdone|]. split; [exact Hpost|]. simpl.
  split; [by left|]. split; [exact Hit|].
  split; [by rewrite Hitems|].
  split; [reflexivity|]. split; [exact Hsize|].
  split; [exact Hq'|]. split; [reflexivity|]. split; [reflexivity|].
  split; [rewrite Htr, <- !app_assoc; reflexivity|].
  split; [|done].
  rewrite !forallb_app.
  destruct (Item.free_cb it), (Item.object it), (Chunk.memblock (Item.memchunk it)),
    object, (chunk ≫= Chunk.memblock); reflexivity.
Qed.

End SendAndPool.

(** ** Round trips on a first-in first-out queue *)

Section FifoRoundTrips.
Context {E : Type} `{!Users E}.
Implicit Types w : world fifo E.

(** X4.  What is posted is what the consumer gets, and completing it
    undoes what the post took.  On an empty queue with room,
    [pa_asyncmsgq_post] followed by [pa_asyncmsgq_get] with all
    out-parameters hands [object], [code], [userdata], [offset] and the
    chunk (the absent chunk if none was given) to the consumer, and
    [pa_asyncmsgq_done] then returns with every reference count as before
    the post, the releaser called once with [userdata] if one was given,
    and the queue empty and idle. *)
Theorem post_get_done_round_trip object code userdata offset chunk free_cb ret w old :
  cells (asyncq (msgq w)) = [] →
  (0 < capacity (asyncq (msgq w)))%nat →
  current (msgq w) = None →
  mutex (msgq w) = false →
  match head (flist_cells (flist w)) with
  | Some p => items w !! p
  | None => Some (indeterminate (env w))
  end = Some old →
  (∀ m, chunk = Some m → nonnull (Chunk.memblock m) = true) →
  (∀ o, object = Some o → 0 ≤ refcnt (msgobject_refs w) o) →
  ∃ w1 w2 w3 tr,
    pa_asyncmsgq_post object code userdata offset chunk free_cb w = Returns tt w1
    ∧ pa_asyncmsgq_get (Some None) (Some 0) (Some None) (Some 0) (Some pa_memchunk_reset)
        false w1 =
      Returns (0, {| out_object := Some object;
                     out_code := Some code;
                     out_userdata := Some userdata;
                     out_offset := Some offset;
                     out_chunk := Some (default pa_memchunk_reset chunk) |}) w2
    ∧ pa_asyncmsgq_done ret w2 = Returns tt w3
    ∧ (∀ o, refcnt (msgobject_refs w3) o = refcnt (msgobject_refs w) o)
    ∧ (∀ b, refcnt (memblock_refs w3) b = refcnt (memblock_refs w) b)
    ∧ trace w3 = trace w ++ tr
    ∧ free_cb_calls tr = match free_cb with Some cb => [(cb, userdata)] | None => [] end
    ∧ env w3 = match free_cb with
               | Some cb => run_free_cb cb userdata (env w)
               | None => env w
               end
    ∧ cells (asyncq (msgq w3)) = []
    ∧ current (msgq w3) = None
    ∧ mutex (msgq w3) = false.
Proof.
  intros Hcells Hcap Hcur Hm Hold Hchunk Href.
  pose proof (post_outcome object code userdata offset chunk free_cb w old Hm Hold Hchunk)
    as Hpost.
  simpl in Hpost. unfold fifo_push in Hpost. rewrite Hcells in Hpost. simpl in Hpost.
  apply Nat.ltb_lt in Hcap. rewrite Hcap in Hpost. simpl in Hpost.
  set (i := default (fresh (dom (items w))) (head (flist_cells (flist w)))) in *.
  set (it := Item.Mk code object userdata free_cb offset (default pa_memchunk_reset chunk)
               None (Item.ret old)) in *.
  match type of Hpost with _ = Returns tt ?v => set (w1 := v) in * end.
  assert (Hget : pa_asyncmsgq_get (Some None) (Some 0) (Some None) (Some 0)
                   (Some pa_memchunk_reset) false w1 =
                 Returns (0, {| out_object := Some object;
                                out_code := Some code;
                                out_userdata := Some userdata;
                                out_offset := Some offset;
                                out_chunk := Some (default pa_memchunk_reset chunk) |})
                   (log (EvPop false (Some i))
                      (set_msgq (set_current (Some i)
                         (set_asyncq {| cells := []; capacity := capacity (asyncq (msgq w));
                                        fd := fd (asyncq (msgq w)) |} (msgq w1))) w1))).
  { apply (get_item (Some None) 0 (Some None) (Some 0) (Some pa_memchunk_reset) false
             w1 i _ it).
    - subst w1. simpl. exact Hcur.
    - reflexivity.
    - subst w1. simpl. by rewrite lookup_insert_eq.
    - intros _ o Ho. subst w1 it. simpl in *. subst object.
      rewrite refcnt_insert, bool_decide_eq_true_2 by done.
      specialize (Href o eq_refl). lia. }
  match type of Hget with _ = Returns _ ?v => set (w2 := v) in * end.
  destruct (done_post_path ret w2 i it) as (w3 & Hdone & Htr & Henv & Horefs & Hbrefs & _
                                             & _ & _ & _ & Hq).
  { reflexivity. }
  { subst w2 w1. simpl. by rewrite lookup_insert_eq. }
  { reflexivity. }
  subst it. simpl in Htr, Henv.
  exists w1, w2, w3. eexists.
  split; [exact Hpost|]. split; [exact Hget|]. split; [exact Hdone|].
  split.
  { intros o. rewrite Horefs. subst w2 w1. simpl.
    destruct object as [o'|]; [|reflexivity].
    rewrite !refcnt_insert. repeat case_bool_decide; simplify_eq; lia. }
  split.
  { intros b. rewrite Hbrefs. subst w2 w1. simpl.
    destruct chunk as [m|]; simpl; [|reflexivity].
    destruct (Chunk.memblock m) as [b'|]; simpl; [|reflexivity].
    rewrite !refcnt_insert. repeat case_bool_decide; simplify_eq; lia. }
  split.
  { rewrite Htr. subst w2 w1. simpl. rewrite <- !app_assoc. reflexivity. }
  split.
  { unfold free_cb_calls. rewrite !omap_app.
    destruct (head (flist_cells (flist w))), object, chunk as [[[b|] ix len]|], free_cb;
      simpl;
      match goal with |- context [if ?b then _ else _] => destruct b end;
      reflexivity. }
  split; [rewrite Henv; reflexivity|].
  rewrite Hq. simpl. auto.
Qed.

(** The callback's inner loop on a deliverable queue: every message is
    delivered, in order, and the loop ends at the empty get. *)
Lemma cb_drain_fifo its : ∀ ps w fuel,
  cells (asyncq (msgq w)) = ps →
  current (msgq w) = None →
  deliverable w ps its →
  (length its < fuel)%nat →
  ∃ w' tr,
    asyncmsgq_cb_drain fuel w = Returns tt w'
    ∧ cells (asyncq (msgq w')) = []
    ∧ current (msgq w') = None
    ∧ trace w' = trace w ++ tr ++ [EvPop false None]
    ∧ pops tr = Some <$> ps
    ∧ handler_calls tr = omap message_call its.
Proof.
  induction its as [|it its IH]; intros ps w fuel Hcells Hcur Hdel Hfuel;
    (destruct fuel as [|fuel]; [simpl in Hfuel; lia|]).
  - destruct Hdel as (_ & Hits & _). apply Forall2_nil_inv_r in Hits as ->.
    cbn [asyncmsgq_cb_drain]. unfold bind, get_into_locals, locals.
    cbn [out_object out_code out_userdata out_offset out_chunk].
    erewrite get_empty; [|exact Hcur|simpl; unfold fifo_pop; rewrite Hcells; reflexivity].
    simpl. eexists _, []. split; [reflexivity|]. simpl.
    destruct w as [[[cs cap f] m cur] ? ? ? ? ? ? ?]; simpl in *. subst. done.
  - destruct ps as [|p ps];
      [destruct Hdel as (_ & Hits & _); by apply Forall2_nil_inv_l in Hits|].
    destruct (deliverable_round w false p ps _ _ Hcells Hcur Hdel)
      as (rl & w1 & ret & w2 & w3 & tr & Hget & Hr & Hout & Hdispatch & Hdone & Hcells3
          & Hcur3 & Htr & Hpops & Hcalls & Hdel3).
    cbn [asyncmsgq_cb_drain]. unfold bind at 1. rewrite Hget, Hr. simpl.
    unfold bind at 1. rewrite Hdispatch. unfold bind at 1. rewrite Hdone.
    destruct (IH ps w3 fuel Hcells3 Hcur3 Hdel3 ltac:(simpl in Hfuel; lia))
      as (w' & tr' & Hrun & Hcells' & Hcur' & Htr' & Hpops' & Hcalls').
    exists w', (tr ++ tr'). split; [exact Hrun|]. split; [exact Hcells'|].
    split; [exact Hcur'|].
    split; [rewrite Htr', Htr, <- !app_assoc; reflexivity|].
    split; [unfold pops in *; rewrite omap_app, Hpops, Hpops'; reflexivity|].
    unfold handler_calls in *. rewrite omap_app, Hcalls, Hcalls'.
    simpl. by destruct (message_call it).
Qed.

(** X5.  The readiness callback empties the queue.  Called with the
    queue's descriptor and the input event on a queue of deliverable
    messages, and with no producer running meanwhile, [asyncmsgq_cb]
    returns: after [after_poll] every queued message was popped and
    handed to its handler once, in queue order, the get that found the
    queue empty ended the loop, and the one [before_poll] returned 0.  The
    queue is then empty, idle and armed. *)
Theorem asyncmsgq_cb_drains_fifo w ps its fuel :
  cells (asyncq (msgq w)) = ps →
  current (msgq w) = None →
  deliverable w ps its →
  (length its + 1 < fuel)%nat →
  ∃ w' tr,
    asyncmsgq_cb fuel (fd (asyncq (msgq w))) PA_IO_EVENT_INPUT w = Returns tt w'
    ∧ cells (asyncq (msgq w')) = []
    ∧ current (msgq w') = None
    ∧ trace w' = trace w ++ EvAfterPoll :: tr ++ [EvPop false None; EvBeforePoll 0]
    ∧ pops tr = Some <$> ps
    ∧ handler_calls tr = omap message_call its.
Proof.
  intros Hcells Hcur Hdel Hfuel.
  destruct fuel as [|fuel]; [lia|].
  set (w1 := log EvAfterPoll w).
  destruct (cb_drain_fifo its ps w1 fuel) as (w2 & tr & Hrun & Hcells2 & Hcur2 & Htr & Hpops
                                              & Hcalls).
  { exact Hcells. } { exact Hcur. } { exact Hdel. } { lia. }
  assert (Hw1 : pa_asyncmsgq_after_poll w = Returns tt w1).
  { unfold pa_asyncmsgq_after_poll, asyncq_after_poll. subst w1. simpl.
    by destruct w as [[] ? ? ? ? ? ? ?]. }
  unfold asyncmsgq_cb, pa_asyncmsgq_get_fd.
  unfold bind at 1. unfold asyncq_get_fd.
  unfold bind at 1. unfold pa_assert. simpl pa_asyncq_get_fd. rewrite Z.eqb_refl.
  unfold bind at 1. rewrite Z.eqb_refl.
  unfold bind at 1. rewrite Hw1.
  cbn [asyncmsgq_cb_loop]. unfold bind at 1.
  rewrite Hrun.
  unfold pa_asyncmsgq_before_poll, bind, asyncq_before_poll. simpl.
  unfold fifo_before_poll. rewrite Hcells2. simpl.
  eexists _, tr. split; [reflexivity|]. simpl.
  split; [exact Hcells2|]. split; [exact Hcur2|].
  split; [rewrite Htr; subst w1; simpl; rewrite <- !app_assoc; reflexivity|].
  auto.
Qed.

End FifoRoundTrips.

(** ** References and records over all interleavings *)

Section SystemAccounts.
Context {E : Type} `{!Users E}.
Implicit Types w : world fifo E.
Implicit Types σ : system E.

Lemma queue_refs_app target o its1 its2 :
  queue_refs target o (its1 ++ its2) = queue_refs target o its1 + queue_refs target o its2.
Proof.
  unfold queue_refs. rewrite List.filter_app, length_app. lia.
Qed.

Lemma queue_refs_nil target o : queue_refs target o [] = 0.
Proof. reflexivity. Qed.

Lemma queue_refs_one target o it :
  queue_refs target o [it] =
    if negb (nonnull (Item.semaphore it)) && bool_decide (target it = Some o) then 1 else 0.
Proof. unfold queue_refs. simpl. by destruct (_ && _). Qed.

Lemma omap_lookup_insert (m : gmap ptr asyncmsgq_item) i x (ps : list ptr) :
  i ∉ ps → omap (fun p => <[i := x]> m !! p) ps = omap (fun p => m !! p) ps.
Proof.
  induction ps as [|p ps IH]; [done|]. intros Hi.
  apply not_elem_of_cons in Hi as [Hne Hi]. simpl.
  rewrite lookup_insert_ne by done. specialize (IH Hi).
  destruct (m !! p); [f_equal|]; exact IH.
Qed.

Lemma omap_lookup_delete (m : gmap ptr asyncmsgq_item) i (ps : list ptr) :
  i ∉ ps → omap (fun p => delete i m !! p) ps = omap (fun p => m !! p) ps.
Proof.
  induction ps as [|p ps IH]; [done|]. intros Hi.
  apply not_elem_of_cons in Hi as [Hne Hi]. simpl.
  rewrite lookup_delete_ne by done. specialize (IH Hi).
  destruct (m !! p); [f_equal|]; exact IH.
Qed.

(** What a post that returns has done, with the counts. *)
Lemma post_effect_refs object code userdata offset chunk free_cb w w' :
  mutex (msgq w) = false →
  (∀ p, head (flist_cells (flist w)) = Some p → is_Some (items w !! p)) →
  pa_asyncmsgq_post object code userdata offset chunk free_cb w = Returns tt w' →
  ∃ rec,
    let i := default (fresh (dom (items w))) (head (flist_cells (flist w))) in
    Item.semaphore rec = None
    ∧ Item.object rec = object
    ∧ Chunk.memblock (Item.memchunk rec) = chunk ≫= Chunk.memblock
    ∧ items w' = <[i := rec]> (items w)
    ∧ cells (asyncq (msgq w')) = cells (asyncq (msgq w)) ++ [i]
    ∧ current (msgq w') = current (msgq w)
    ∧ msgobject_refs w' =
        match object with
        | Some o => <[o := refcnt (msgobject_refs w) o + 1]> (msgobject_refs w)
        | None => msgobject_refs w
        end
    ∧ memblock_refs w' =
        match chunk ≫= Chunk.memblock with
        | Some b => <[b := refcnt (memblock_refs w) b + 1]> (memblock_refs w)
        | None => memblock_refs w
        end.
Proof.
  intros Hm Hhead Hrun.
  assert (∃ old, match head (flist_cells (flist w)) with
                 | Some p => items w !! p
                 | None => Some (indeterminate (env w))
                 end = Some old) as [old Hold].
  { destruct (head (flist_cells (flist w))) as [p|]; [|eauto].
    destruct (Hhead p eq_refl) as [old Hold]. eauto. }
  destruct (match chunk with Some c => nonnull (Chunk.memblock c) | None => true end)
    eqn:Hchunk.
  - assert (Hc : ∀ c, chunk = Some c → nonnull (Chunk.memblock c) = true)
      by (intros c ->; exact Hchunk).
    rewrite (post_outcome object code userdata offset chunk free_cb w old Hm Hold Hc)
      in Hrun.
    simpl in Hrun. unfold fifo_push in Hrun.
    destruct (length (cells (asyncq (msgq w))) <? capacity (asyncq (msgq w)))%nat;
      [|discriminate].
    simpl in Hrun. injection Hrun as <-.
    exists (Item.Mk code object userdata free_cb offset (default pa_memchunk_reset chunk)
              None (Item.ret old)).
    simpl. split; [reflexivity|]. split; [reflexivity|].
    split; [by destruct chunk|]. auto 10.
  - destruct chunk as [c|]; [|discriminate].
    rewrite (post_asserts_block object code userdata offset c free_cb w old Hold) in Hrun;
      [discriminate|].
    destruct (Chunk.memblock c); [discriminate|reflexivity].
Qed.

Lemma send_push_refs object code userdata offset chunk w i w' :
  mutex (msgq w) = false →
  pa_asyncmsgq_send_push object code userdata offset chunk w = Returns i w' →
  msgobject_refs w' = msgobject_refs w ∧ memblock_refs w' = memblock_refs w.
Proof.
  intros Hm Hrun. rewrite send_push_outcome in Hrun by exact Hm.
  destruct (match chunk with Some c => nonnull (Chunk.memblock c) | None => true end);
    [|discriminate].
  simpl in Hrun. unfold fifo_push in Hrun.
  destruct (length (cells (asyncq (msgq w))) <? capacity (asyncq (msgq w)))%nat;
    [|discriminate].
  simpl in Hrun. by injection Hrun as <- <-.
Qed.

Lemma get_refs object code userdata offset chunk wait w rl w' :
  pa_asyncmsgq_get object code userdata offset chunk wait w = Returns rl w' →
  msgobject_refs w' = msgobject_refs w ∧ memblock_refs w' = memblock_refs w.
Proof.
  unfold pa_asyncmsgq_get. unfold_prims. unfold pa_assert, pure. intros Hrun.
  repeat case_match; simplify_eq; done.
Qed.

Lemma done_refs ret w c it w' :
  current (msgq w) = Some c →
  items w !! c = Some it →
  pa_asyncmsgq_done ret w = Returns tt w' →
  (∀ o, refcnt (msgobject_refs w') o =
        refcnt (msgobject_refs w) o - queue_refs Item.object o [it])
  ∧ (∀ b, refcnt (memblock_refs w') b =
          refcnt (memblock_refs w) b
          - queue_refs (fun it => Chunk.memblock (Item.memchunk it)) b [it]).
Proof.
  intros Hc Hit Hrun.
  destruct (Item.semaphore it) as [s|] eqn:Hs.
  - destruct (semaphores w !! s) as [n|] eqn:Hn.
    + rewrite (done_send_path ret w c it s n Hc Hit Hs Hn) in Hrun.
      injection Hrun as <-.
      split; intros x; rewrite queue_refs_one, Hs; simpl; lia.
    + exfalso. revert Hrun. unfold pa_asyncmsgq_done. unfold_prims.
      rewrite Hc. simpl. rewrite Hit. simpl. rewrite Hs. simpl. rewrite Hit. simpl.
      rewrite Hn. discriminate.
  - destruct (done_post_path ret w c it Hc Hit Hs)
      as (w1 & Hrun1 & _ & _ & Horefs & Hbrefs & _).
    rewrite Hrun1 in Hrun. injection Hrun as <-.
    split; intros x; rewrite queue_refs_one, Hs; cbn [nonnull negb andb].
    + rewrite Horefs. destruct (Item.object it) as [o'|].
      * rewrite refcnt_insert. repeat case_bool_decide; simplify_eq; lia.
      * rewrite bool_decide_eq_false_2 by done. lia.
    + rewrite Hbrefs. destruct (Chunk.memblock (Item.memchunk it)) as [b'|].
      * rewrite refcnt_insert. repeat case_bool_decide; simplify_eq; lia.
      * rewrite bool_decide_eq_false_2 by done. lia.
Qed.

End SystemAccounts.

Section SystemAccountsSteps.
Context {E : Type} `{!Users E}.
Implicit Types w : world fifo E.
Implicit Types σ : system E.

Lemma held_split w :
  held w = omap (fun p => items w !! p) (cells (asyncq (msgq w)))
           ++ omap (fun p => items w !! p) (option_list (current (msgq w))).
Proof. unfold held. by rewrite omap_app. Qed.

(** The record a post fills is not queued and not in flight. *)
Lemma post_record_apart σ :
  sys_inv σ →
  default (fresh (dom (items (sys_world σ)))) (head (flist_cells (flist (sys_world σ))))
    ∉ cells (asyncq (msgq (sys_world σ))) ++ option_list (current (msgq (sys_world σ))).
Proof.
  intros [_ Hnodup Halloc _ _ _ _]. unfold owned in Hnodup, Halloc.
  destruct (flist_cells (flist (sys_world σ))) as [|p fl]; simpl.
  - rewrite app_nil_r in Halloc. intros Hin.
    apply Halloc, elem_of_dom in Hin. by apply is_fresh in Hin.
  - rewrite app_assoc in Hnodup. apply NoDup_app in Hnodup as (_ & Hapart & _).
    intros Hin. apply (Hapart p Hin). by left.
Qed.

(** A record at a fresh address is not queued and not in flight. *)
Lemma fresh_record_apart σ :
  sys_inv σ →
  fresh (dom (items (sys_world σ)))
    ∉ cells (asyncq (msgq (sys_world σ))) ++ option_list (current (msgq (sys_world σ))).
Proof.
  intros [_ _ Halloc _ _ _ _]. unfold owned in Halloc. intros Hin.
  assert (Hown : fresh (dom (items (sys_world σ)))
                 ∈ cells (asyncq (msgq (sys_world σ)))
                   ++ option_list (current (msgq (sys_world σ)))
                   ++ flist_cells (flist (sys_world σ)))
    by (rewrite app_assoc; apply elem_of_app; by left).
  apply Halloc, elem_of_dom in Hown. by apply is_fresh in Hown.
Qed.

(** The item in flight is not queued. *)
Lemma current_apart σ c :
  sys_inv σ → current (msgq (sys_world σ)) = Some c → c ∉ cells (asyncq (msgq (sys_world σ))).
Proof.
  intros [_ Hnodup _ _ _ _ _] Hc. unfold owned in Hnodup. rewrite Hc in Hnodup.
  apply NoDup_app in Hnodup as (_ & Hapart & _).
  intros Hin. apply (Hapart c Hin). simpl. by left.
Qed.

Lemma step_balanced w0 c σ σ' :
  sys_inv σ →
  refs_balanced w0 (sys_world σ) →
  step c σ = Some σ' →
  refs_balanced w0 (sys_world σ').
Proof.
  intros Hinv [Horefs Hbrefs] Hstep.
  pose proof Hinv as [Hmutex Hnodup Halloc Hsenders Hsems Hunshared Hhistory].
  destruct c as [object code userdata offset chunk free_cb
                |t object code userdata offset chunk|t
                |object code userdata offset chunk wait|ret]; simpl in Hstep.
  - destruct (pa_asyncmsgq_post _ _ _ _ _ _ _) as [[] w'| | | |] eqn:Hrun;
      try discriminate.
    injection Hstep as <-. simpl.
    pose proof (post_record_apart σ Hinv) as Hi.
    apply post_effect_refs in Hrun
      as (rec & Hsem & Hobj & Hblk & Hitems & Hcells & Hcur & Ho & Hb); [|exact Hmutex|].
    2:{ intros p Hp. apply Halloc. unfold owned.
        destruct (flist_cells (flist (sys_world σ))) as [|p' fl]; [discriminate|].
        injection Hp as ->. set_solver. }
    set (i := default (fresh (dom (items (sys_world σ)))) (head (flist_cells (flist (sys_world σ))))) in *.
    apply not_elem_of_app in Hi as [Hi1 Hi2].
    assert (Hheld : held w' = omap (fun p => items (sys_world σ) !! p) (cells (asyncq (msgq (sys_world σ))))
                              ++ [rec]
                              ++ omap (fun p => items (sys_world σ) !! p)
                                   (option_list (current (msgq (sys_world σ))))).
    { rewrite held_split, Hcells, Hcur, Hitems, omap_app, <- app_assoc. simpl.
      rewrite lookup_insert_eq, !omap_lookup_insert by done. reflexivity. }
    split; intros x; rewrite Hheld, !queue_refs_app, queue_refs_one, Hsem;
      cbn [nonnull negb andb].
    + specialize (Horefs x). rewrite held_split, queue_refs_app in Horefs.
      rewrite Ho, Hobj. destruct object as [o|].
      * rewrite refcnt_insert. repeat case_bool_decide; simplify_eq; lia.
      * rewrite bool_decide_eq_false_2 by done. lia.
    + specialize (Hbrefs x). rewrite held_split, queue_refs_app in Hbrefs.
      rewrite Hb, Hblk. destruct (chunk ≫= Chunk.memblock) as [b|].
      * rewrite refcnt_insert. repeat case_bool_decide; simplify_eq; lia.
      * rewrite bool_decide_eq_false_2 by done. lia.
  - destruct (waiting σ !! t); [discriminate|].
    destruct (pa_asyncmsgq_send_push _ _ _ _ _ _) as [i w'| | | |] eqn:Hrun;
      try discriminate.
    injection Hstep as <-. simpl.
    pose proof (fresh_record_apart σ Hinv) as Hi.
    pose proof (send_push_refs _ _ _ _ _ _ _ _ Hmutex Hrun) as [Ho Hb].
    apply send_push_effect in Hrun
      as (rec & -> & Hsem & Hitems & _ & Hcells & Hcur & _); [|exact Hmutex].
    apply not_elem_of_app in Hi as [Hi1 Hi2].
    assert (Hheld : held w' = omap (fun p => items (sys_world σ) !! p) (cells (asyncq (msgq (sys_world σ))))
                              ++ [rec]
                              ++ omap (fun p => items (sys_world σ) !! p)
                                   (option_list (current (msgq (sys_world σ))))).
    { rewrite held_split, Hcells, Hcur, Hitems, omap_app, <- app_assoc. simpl.
      rewrite lookup_insert_eq, !omap_lookup_insert by done. reflexivity. }
    split; intros x; rewrite Hheld, !queue_refs_app, queue_refs_one, Hsem;
      cbn [nonnull negb andb].
    + specialize (Horefs x). rewrite held_split, queue_refs_app in Horefs.
      rewrite Ho. lia.
    + specialize (Hbrefs x). rewrite held_split, queue_refs_app in Hbrefs.
      rewrite Hb. lia.
  - destruct (waiting σ !! t) as [i|] eqn:Ht; [|discriminate].
    destruct (Hsenders t i Ht) as (it & s & n & hw & ha & Hit & Hs & Hn & _ & _ & _ & Hstate).
   
    rewrite (send_wait_outcome (sys_world σ) i it s n Hit Hs Hn) in Hstep.
    destruct n as [|n]; [discriminate|].
    injection Hstep as <-. simpl.
    destruct Hstate as [[Hz _]|(Hq & Hcur & _)]; [discriminate|].
    assert (Hheld : held (Build_world (msgq (sys_world σ)) (delete i (items (sys_world σ))) (flist (sys_world σ))
                            (msgobject_refs (sys_world σ)) (memblock_refs (sys_world σ))
                            (delete s (semaphores (sys_world σ))) (env (sys_world σ))
                            (trace (sys_world σ) ++ [EvSemaphoreWait s; EvSemaphoreFree s]))
                    = held (sys_world σ)).
    { unfold held. simpl. apply omap_lookup_delete.
      apply not_elem_of_app. split; [exact Hq|].
      destruct (current (msgq (sys_world σ))) as [c'|]; simpl; [|apply not_elem_of_nil].
      intros ->%list_elem_of_singleton. done. }
    split; intros x; rewrite Hheld; simpl; auto.
  - destruct (pa_asyncmsgq_get _ _ _ _ _ _ _) as [rl w'| | | |] eqn:Hrun;
      try discriminate.
    injection Hstep as <-. simpl.
    pose proof (get_refs _ _ _ _ _ _ _ _ _ Hrun) as [Ho Hb].
    apply get_effect in Hrun as (Hcur & Hitems & _ & _ & _ & Hq).
    assert (Hheld : ∀ target x, queue_refs target x (held w')
                                = queue_refs target x (held (sys_world σ))).
    { intros target x. rewrite !held_split, Hitems, Hcur.
      destruct Hq as [(Hc1 & Hc2 & Hc3)|(c & Hc1 & Hc2)].
      - by rewrite Hc1, Hc2, Hc3.
      - rewrite Hc1, Hc2. change (c :: cells (asyncq (msgq w')))
          with ([c] ++ cells (asyncq (msgq w'))).
        rewrite omap_app, !queue_refs_app. simpl option_list.
        cbn [omap list_omap]. rewrite queue_refs_nil. lia. }
    split; intros x; rewrite Hheld; [rewrite Ho|rewrite Hb]; auto.
  - destruct (current (msgq (sys_world σ))) as [c|] eqn:Hc; [|discriminate].
    destruct (pa_asyncmsgq_done _ _) as [[] w'| | | |] eqn:Hrun; try discriminate.
    injection Hstep as <-. simpl.
    assert (is_Some (items (sys_world σ) !! c)) as [it Hit].
    { apply Halloc. unfold owned. rewrite Hc. set_solver. }
    pose proof (current_apart σ c Hinv Hc) as Hapart.
    pose proof (done_refs ret (sys_world σ) c it w' Hc Hit Hrun) as [Ho Hb].
    apply (done_effect ret (sys_world σ) c it w' Hc Hit) in Hrun as (Hcells & Hcur & _ & Hfate).
    assert (Hheld : held w' = omap (fun p => items (sys_world σ) !! p) (cells (asyncq (msgq (sys_world σ))))).
    { rewrite held_split, Hcells, Hcur. simpl. rewrite app_nil_r.
      destruct (Item.semaphore it) as [s|].
      - destruct Hfate as (n & _ & -> & _). by apply omap_lookup_insert.
      - destruct Hfate as (_ & [(_ & ->)|(_ & ->)]); [done|by apply omap_lookup_delete]. }
    assert (Hold : held (sys_world σ) = omap (fun p => items (sys_world σ) !! p) (cells (asyncq (msgq (sys_world σ)))) ++ [it]).
    { rewrite held_split, Hc. simpl. by rewrite Hit. }
    split; intros x; rewrite Hheld.
    + specialize (Horefs x). rewrite Hold, queue_refs_app in Horefs. rewrite Ho. lia.
    + specialize (Hbrefs x). rewrite Hold, queue_refs_app in Hbrefs. rewrite Hb. lia.
Qed.

Lemma run_balanced w0 cs : ∀ σ σ',
  sys_inv σ → refs_balanced w0 (sys_world σ) → run cs σ = Some σ' →
  refs_balanced w0 (sys_world σ').
Proof.
  induction cs as [|c cs IH]; intros σ σ' Hinv Hbal Hrun; simpl in Hrun.
  - by injection Hrun as <-.
  - destruct (step c σ) as [σ1|] eqn:Hstep; [|discriminate].
    eapply IH; [by eapply step_inv| |exact Hrun]. by eapply step_balanced.
Qed.

(** X6.  The queue's references are exactly those of the posted
    messages it holds.  Through any interleaving of posts, sends, gets
    and completions on a new queue, the count of every message target and
    of every memory block stands above its initial value by the number of
    posted messages, queued or in flight, that name it: a post takes one
    reference, the completion of a posted message gives it back, and a
    sent message holds none. *)
Theorem queue_references_are_balanced cs σ0 σ :
  initial σ0 →
  run cs σ0 = Some σ →
  refs_balanced (sys_world σ0) (sys_world σ).
Proof.
  intros Hinit Hrun.
  eapply run_balanced; [by apply initial_inv| |exact Hrun].
  destruct Hinit as (Hcells & _ & Hcur & _).
  unfold refs_balanced, held. rewrite Hcells, Hcur. simpl.
  split; intros x; rewrite queue_refs_nil; lia.
Qed.

End SystemAccountsSteps.

Section SystemRecords.
Context {E : Type} `{!Users E}.
Implicit Types σ : system E.

Lemma step_no_stray c σ σ' :
  sys_inv σ → no_stray_record σ → step c σ = Some σ' → no_stray_record σ'.
Proof.
  intros Hinv Hstray Hstep.
  pose proof Hinv as [Hmutex Hnodup Halloc Hsenders Hsems Hunshared Hhistory].
  destruct c as [object code userdata offset chunk free_cb
                |t object code userdata offset chunk|t
                |object code userdata offset chunk wait|ret]; simpl in Hstep.
  - destruct (pa_asyncmsgq_post _ _ _ _ _ _ _) as [[] w'| | | |] eqn:Hrun;
      try discriminate.
    injection Hstep as <-.
    apply post_effect in Hrun as (rec & _ & Hitems & Hcells & Hcur & _ & Hfl & _);
      [|exact Hmutex|].
    2:{ intros p Hp. apply Halloc. unfold owned.
        destruct (flist_cells (flist (sys_world σ))) as [|p' fl]; [discriminate|].
        injection Hp as ->. set_solver. }
    intros p. unfold owned. simpl. rewrite Hitems, Hcells, Hcur, Hfl.
    set (i := default (fresh (dom (items (sys_world σ))))
                (head (flist_cells (flist (sys_world σ))))) in *.
    destruct (decide (p = i)) as [->|Hne]; [intros _; left; set_solver|].
    rewrite lookup_insert_ne by done. intros Hp.
    destruct (Hstray p Hp) as [Hown|Hwait]; [left|by right].
    unfold owned in Hown. subst i.
    destruct (flist_cells (flist (sys_world σ))) as [|p' fl]; simpl in *; set_solver.
  - destruct (waiting σ !! t) eqn:Ht; [discriminate|].
    destruct (pa_asyncmsgq_send_push _ _ _ _ _ _) as [i w'| | | |] eqn:Hrun;
      try discriminate.
    injection Hstep as <-.
    apply send_push_effect in Hrun
      as (rec & -> & _ & Hitems & _ & Hcells & Hcur & _ & Hfl); [|exact Hmutex].
    intros p. unfold owned. simpl. rewrite Hitems, Hcells, Hcur, Hfl.
    destruct (decide (p = fresh (dom (items (sys_world σ))))) as [->|Hne];
      [intros _; left; set_solver|].
    rewrite lookup_insert_ne by done. intros Hp.
    destruct (Hstray p Hp) as [Hown|[t' Ht']].
    + left. unfold owned in Hown. set_solver.
    + right. exists t'. rewrite lookup_insert_ne; [done|]. intros ->. congruence.
  - destruct (waiting σ !! t) as [i|] eqn:Ht; [|discriminate].
    destruct (Hsenders t i Ht) as (it & s & n & hw & ha & Hit & Hs & Hn & _).
    rewrite (send_wait_outcome (sys_world σ) i it s n Hit Hs Hn) in Hstep.
    destruct n as [|n]; [discriminate|].
    injection Hstep as <-.
    intros p. unfold owned. simpl.
    destruct (decide (p = i)) as [->|Hne];
      [rewrite lookup_delete_eq; by intros [? ?]|].
    rewrite lookup_delete_ne by done. intros Hp.
    destruct (Hstray p Hp) as [Hown|[t' Ht']]; [by left|].
    right. exists t'. rewrite lookup_delete_ne; [done|]. intros ->. congruence.
  - destruct (pa_asyncmsgq_get _ _ _ _ _ _ _) as [rl w'| | | |] eqn:Hrun;
      try discriminate.
    injection Hstep as <-.
    apply get_effect in Hrun as (Hcur & Hitems & _ & Hfl & _ & Hq).
    intros p. unfold owned. simpl. rewrite Hitems, Hfl. intros Hp.
    destruct (Hstray p Hp) as [Hown|Hwait]; [left|by right].
    unfold owned in Hown. rewrite Hcur in Hown.
    destruct Hq as [(Hc1 & Hc2 & Hc3)|(c & Hc1 & Hc2)].
    + by rewrite Hc2, Hc3, <- Hc1.
    + rewrite Hc2. rewrite Hc1 in Hown. set_solver.
  - destruct (current (msgq (sys_world σ))) as [c|] eqn:Hc; [|discriminate].
    destruct (pa_asyncmsgq_done _ _) as [[] w'| | | |] eqn:Hrun; try discriminate.
    injection Hstep as <-.
    assert (is_Some (items (sys_world σ) !! c)) as [it Hit].
    { apply Halloc. unfold owned. rewrite Hc. set_solver. }
    apply (done_effect ret (sys_world σ) c it w' Hc Hit) in Hrun
      as (Hcells & Hcur & _ & Hfate).
    intros p. unfold owned. simpl. rewrite Hcells, Hcur. simpl.
    assert (Hold : ∀ q, q ≠ c → is_Some (items (sys_world σ) !! q) →
              q ∈ cells (asyncq (msgq (sys_world σ))) ++ flist_cells (flist (sys_world σ))
              ∨ ∃ t, waiting σ !! t = Some q).
    { intros q Hq Hsome. destruct (Hstray q Hsome) as [Hown|Hwait]; [left|by right].
      unfold owned in Hown. rewrite Hc in Hown. set_solver. }
    destruct (Item.semaphore it) as [s|] eqn:Hsem.
    + destruct Hfate as (n & _ & -> & _ & ->).
      destruct (decide (p = c)) as [->|Hne].
      * intros _. right. by eapply Hsems.
      * rewrite lookup_insert_ne by done. by apply Hold.
    + destruct Hfate as (_ & [(-> & ->)|(-> & ->)]).
      * destruct (decide (p = c)) as [->|Hne]; [intros _; left; set_solver|].
        intros Hp. destruct (Hold p Hne Hp) as [Hown|Hwait]; [left|by right].
        set_solver.
      * destruct (decide (p = c)) as [->|Hne];
          [rewrite lookup_delete_eq; by intros [? ?]|].
        rewrite lookup_delete_ne by done. by apply Hold.
Qed.

Lemma run_no_stray cs : ∀ σ σ',
  sys_inv σ → no_stray_record σ → run cs σ = Some σ' → no_stray_record σ'.
Proof.
  induction cs as [|c cs IH]; intros σ σ' Hinv Hstray Hrun; simpl in Hrun.
  - by injection Hrun as <-.
  - destruct (step c σ) as [σ1|] eqn:Hstep; [|discriminate].
    eapply IH; [by eapply step_inv| |exact Hrun]. by eapply step_no_stray.
Qed.

(** X7.  No item record is lost and none is used after it is gone.
    Through any interleaving of posts, sends, gets and completions on a
    new queue, the item records in memory are exactly those that are
    queued, in flight or pooled and those in the frames of suspended
    senders: a record the queue allocated is freed or pooled when its
    message is completed, and the record of a send is gone when the send
    has returned. *)
Theorem no_record_is_lost cs σ0 σ :
  initial σ0 →
  run cs σ0 = Some σ →
  ∀ p, is_Some (items (sys_world σ) !! p)
       ↔ p ∈ owned (sys_world σ) ∨ ∃ t, waiting σ !! t = Some p.
Proof.
  intros Hinit Hrun p.
  pose proof (run_inv cs σ0 σ (initial_inv σ0 Hinit) Hrun)
    as [_ _ Halloc Hsenders _ _ _].
  split.
  - eapply run_no_stray; [by apply initial_inv| |exact Hrun].
    destruct Hinit as (_ & _ & _ & _ & Hitems & _).
    intros q. rewrite Hitems, lookup_empty. by intros [? ?].
  - intros [Hown|[t Ht]]; [by apply Halloc|].
    destruct (Hsenders t p Ht) as (it & _ & _ & _ & _ & Hit & _). eauto.
Qed.

End SystemRecords.

(** ** The quit timer of the core *)

Ltac unfold_core :=
  unfold bind, pure, get_core, modify_core, get_outside, note, ask, tell, tell_core,
    on_queue, through, PA_CORE, pa_core_assert_ref, add_seconds, pa_assert in *.

Section QuitTimer.
Context {Q E X : Type} `{!AsyncQ Q} `{!AsyncQNew Q} `{!Users E} `{!Collaborators X}.
Implicit Types w : core_world Q E X.

Lemma pending_timers_snoc l e :
  pending_timers (l ++ [e]) = timer_call (pending_timers l) e.
Proof. unfold pending_timers. by rewrite foldl_app. Qed.

(** The three ways [pa_core_check_quit] can go. *)
Lemma check_quit_arms w m :
  Core.quit_event (core w) = None →
  0 ≤ Core.exit_idle_time (core w) →
  pa_idxset_size (Core.clients (core w)) (outside w) = 0%N →
  Core.mainloop (core w) = Some m →
  let now := pa_gettimeofday (outside w) in
  let tv := Timeval.Mk (Timeval.tv_sec now.1 + Core.exit_idle_time (core w))
              (Timeval.tv_usec now.1) in
  let ex := time_new m tv fn_quit_callback now.2 in
  pa_core_check_quit w =
    if Timeval.tv_sec now.1 + Core.exit_idle_time (core w) <=? TIME_T_MAX
    then Returns tt
           (Build_core_world (Core.set_quit_event ex.1 (core w)) (self w) (queue w) ex.2
              (core_log w ++ [CallGettimeofday now.1; CallTimeNew m tv fn_quit_callback ex.1]))
    else Faults.
Proof.
  intros Hq Hidle Hn Hm now tv ex. subst now tv ex.
  destruct w as [c s q x l]. simpl in *.
  unfold pa_core_check_quit. unfold_core. simpl.
  rewrite Hq, Hn, Hm. simpl.
  replace (0 <=? Core.exit_idle_time c) with true by (symmetry; by apply Z.leb_le).
  simpl.
  destruct (_ <=? TIME_T_MAX); [|reflexivity].
  simpl. rewrite ?Hm, <- app_assoc. reflexivity.
Qed.

Lemma check_quit_disarms w m t :
  Core.quit_event (core w) = Some t →
  (0 < pa_idxset_size (Core.clients (core w)) (outside w))%N →
  Core.mainloop (core w) = Some m →
  pa_core_check_quit w =
    Returns tt
      (Build_core_world (Core.set_quit_event None (core w)) (self w) (queue w)
         (time_free m (Some t) (outside w))
         (core_log w ++ [CallTimeFree m (Some t)])).
Proof.
  intros Hq Hn Hm.
  destruct w as [c s q x l]. simpl in *.
  unfold pa_core_check_quit. unfold_core. simpl.
  rewrite Hq, Hm. simpl.
  replace (0 <? pa_idxset_size (Core.clients c) x)%N with true
    by (symmetry; by apply N.ltb_lt).
  simpl. rewrite ?Hm. reflexivity.
Qed.

Lemma check_quit_settled w :
  settled w → pa_core_check_quit w = Returns tt w.
Proof.
  unfold settled, pa_core_check_quit. unfold_core. simpl.
  destruct (Core.quit_event (core w)) as [t|]; simpl.
  - intros ->. reflexivity.
  - intros [Hidle|Hn].
    + replace (0 <=? Core.exit_idle_time (core w)) with false
        by (symmetry; apply Z.leb_gt; lia).
      reflexivity.
    + replace (pa_idxset_size (Core.clients (core w)) (outside w) =? 0)%N with false
        by (symmetry; by apply N.eqb_neq).
      by rewrite andb_false_r.
Qed.

(** A state is settled, or the timer is to be armed, or it is to be
    freed. *)
Lemma check_quit_cases w :
  settled w
  ∨ (Core.quit_event (core w) = None ∧ 0 ≤ Core.exit_idle_time (core w)
     ∧ pa_idxset_size (Core.clients (core w)) (outside w) = 0%N)
  ∨ (∃ t, Core.quit_event (core w) = Some t
          ∧ (0 < pa_idxset_size (Core.clients (core w)) (outside w))%N).
Proof.
  unfold settled.
  destruct (Core.quit_event (core w)) as [t|]; simpl.
  - destruct (decide (pa_idxset_size (Core.clients (core w)) (outside w) = 0%N));
      [by left|]. right. right. exists t. split; [done|lia].
  - destruct (decide (Core.exit_idle_time (core w) < 0)); [left; by left|].
    destruct (decide (pa_idxset_size (Core.clients (core w)) (outside w) = 0%N));
      [|left; by right].
    right. left. split; [done|]. split; [lia|done].
Qed.

Lemma longer_log_differs w c x l s q :
  l ≠ [] → Build_core_world c s q x (core_log w ++ l) ≠ w.
Proof.
  intros Hl Heq. apply (f_equal core_log) in Heq. simpl in Heq.
  apply (f_equal length) in Heq. rewrite length_app in Heq.
  destruct l; [done|]. simpl in Heq. lia.
Qed.

(** X8.  [pa_core_check_quit] brings the quit timer in line with the
    clients.  It leaves the state untouched exactly when the state is
    settled: a timer is pending and no client is connected, or no timer
    is pending and a client is connected or the idle time is negative.  A
    call that returns leaves a settled state as far as the collaborators
    it called have not changed the number of clients, unless [time_new]
    returned NULL, in which case no timer is pending and the next call
    tries again.  It returns whenever the main loop is set and the
    deadline fits [time_t]. *)
Theorem check_quit_settles w :
  (pa_core_check_quit w = Returns tt w ↔ settled w)
  ∧ (∀ w', pa_core_check_quit w = Returns tt w' →
       pa_idxset_size (Core.clients (core w')) (outside w')
         = pa_idxset_size (Core.clients (core w)) (outside w) →
       settled w'
       ∨ (Core.quit_event (core w') = None
          ∧ ∃ m tv, last (core_log w') = Some (CallTimeNew m tv fn_quit_callback None)))
  ∧ (is_Some (Core.mainloop (core w)) →
     Timeval.tv_sec (pa_gettimeofday (outside w)).1 + Core.exit_idle_time (core w)
       ≤ TIME_T_MAX →
     ∃ w', pa_core_check_quit w = Returns tt w').
Proof.
  split; [split|split].
  - intros Hrun.
    destruct (check_quit_cases w) as [Hs|[(Hq & Hidle & Hn)|(t & Hq & Hn)]]; [exact Hs| |];
      exfalso; destruct (Core.mainloop (core w)) as [m|] eqn:Hm.
    + rewrite (check_quit_arms w m Hq Hidle Hn Hm) in Hrun.
      destruct (_ <=? TIME_T_MAX); [|discriminate].
      injection Hrun as Hrun. by eapply longer_log_differs in Hrun.
    + revert Hrun. unfold pa_core_check_quit. unfold_core. simpl.
      rewrite Hq, Hn, Hm. simpl.
      replace (0 <=? Core.exit_idle_time (core w)) with true
        by (symmetry; by apply Z.leb_le).
      simpl. destruct (_ <=? TIME_T_MAX); discriminate.
    + rewrite (check_quit_disarms w m t Hq Hn Hm) in Hrun.
      injection Hrun as Hrun. by eapply longer_log_differs in Hrun.
    + revert Hrun. unfold pa_core_check_quit. unfold_core. simpl.
      rewrite Hq, Hm. simpl.
      replace (0 <? pa_idxset_size (Core.clients (core w)) (outside w))%N with true
        by (symmetry; by apply N.ltb_lt).
      discriminate.
  - apply check_quit_settled.
  - intros w' Hrun Hframe.
    destruct (check_quit_cases w) as [Hs|[(Hq & Hidle & Hn)|(t & Hq & Hn)]].
    + rewrite (check_quit_settled w Hs) in Hrun. injection Hrun as <-. by left.
    + destruct (Core.mainloop (core w)) as [m|] eqn:Hm.
      * rewrite (check_quit_arms w m Hq Hidle Hn Hm) in Hrun.
        destruct (_ <=? TIME_T_MAX); [|discriminate].
        injection Hrun as <-. simpl in *.
        unfold settled. simpl.
        destruct (time_new _ _ _ _).1 as [e|] eqn:He; simpl.
        -- left. by rewrite Hframe.
        -- right. split; [reflexivity|]. eexists _, _.
           rewrite last_app. reflexivity.
      * revert Hrun. unfold pa_core_check_quit. unfold_core. simpl.
        rewrite Hq, Hn, Hm. simpl.
        replace (0 <=? Core.exit_idle_time (core w)) with true
          by (symmetry; by apply Z.leb_le).
        simpl. destruct (_ <=? TIME_T_MAX); discriminate.
    + destruct (Core.mainloop (core w)) as [m|] eqn:Hm.
      * rewrite (check_quit_disarms w m t Hq Hn Hm) in Hrun.
        injection Hrun as <-. simpl in *. left.
        unfold settled. simpl. right. rewrite Hframe. lia.
      * revert Hrun. unfold pa_core_check_quit. unfold_core. simpl.
        rewrite Hq, Hm. simpl.
        replace (0 <? pa_idxset_size (Core.clients (core w)) (outside w))%N with true
          by (symmetry; by apply N.ltb_lt).
        discriminate.
  - intros [m Hm] Hfit.
    destruct (check_quit_cases w) as [Hs|[(Hq & Hidle & Hn)|(t & Hq & Hn)]].
    + eexists. by apply check_quit_settled.
    + rewrite (check_quit_arms w m Hq Hidle Hn Hm).
      apply Z.leb_le in Hfit. rewrite Hfit. eauto.
    + rewrite (check_quit_disarms w m t Hq Hn Hm). eauto.
Qed.

End QuitTimer.

Section QuitTimerSessions.
Context {Q E X : Type} `{!AsyncQ Q} `{!AsyncQNew Q} `{!Users E} `{!Collaborators X}.
Implicit Types w : core_world Q E X.

Lemma quit_callback_outcome m e tv w :
  quit_callback (Some m) (Some e) tv w =
    Returns tt
      (Build_core_world (Core.set_quit_event (Some e) (core w)) (self w) (queue w)
         (mainloop_quit m 0 (outside w)) (core_log w ++ [CallQuit m 0])).
Proof. reflexivity. Qed.

Lemma check_quit_accounted w w' :
  timers_accounted w → pa_core_check_quit w = Returns tt w' → timers_accounted w'.
Proof.
  unfold timers_accounted. intros Hacc Hrun.
  destruct (check_quit_cases w) as [Hs|[(Hq & Hidle & Hn)|(t & Hq & Hn)]].
  - rewrite (check_quit_settled w Hs) in Hrun. by injection Hrun as <-.
  - destruct (Core.mainloop (core w)) as [m|] eqn:Hm.
    + rewrite (check_quit_arms w m Hq Hidle Hn Hm) in Hrun.
      destruct (_ <=? TIME_T_MAX); [|discriminate].
      injection Hrun as <-. simpl.
      unfold pending_timers in *. rewrite foldl_app, Hacc, Hq. simpl.
      by destruct (time_new _ _ _ _).1.
    + revert Hrun. unfold pa_core_check_quit. unfold_core. simpl.
      rewrite Hq, Hn, Hm. simpl.
      replace (0 <=? Core.exit_idle_time (core w)) with true
        by (symmetry; by apply Z.leb_le).
      simpl. destruct (_ <=? TIME_T_MAX); discriminate.
  - destruct (Core.mainloop (core w)) as [m|] eqn:Hm.
    + rewrite (check_quit_disarms w m t Hq Hn Hm) in Hrun.
      injection Hrun as <-. simpl.
      rewrite pending_timers_snoc, Hacc, Hq. simpl.
      by rewrite bool_decide_eq_true_2.
    + revert Hrun. unfold pa_core_check_quit. unfold_core. simpl.
      rewrite Hq, Hm. simpl.
      replace (0 <? pa_idxset_size (Core.clients (core w)) (outside w))%N with true
        by (symmetry; by apply N.ltb_lt).
      discriminate.
Qed.

(** X9.  The quit timer is neither leaked nor freed twice.  Through any
    sequence of calls of [pa_core_check_quit], firings of the pending
    timer (the main loop calling [quit_callback] with it) and changes
    made elsewhere to the clients and to the members of the core other
    than [quit_event], the timers that the calls of [time_new] and
    [time_free] so far leave pending are exactly the one stored in
    [c->quit_event], or none when it is NULL, and no timer is freed that
    is not pending. *)
Theorem quit_timer_is_accounted_for ss : ∀ w w',
  timers_accounted w →
  core_session ss w = Returns tt w' →
  timers_accounted w'.
Proof.
  induction ss as [|s ss IH]; intros w w' Hacc Hrun; simpl in Hrun.
  - unfold pure in Hrun. by injection Hrun as <-.
  - apply bind_returns in Hrun as ([] & w1 & Hstep & Hrun).
    eapply IH; [|exact Hrun].
    destruct s as [|m tv|f g]; simpl in Hstep.
    + by eapply check_quit_accounted.
    + destruct (Core.quit_event (core w)) as [e|] eqn:Hq;
        [|by injection Hstep as <-].
      destruct m as [m|]; [|discriminate].
      rewrite quit_callback_outcome in Hstep. injection Hstep as <-.
      unfold timers_accounted in *. simpl.
      by rewrite pending_timers_snoc, Hacc, Hq.
    + injection Hstep as <-. exact Hacc.
Qed.



End QuitTimerSessions.

(** ** The creation and the destruction of the core *)

Section CoreSteps.
Context {Q E X : Type} `{!AsyncQ Q} `{!AsyncQNew Q} `{!Users E} `{!Collaborators X}.
Implicit Types w : core_world Q E X.

(** What one call has done when it returns. *)
Lemma ask_returns {A} (f : X → A * X) (e : A → core_call) w r w' :
  ask f e w = Returns r w' →
  r = (f (outside w)).1 ∧ outside w' = (f (outside w)).2
  ∧ core w' = core w ∧ self w' = self w ∧ queue w' = queue w
  ∧ core_log w' = core_log w ++ [e r].
Proof. unfold ask. intros [= <- <-]. simpl. auto 10. Qed.

Lemma tell_returns (f : X → X) (e : core_call) w r w' :
  tell f e w = Returns r w' →
  outside w' = f (outside w)
  ∧ core w' = core w ∧ self w' = self w ∧ queue w' = queue w
  ∧ core_log w' = core_log w ++ [e].
Proof. unfold tell. intros [= <- <-]. simpl. auto 10. Qed.

Lemma tell_core_returns (f : pa_core → X → pa_core * X) (e : core_call) w r w' :
  tell_core f e w = Returns r w' →
  core w' = (f (core w) (outside w)).1 ∧ outside w' = (f (core w) (outside w)).2
  ∧ self w' = self w ∧ queue w' = queue w
  ∧ core_log w' = core_log w ++ [e].
Proof. unfold tell_core. intros [= <- <-]. simpl. auto 10. Qed.

Lemma note_returns (e : core_call) w r w' :
  note e w = Returns r w' →
  outside w' = outside w ∧ core w' = core w ∧ self w' = self w ∧ queue w' = queue w
  ∧ core_log w' = core_log w ++ [e].
Proof. unfold note. intros [= <- <-]. simpl. auto 10. Qed.

Lemma modify_core_returns (f : pa_core → pa_core) w r w' :
  modify_core f w = Returns r w' →
  core w' = f (core w) ∧ outside w' = outside w ∧ self w' = self w
  ∧ queue w' = queue w ∧ core_log w' = core_log w.
Proof. unfold modify_core. intros [= <- <-]. simpl. auto 10. Qed.

Lemma get_core_returns w c w' :
  get_core w = Returns c w' → c = core w ∧ w' = w.
Proof. unfold get_core. by intros [= <- <-]. Qed.

Lemma get_outside_returns w x w' :
  get_outside w = Returns x w' → x = outside w ∧ w' = w.
Proof. unfold get_outside. by intros [= <- <-]. Qed.

Lemma assert_returns (b : bool) w r w' :
  pa_assert b w = Returns r w' → b = true ∧ w' = w.
Proof. unfold pa_assert. destruct b; [|discriminate]. by intros [= <-]. Qed.

Lemma on_queue_returns {A} (m : M Q E A) (e : A → core_call) w r w' :
  on_queue m e w = Returns r w' →
  m (queue w) = Returns r (queue w')
  ∧ core w' = core w ∧ self w' = self w ∧ outside w' = outside w
  ∧ core_log w' = core_log w ++ [e r].
Proof.
  unfold on_queue. destruct (m (queue w)) as [x q| |q| |]; try discriminate.
  intros [= <- <-]. simpl. auto 10.
Qed.

Lemma through_returns {A} (m : option ptr) (k : ptr → CM Q E X A) w r w' :
  through m k w = Returns r w' → ∃ ml, m = Some ml ∧ k ml w = Returns r w'.
Proof. destruct m as [ml|]; [eauto|discriminate]. Qed.

End CoreSteps.

(** Take the next call off a sequence that has returned. *)
Ltac next_call H x w' Hs :=
  apply bind_returns in H as (x & w' & Hs & H).

Section CoreNew.
Context {Q E X : Type} `{!AsyncQ Q} `{!AsyncQNew Q} `{!Users E} `{!Collaborators X}.
Implicit Types w : core_world Q E X.

(** What [pa_core_new] has done when it returns, from
    [pa_msgobject_new] on. *)
Lemma core_new_with_returns m pool w r w' :
  pa_core_new_with m pool w = Returns r w' →
  ∃ q0 q1 ml e cm xp rnd pre,
    r = Some (self w')
    ∧ pa_asyncq_new 0 = Some q0
    ∧ pa_asyncq_before_poll q0 = (0, q1)
    ∧ queue w' =
        Build_world (Build_pa_asyncmsgq q1 false None) (items (queue w)) (flist (queue w))
          (<[self w' := 1]> (msgobject_refs (queue w))) (memblock_refs (queue w))
          (semaphores (queue w)) (env (queue w)) (trace (queue w) ++ [EvBeforePoll 0])
    ∧ core w' = Core.set_asyncmsgq_event (Some e)
                  (Core.set_cookie rnd (pa_property_init cm xp).1)
    ∧ Core.mainloop (pa_property_init cm xp).1 = Some ml
    ∧ Core.quit_event cm = None
    ∧ Core.exit_idle_time cm = -1
    ∧ Core.mempool cm = pool
    ∧ Core.mainloop cm = m
    ∧ core_log w' = core_log w ++ CallMsgobjectNew (self w') :: pre
        ++ [CallAsyncmsgqNew 0; CallAsyncmsgqBeforePoll 0;
            CallAsyncmsgqGetFd (pa_asyncq_get_fd q1);
            CallIoNew ml (pa_asyncq_get_fd q1) PA_IO_EVENT_INPUT fn_asyncmsgq_cb (Some e)].
Proof.
  unfold pa_core_new_with. intros Hrun.
  next_call Hrun c w1 H1.
  unfold core_msgobject_new in H1. injection H1 as Hc Hw1.
  assert (Hs : self w1 = c) by (by rewrite <- Hw1).
  assert (Hq : queue w1 =
                 set_msgobject_refs (<[c := 1]> (msgobject_refs (queue w))) (queue w))
    by (rewrite <- Hw1; simpl; by rewrite Hc).
  assert (Hl : core_log w1 = core_log w ++ [CallMsgobjectNew c])
    by (rewrite <- Hw1; simpl; by rewrite Hc).
  clear Hw1 Hc.
  next_call Hrun cl w2 H2. apply ask_returns in H2 as (_ & _ & _ & Hs2 & Hq2 & Hl2).
  rewrite Hs in Hs2. rewrite Hq in Hq2. rewrite Hl in Hl2. clear Hs Hq Hl w1.
  next_call Hrun si w3 H3. apply ask_returns in H3 as (_ & _ & _ & Hs3 & Hq3 & Hl3).
  rewrite Hs2 in Hs3. rewrite Hq2 in Hq3. rewrite Hl2 in Hl3. clear Hs2 Hq2 Hl2 w2.
  next_call Hrun so w4 H4. apply ask_returns in H4 as (_ & _ & _ & Hs4 & Hq4 & Hl4).
  rewrite Hs3 in Hs4. rewrite Hq3 in Hq4. rewrite Hl3 in Hl4. clear Hs3 Hq3 Hl3 w3.
  next_call Hrun soo w5 H5. apply ask_returns in H5 as (_ & _ & _ & Hs5 & Hq5 & Hl5).
  rewrite Hs4 in Hs5. rewrite Hq4 in Hq5. rewrite Hl4 in Hl5. clear Hs4 Hq4 Hl4 w4.
  next_call Hrun sii w6 H6. apply ask_returns in H6 as (_ & _ & _ & Hs6 & Hq6 & Hl6).
  rewrite Hs5 in Hs6. rewrite Hq5 in Hq6. rewrite Hl5 in Hl6. clear Hs5 Hq5 Hl5 w5.
  next_call Hrun u7 w7 H7.
  apply modify_core_returns in H7 as (Hc7 & _ & Hs7 & Hq7 & Hl7).
  rewrite Hs6 in Hs7. rewrite Hq6 in Hq7. rewrite Hl6 in Hl7. clear Hs6 Hq6 Hl6.
  next_call Hrun u8 w8 H8. apply tell_returns in H8 as (_ & Hc8 & Hs8 & Hq8 & Hl8).
  rewrite Hc7 in Hc8. rewrite Hs7 in Hs8. rewrite Hq7 in Hq8. rewrite Hl7 in Hl8.
  clear Hc7 Hs7 Hq7 Hl7 w7.
  next_call Hrun u9 w9 H9. apply tell_returns in H9 as (_ & Hc9 & Hs9 & Hq9 & Hl9).
  rewrite Hc8 in Hc9. rewrite Hs8 in Hs9. rewrite Hq8 in Hq9. rewrite Hl8 in Hl9.
  clear Hc8 Hs8 Hq8 Hl8 w8.
  next_call Hrun u10 w10 H10. apply tell_returns in H10 as (_ & Hc10 & Hs10 & Hq10 & Hl10).
  rewrite Hc9 in Hc10. rewrite Hs9 in Hs10. rewrite Hq9 in Hq10. rewrite Hl9 in Hl10.
  clear Hc9 Hs9 Hq9 Hl9 w9.
  next_call Hrun u11 w11 H11. apply tell_returns in H11 as (_ & Hc11 & Hs11 & Hq11 & Hl11).
  rewrite Hc10 in Hc11. rewrite Hs10 in Hs11. rewrite Hq10 in Hq11. rewrite Hl10 in Hl11.
  clear Hc10 Hs10 Hq10 Hl10 w10.
  next_call Hrun u12 w12 H12.
  apply tell_core_returns in H12 as (Hc12 & _ & Hs12 & Hq12 & Hl12).
  rewrite Hs11 in Hs12. rewrite Hq11 in Hq12. rewrite Hl11 in Hl12. clear Hs11 Hq11 Hl11.
  next_call Hrun rnd w13 H13. apply ask_returns in H13 as (_ & _ & Hc13 & Hs13 & Hq13 & Hl13).
  rewrite Hc12 in Hc13. rewrite Hs12 in Hs13. rewrite Hq12 in Hq13. rewrite Hl12 in Hl13.
  clear Hc12 Hs12 Hq12 Hl12 w12.
  next_call Hrun u14 w14 H14.
  apply modify_core_returns in H14 as (Hc14 & _ & Hs14 & Hq14 & Hl14).
  rewrite Hc13 in Hc14. rewrite Hs13 in Hs14. rewrite Hq13 in Hq14. rewrite Hl13 in Hl14.
  clear Hc13 Hs13 Hq13 Hl13 w13.
  next_call Hrun u15 w15 H15. apply tell_returns in H15 as (_ & Hc15 & Hs15 & Hq15 & Hl15).
  rewrite Hc14 in Hc15. rewrite Hs14 in Hs15. rewrite Hq14 in Hq15. rewrite Hl14 in Hl15.
  clear Hc14 Hs14 Hq14 Hl14 w14.
  next_call Hrun u16 w16 H16.
  apply on_queue_returns in H16 as (Hnew & Hc16 & Hs16 & _ & Hl16).
  rewrite Hc15 in Hc16. rewrite Hs15 in Hs16. rewrite Hq15 in Hnew. rewrite Hl15 in Hl16.
  clear Hc15 Hs15 Hq15 Hl15 w15.
  unfold pa_asyncmsgq_new in Hnew.
  destruct (pa_asyncq_new 0) as [q0|] eqn:Hq0; [|discriminate].
  destruct u16. injection Hnew as Hq16. simpl in Hq16.
  next_call Hrun rp w17 H17.
  apply on_queue_returns in H17 as (Hpoll & Hc17 & Hs17 & _ & Hl17).
  rewrite Hc16 in Hc17. rewrite Hs16 in Hs17. rewrite <- Hq16 in Hpoll. rewrite Hl16 in Hl17.
  clear Hc16 Hs16 Hq16 Hl16 w16.
  unfold pa_asyncmsgq_before_poll, asyncq_before_poll in Hpoll. simpl in Hpoll.
  destruct (pa_asyncq_before_poll q0) as [r0 q1] eqn:Hq1. simpl in Hpoll.
  injection Hpoll as Hr Hq17. subst r0.
  next_call Hrun u18 w18 H18. apply assert_returns in H18 as (Hr0 & ->).
  apply Z.eqb_eq in Hr0. subst rp.
  next_call Hrun f w19 H19.
  apply on_queue_returns in H19 as (Hfd & Hc19 & Hs19 & _ & Hl19).
  rewrite Hc17 in Hc19. rewrite Hs17 in Hs19. rewrite <- Hq17 in Hfd. rewrite Hl17 in Hl19.
  clear Hc17 Hs17 Hl17.
  unfold pa_asyncmsgq_get_fd, asyncq_get_fd in Hfd. simpl in Hfd.
  injection Hfd as Hf Hq19.
  next_call Hrun c1 w20 H20. apply get_core_returns in H20 as (-> & ->).
  next_call Hrun e w21 H21.
  apply through_returns in H21 as (ml & Hml & H21).
  apply ask_returns in H21 as (_ & _ & Hc21 & Hs21 & Hq21 & Hl21).
  rewrite Hc19 in Hml, Hc21. rewrite Hs19 in Hs21. rewrite <- Hq19 in Hq21.
  rewrite Hl19 in Hl21. clear Hc19 Hs19 Hq19 Hl19 w19.
  next_call Hrun u22 w22 H22.
  apply modify_core_returns in H22 as (Hc22 & _ & Hs22 & Hq22 & Hl22).
  rewrite Hc21 in Hc22. rewrite Hs21 in Hs22. rewrite Hq21 in Hq22. rewrite Hl21 in Hl22.
  clear Hc21 Hs21 Hq21 Hl21 w21.
  next_call Hrun u23 w23 H23. apply assert_returns in H23 as (He & ->).
  destruct e as [e|]; [|discriminate].
  unfold pure in Hrun. injection Hrun as <- <-.
  exists q0, q1, ml, e, (core w11), (outside w11), rnd.
  exists [CallIdxsetNew cl; CallIdxsetNew si; CallIdxsetNew so; CallIdxsetNew soo;
          CallIdxsetNew sii; CallHookInit hook_sink_input_new;
          CallHookInit hook_sink_disconnect; CallHookInit hook_source_output_new;
          CallHookInit hook_source_disconnect; CallPropertyInit; CallRandom rnd;
          CallCheckSignalIsBlocked SIGPIPE].
  split; [by rewrite Hs22|]. split; [reflexivity|]. split; [exact Hq1|].
  split; [rewrite Hq22, Hs22; reflexivity|].
  split; [exact Hc22|]. split; [exact Hml|].
  split; [rewrite Hc11; reflexivity|].
  split; [rewrite Hc11; reflexivity|]. split; [rewrite Hc11; reflexivity|].
  split; [rewrite Hc11; reflexivity|].
  rewrite Hl22, Hs22, <- Hf, <- !app_assoc. reflexivity.
Qed.

End CoreNew.

Section CoreNewProperties.
Context {Q E X : Type} `{!AsyncQ Q} `{!AsyncQNew Q} `{!Users E} `{!Collaborators X}.
Implicit Types w : core_world Q E X.

(** [pa_core_new] up to [pa_msgobject_new]: the choice of the pool. *)
Lemma core_new_pool m shared w :
  let first := pa_mempool_new shared (outside w) in
  let second := pa_mempool_new 0 (if shared =? 0 then outside w else first.2) in
  pa_core_new (Some m) shared w =
    if negb (shared =? 0) && nonnull first.1
    then pa_core_new_with (Some m) first.1
           (Build_core_world (core w) (self w) (queue w) first.2
              (core_log w ++ [CallMempoolNew shared first.1]))
    else
      let tried := if shared =? 0 then [] else [CallMempoolNew shared None; CallLogWarn] in
      if nonnull second.1
      then pa_core_new_with (Some m) second.1
             (Build_core_world (core w) (self w) (queue w) second.2
                (core_log w ++ tried ++ [CallMempoolNew 0 second.1]))
      else Returns None
             (Build_core_world (core w) (self w) (queue w) second.2
                (core_log w ++ tried ++ [CallMempoolNew 0 None; CallLog])).
Proof.
  intros first second. subst first second.
  destruct w as [c s q x l].
  unfold pa_core_new. unfold_core. simpl.
  destruct (shared =? 0) eqn:Hs.
  - apply Z.eqb_eq in Hs as ->. simpl.
    destruct (pa_mempool_new 0 x) as [[p|] x'] eqn:Hp; simpl; [reflexivity|].
    rewrite <- !app_assoc. reflexivity.
  - simpl. destruct (pa_mempool_new shared x) as [[p|] x'] eqn:Hp; simpl.
    + rewrite Hs. reflexivity.
    + destruct (pa_mempool_new 0 x') as [[p|] x''] eqn:Hp'; simpl;
        rewrite <- !app_assoc; reflexivity.
Qed.

Lemma core_new_with_not_null m pool w0 w' :
  pa_core_new_with m pool w0 ≠ Returns None w'.
Proof.
  intros Hrun.
  apply core_new_with_returns in Hrun as (? & ? & ? & ? & ? & ? & ? & ? & Hr & _).
  discriminate.
Qed.

Lemma core_new_null m shared w :
  let first := pa_mempool_new shared (outside w) in
  let second := pa_mempool_new 0 (if shared =? 0 then outside w else first.2) in
  let tried := if shared =? 0 then [] else [CallMempoolNew shared None; CallLogWarn] in
  (shared = 0 ∨ first.1 = None) → second.1 = None →
  pa_core_new (Some m) shared w =
    Returns None
      (Build_core_world (core w) (self w) (queue w) second.2
         (core_log w ++ tried ++ [CallMempoolNew 0 None; CallLog])).
Proof.
  intros first second tried Hfirst Hsecond.
  rewrite core_new_pool. fold first second tried. rewrite Hsecond.
  destruct Hfirst as [Hs | Hf].
  - subst shared. reflexivity.
  - rewrite Hf, andb_false_r. reflexivity.
Qed.

Lemma core_new_null_only m shared w w' :
  let first := pa_mempool_new shared (outside w) in
  let second := pa_mempool_new 0 (if shared =? 0 then outside w else first.2) in
  pa_core_new (Some m) shared w = Returns None w' →
  (shared = 0 ∨ first.1 = None) ∧ second.1 = None.
Proof.
  intros first second. rewrite core_new_pool. fold first second.
  destruct (shared =? 0) eqn:Hs.
  - apply Z.eqb_eq in Hs. cbn [negb andb].
    destruct second.1; cbn [nonnull]; [intros Hrun|auto].
    by apply core_new_with_not_null in Hrun.
  - cbn [negb andb].
    destruct first.1; cbn [nonnull]; [intros Hrun; by apply core_new_with_not_null in Hrun|].
    destruct second.1; cbn [nonnull]; [intros Hrun|auto].
    by apply core_new_with_not_null in Hrun.
Qed.

Lemma core_new_fallback m shared w :
  let first := pa_mempool_new shared (outside w) in
  let second := pa_mempool_new 0 (if shared =? 0 then outside w else first.2) in
  shared ≠ 0 → first.1 = None → is_Some second.1 →
  pa_core_new (Some m) shared w =
    pa_core_new_with (Some m) second.1
      (Build_core_world (core w) (self w) (queue w) second.2
         (core_log w
            ++ [CallMempoolNew shared None; CallLogWarn; CallMempoolNew 0 second.1])).
Proof.
  intros first second Hs Hf [p Hp].
  rewrite core_new_pool. fold first second. rewrite Hf, Hp, andb_false_r.
  apply Z.eqb_neq in Hs. rewrite Hs. reflexivity.
Qed.

(** X11.  [pa_core_new] gives up only when there is no memory pool to be
    had.  It returns NULL exactly when the pool without shared memory
    cannot be made, after the pool with shared memory could not be made
    either if one was asked for; nothing else has been called then but
    [pa_mempool_new] and the log.  When only the pool with shared memory
    fails, a warning is logged and the core is built on a pool without
    shared memory.  A NULL main loop fails the assertion. *)
Theorem core_new_fails_only_without_pool m shared w :
  let first := pa_mempool_new shared (outside w) in
  let second := pa_mempool_new 0 (if shared =? 0 then outside w else first.2) in
  let tried := if shared =? 0 then [] else [CallMempoolNew shared None; CallLogWarn] in
  ((∃ w', pa_core_new (Some m) shared w = Returns None w')
     ↔ (shared = 0 ∨ first.1 = None) ∧ second.1 = None)
  ∧ ((shared = 0 ∨ first.1 = None) → second.1 = None →
     pa_core_new (Some m) shared w =
       Returns None
         (Build_core_world (core w) (self w) (queue w) second.2
            (core_log w ++ tried ++ [CallMempoolNew 0 None; CallLog])))
  ∧ (shared ≠ 0 → first.1 = None → is_Some second.1 →
     pa_core_new (Some m) shared w =
       pa_core_new_with (Some m) second.1
         (Build_core_world (core w) (self w) (queue w) second.2
            (core_log w
               ++ [CallMempoolNew shared None; CallLogWarn; CallMempoolNew 0 second.1])))
  ∧ pa_core_new None shared w = AssertFails.
Proof.
  intros first second tried.
  split; [split|split; [|split]].
  - intros [w' Hrun]. exact (core_new_null_only m shared w w' Hrun).
  - intros [Hfirst Hsecond]. eexists. exact (core_new_null m shared w Hfirst Hsecond).
  - exact (core_new_null m shared w).
  - exact (core_new_fallback m shared w).
  - reflexivity.
Qed.

(** Called for the queue's descriptor and the input event, the callback
    passes its two assertions. *)
Lemma cb_passes_assertions fuel (v : world Q E) :
  asyncmsgq_cb fuel (pa_asyncq_get_fd (asyncq (msgq v))) PA_IO_EVENT_INPUT v =
    (pa_asyncmsgq_after_poll ;; asyncmsgq_cb_loop fuel) v.
Proof.
  unfold asyncmsgq_cb, pa_asyncmsgq_get_fd, asyncq_get_fd.
  unfold bind at 1. unfold bind at 1. unfold pa_assert at 1. rewrite Z.eqb_refl.
  unfold bind at 1. unfold pa_assert. rewrite Z.eqb_refl. reflexivity.
Qed.

(** A core that [pa_core_new] returns was built by
    [pa_core_new_with], on the queue state it was called in. *)
Lemma core_new_reaches_with m shared w c w' :
  pa_core_new m shared w = Returns (Some c) w' →
  ∃ pool w0,
    pa_core_new_with m pool w0 = Returns (Some c) w' ∧ queue w0 = queue w.
Proof.
  destruct m as [m|]; [|discriminate].
  rewrite core_new_pool.
  destruct (negb (shared =? 0) && nonnull _); [by eauto|].
  simpl. destruct (nonnull _); [by eauto|discriminate].
Qed.

(** X12.  A core that [pa_core_new] returns has its queue wired to the
    main loop.  The queue is new, idle and unlocked, [before_poll] was
    called once on it and returned 0, and an I/O event was registered
    with the main loop for the queue's descriptor and the input event,
    with [asyncmsgq_cb] as its callback; the new object holds one
    reference.  Called for that descriptor and that event,
    [asyncmsgq_cb] passes both of its assertions and goes on to
    [after_poll] and its loop. *)
Theorem core_new_wires_the_queue m shared w c w' :
  pa_core_new m shared w = Returns (Some c) w' →
  ∃ q0 q1 ml e pre,
    pa_asyncq_new 0 = Some q0
    ∧ pa_asyncq_before_poll q0 = (0, q1)
    ∧ msgq (queue w') = {| asyncq := q1; mutex := false; current := None |}
    ∧ trace (queue w') = trace (queue w) ++ [EvBeforePoll 0]
    ∧ self w' = c
    ∧ refcnt (msgobject_refs (queue w')) c = 1
    ∧ Core.mainloop (core w') = Some ml
    ∧ Core.asyncmsgq_event (core w') = Some e
    ∧ core_log w' = pre
        ++ [CallAsyncmsgqNew 0; CallAsyncmsgqBeforePoll 0;
            CallAsyncmsgqGetFd (pa_asyncq_get_fd q1);
            CallIoNew ml (pa_asyncq_get_fd q1) PA_IO_EVENT_INPUT fn_asyncmsgq_cb (Some e)]
    ∧ ∀ fuel,
        asyncmsgq_cb fuel (pa_asyncq_get_fd q1) PA_IO_EVENT_INPUT (queue w') =
          (pa_asyncmsgq_after_poll ;; asyncmsgq_cb_loop fuel) (queue w').
Proof.
  intros Hrun.
  apply core_new_reaches_with in Hrun as (pool & w0 & Hrun & Hq0).
  apply core_new_with_returns in Hrun
    as (q0 & q1 & ml & e & cm & xp & rnd & pre & Hc & Hnew & Hpoll & Hq & Hcore & Hml
        & _ & _ & _ & _ & Hlog).
  injection Hc as Hc.
  assert (Hcb : ∀ fuel,
            asyncmsgq_cb fuel (pa_asyncq_get_fd q1) PA_IO_EVENT_INPUT (queue w') =
              (pa_asyncmsgq_after_poll ;; asyncmsgq_cb_loop fuel) (queue w')).
  { intros fuel. rewrite <- (cb_passes_assertions fuel (queue w')). by rewrite Hq. }
  exists q0, q1, ml, e. eexists.
  split; [exact Hnew|]. split; [exact Hpoll|].
  split; [by rewrite Hq|]. split; [by rewrite Hq, Hq0|]. split; [done|].
  split; [rewrite Hq; unfold refcnt; simpl; by rewrite Hc, lookup_insert_eq|].
  split; [by rewrite Hcore|]. split; [by rewrite Hcore|].
  split; [|exact Hcb].
  rewrite Hlog, (app_comm_cons _ _ (CallMsgobjectNew _)), app_assoc. reflexivity.
Qed.

(** X13.  A new core does not quit when it is idle.  [pa_core_new]
    leaves no quit timer and the idle time -1, as long as
    [pa_property_init] leaves these two members alone; the core is then
    settled whatever the number of clients, and [pa_core_check_quit] does
    nothing until the idle time is set. *)
Theorem new_core_does_not_quit_when_idle m shared w c w' :
  (∀ c0 x, Core.quit_event (pa_property_init c0 x).1 = Core.quit_event c0
           ∧ Core.exit_idle_time (pa_property_init c0 x).1 = Core.exit_idle_time c0) →
  pa_core_new m shared w = Returns (Some c) w' →
  Core.quit_event (core w') = None
  ∧ Core.exit_idle_time (core w') = -1
  ∧ ∀ x, settled (set_outside x w')
         ∧ pa_core_check_quit (set_outside x w') = Returns tt (set_outside x w').
Proof.
  intros Hframe Hrun.
  apply core_new_reaches_with in Hrun as (pool & w0 & Hrun & _).
  apply core_new_with_returns in Hrun
    as (q0 & q1 & ml & e & cm & xp & rnd & pre & _ & _ & _ & _ & Hcore & _
        & Hquit & Hidle & _).
  destruct (Hframe cm xp) as [Hf1 Hf2].
  assert (Hq : Core.quit_event (core w') = None)
    by (rewrite Hcore; simpl; congruence).
  assert (Hi : Core.exit_idle_time (core w') = -1)
    by (rewrite Hcore; simpl; congruence).
  split; [exact Hq|]. split; [exact Hi|].
  intros x.
  assert (Hs : settled (set_outside x w')).
  { unfold settled. simpl. rewrite Hq, Hi. simpl. left. lia. }
  split; [exact Hs|]. by apply check_quit_settled.
Qed.

End CoreNewProperties.

(** ** The poll discipline over the life of the core *)

Section PollDiscipline.
Context {Q E X : Type} `{!AsyncQ Q} `{!AsyncQNew Q} `{!Users E} `{!Collaborators X}.
Implicit Types w : core_world Q E X.

Lemma poll_discipline_app tr1 : ∀ armed tr2,
  poll_discipline armed (tr1 ++ tr2) =
    poll_discipline armed tr1 ≫= fun armed' => poll_discipline armed' tr2.
Proof.
  induction tr1 as [|e tr1 IH]; intros armed tr2; [reflexivity|].
  destruct e; simpl; try apply IH; destruct armed; try reflexivity; apply IH.
Qed.

Lemma poll_discipline_disarmed tr :
  forallb (fun e => negb (is_poll_call e)) tr = true →
  poll_discipline false tr = Some false.
Proof.
  induction tr as [|e tr IH]; [reflexivity|]. simpl.
  intros [He Htr]%andb_prop. destruct e; try discriminate; simpl; by apply IH.
Qed.

(** Draining and re-arming, begun on a queue that is not armed, keeps
    the discipline and ends armed. *)
Lemma idiom_rearm_disciplined (v v' : world Q E) :
  idiom_rearm v v' →
  ∃ tr, trace v' = trace v ++ tr ∧ poll_discipline false tr = Some true.
Proof.
  induction 1 as [v v1 v2 Hdrain Hpoll|v v1 r v2 v3 Hdrain Hpoll Hr _ IH];
    apply idiom_drain_grows in Hdrain as (tr1 & Htr1 & Hp1);
    apply poll_discipline_disarmed in Hp1;
    unfold pa_asyncmsgq_before_poll, asyncq_before_poll in Hpoll;
    injection Hpoll as Hr' Hv2.
  - exists (tr1 ++ [EvBeforePoll 0]).
    split; [rewrite <- Hv2; simpl; by rewrite Hr', Htr1, <- app_assoc|].
    rewrite poll_discipline_app, Hp1. reflexivity.
  - destruct IH as (tr3 & Htr3 & Hp3).
    exists (tr1 ++ EvBeforePoll r :: tr3).
    split.
    { rewrite Htr3, <- Hv2. simpl. by rewrite Hr', Htr1, <- !app_assoc. }
    rewrite poll_discipline_app, Hp1. simpl.
    apply Z.eqb_neq in Hr. rewrite Hr. exact Hp3.
Qed.

Ltac log_grows_prim :=
  let H := fresh in
  intros ? ? ? H; unfold_prims; unfold pa_assert in *; repeat case_match;
  simplify_eq; simpl;
  first [by eexists | by (exists []; rewrite app_nil_r)].

Ltac solve_log_grows :=
  repeat first
    [ apply grows_pure
    | apply grows_bind; [|intros ?]
    | match goal with
      | |- grows (match ?x with _ => _ end) => destruct x
      end
    | log_grows_prim ].

Lemma grows_free_loop fuel : grows (Q:=Q) (E:=E) (pa_asyncmsgq_free_loop fuel).
Proof.
  induction fuel as [|fuel IH]; cbn [pa_asyncmsgq_free_loop]; [intros ? ? ? [=]|].
  apply grows_bind; [solve_log_grows|intros [i|]]; [|solve_log_grows].
  apply grows_bind; [solve_log_grows|intros it].
  do 4 (apply grows_bind; [solve_log_grows|intros _]).
  apply grows_bind; [solve_log_grows|intros r].
  apply grows_bind; [solve_log_grows|intros _]. exact IH.
Qed.

Lemma grows_free fuel : grows (Q:=Q) (E:=E) (pa_asyncmsgq_free fuel).
Proof.
  unfold pa_asyncmsgq_free.
  apply grows_bind; [apply grows_free_loop|intros _].
  do 2 (apply grows_bind; [solve_log_grows|intros _]). solve_log_grows.
Qed.

Lemma keeps_queue_bind {A B} (m : CM Q E X A) (k : A → CM Q E X B) :
  keeps_queue m → (∀ x, keeps_queue (k x)) → keeps_queue (bind m k).
Proof.
  intros Hm Hk w r w' Hrun.
  apply bind_returns in Hrun as (x & w1 & H1 & H2).
  destruct (Hm _ _ _ H1) as [Hq1 Hs1], (Hk _ _ _ _ H2) as [Hq2 Hs2].
  split; congruence.
Qed.

Ltac keeps_queue_prim :=
  let H := fresh in
  intros ? ? ? H; unfold_core; repeat case_match; simplify_eq; simpl; done.

Ltac solve_keeps_queue :=
  repeat first
    [ apply keeps_queue_bind; [|intros ?]
    | match goal with
      | |- keeps_queue (match ?x with _ => _ end) => destruct x
      | |- keeps_queue (if ?x then _ else _) => destruct x
      end
    | keeps_queue_prim ].

Lemma keeps_queue_free_empty_idxset s : keeps_queue (Q:=Q) (E:=E) (free_empty_idxset s).
Proof. unfold free_empty_idxset. solve_keeps_queue. Qed.

Lemma keeps_queue_registries o : keeps_queue (Q:=Q) (E:=E) (core_free_registries o).
Proof.
  unfold core_free_registries.
  do 4 (apply keeps_queue_bind; [solve_keeps_queue|intros ?]).
  do 5 (apply keeps_queue_bind; [apply keeps_queue_free_empty_idxset|intros ?]).
  solve_keeps_queue.
Qed.

Lemma keeps_queue_rest : keeps_queue (Q:=Q) (E:=E) core_free_rest.
Proof. unfold core_free_rest. solve_keeps_queue. Qed.

(** X14.  The core keeps the poll discipline of its queue.
    [pa_core_new] hands the queue to the main loop armed: its one call on
    the new queue's poll interface is a [before_poll] that returned 0.
    Every run of [asyncmsgq_cb] starts from an armed queue by disarming
    it with [after_poll], pops only while the queue is disarmed, and
    returns with the queue armed again.  [core_free] disarms the queue
    with [after_poll] before [pa_asyncmsgq_free] pops what is left, and
    does not arm it again. *)
Theorem core_keeps_poll_discipline :
  (∀ m shared w c w',
     pa_core_new m shared w = Returns (Some c) w' →
     ∃ tr, trace (queue w') = trace (queue w) ++ tr
       ∧ poll_discipline false tr = Some true)
  ∧ (∀ fuel fd events w w',
       core_asyncmsgq_cb fuel fd events w = Returns tt w' →
       ∃ tr, trace (queue w') = trace (queue w) ++ tr
         ∧ poll_discipline true tr = Some true)
  ∧ (∀ fuel o w w',
       core_free fuel o w = Returns tt w' →
       ∃ tr, trace (queue w') = trace (queue w) ++ tr
         ∧ poll_discipline true tr = Some false).
Proof.
  split; [|split].
  - intros m shared w c w' Hrun.
    apply core_new_reaches_with in Hrun as (pool & w0 & Hrun & Hq0).
    apply core_new_with_returns in Hrun
      as (q0 & q1 & ml & e & cm & xp & rnd & pre & _ & _ & _ & Hq & _).
    exists [EvBeforePoll 0]. rewrite Hq, Hq0. done.
  - intros fuel fd events w w' Hrun.
    unfold core_asyncmsgq_cb in Hrun.
    destruct (asyncmsgq_cb fuel fd events (queue w)) as [[] v| | | |] eqn:Hcb;
      try discriminate.
    injection Hrun as <-. simpl.
    unfold asyncmsgq_cb in Hcb.
    apply bind_returns in Hcb as (f & v0 & Hf & Hcb).
    unfold pa_asyncmsgq_get_fd, asyncq_get_fd in Hf. injection Hf as <- <-.
    apply bind_returns in Hcb as ([] & v1 & Ha1 & Hcb).
    apply bind_returns in Hcb as ([] & v2 & Ha2 & Hcb).
    apply bind_returns in Hcb as ([] & v3 & Hpoll & Hcb).
    unfold pa_assert in Ha1, Ha2.
    destruct (_ =? fd); [|discriminate]. injection Ha1 as <-.
    destruct (events =? _); [|discriminate]. injection Ha2 as <-.
    apply cb_loop_idiom in Hcb.
    apply idiom_rearm_disciplined in Hcb as (tr & Htr & Hp).
    unfold pa_asyncmsgq_after_poll, asyncq_after_poll in Hpoll.
    injection Hpoll as <-. simpl in Htr.
    exists (EvAfterPoll :: tr). split; [by rewrite Htr, <- app_assoc|exact Hp].
  - intros fuel o w w' Hrun. unfold core_free in Hrun.
    apply bind_returns in Hrun as ([] & w1 & H1 & Hrun).
    apply keeps_queue_registries in H1 as [Hq1 _].
    apply bind_returns in Hrun as ([] & w2 & H2 & Hrun).
    apply on_queue_returns in H2 as (Hpoll & _).
    apply bind_returns in Hrun as ([] & w3 & H3 & Hrun).
    apply on_queue_returns in H3 as (Hfree & _).
    apply keeps_queue_rest in Hrun as [Hq4 _].
    unfold pa_asyncmsgq_after_poll, asyncq_after_poll in Hpoll.
    injection Hpoll as Hq2.
    apply grows_free in Hfree as (tr & Htr & Hp).
    exists (EvAfterPoll :: tr).
    split.
    { rewrite Hq4, Htr, <- Hq2, Hq1. simpl. by rewrite <- app_assoc. }
    simpl. by apply poll_discipline_disarmed.
Qed.

End PollDiscipline.

(** ** The destruction of the core, on a first-in first-out queue *)

Section CoreFreeFifo.
Context {E X : Type} `{!Users E} `{!Collaborators X}.
Implicit Types w : core_world fifo E X.

(** X15.  Destroying the core releases the messages still posted to its
    queue, and refuses to run with a sender waiting.  Once the
    assertions of [core_free] on the registries have held, it disarms the
    queue and has [pa_asyncmsgq_free] pop every residual message; when
    these are all posts, the payload of each is released once, in queue
    order, the counts drop accordingly, the queue is freed, and
    [core_free] goes on to free the pool, the properties, the I/O event,
    the hooks and the core.  When a residual message carries a reply
    semaphore, the assertion of [pa_asyncmsgq_free] fails. *)
Theorem core_free_releases_the_queue fuel o w w1 ps its :
  core_free_registries o w = Returns tt w1 →
  cells (asyncq (msgq (queue w))) = ps →
  Forall2 (fun p it => items (queue w) !! p = Some it) ps its →
  NoDup ps →
  (length ps < fuel)%nat →
  if forallb (fun it => negb (nonnull (Item.semaphore it))) its
  then ∃ v tr,
    core_free fuel o w =
      core_free_rest
        (Build_core_world (core w1) (self w1) v (outside w1)
           (core_log w1 ++ [CallAsyncmsgqAfterPoll; CallAsyncmsgqFree]))
    ∧ cells (asyncq (msgq v)) = []
    ∧ trace v = trace (queue w) ++ EvAfterPoll :: tr
        ++ [EvPop false None; EvAsyncqFree; EvMutexFree; EvQueueFree]
    ∧ pops tr = Some <$> ps
    ∧ payload_calls tr = flat_map release_calls its
    ∧ (∀ t, refcnt (msgobject_refs v) t =
            refcnt (msgobject_refs (queue w)) t - queue_refs Item.object t its)
    ∧ (∀ b, refcnt (memblock_refs v) b =
            refcnt (memblock_refs (queue w)) b
            - queue_refs (fun it => Chunk.memblock (Item.memchunk it)) b its)
  else core_free fuel o w = AssertFails.
Proof.
  intros Hreg Hcells Hits Hnodup Hfuel.
  pose proof (keeps_queue_registries o w tt w1 Hreg) as [Hq1 _].
  set (v1 := log EvAfterPoll (queue w)).
  assert (Hpoll : pa_asyncmsgq_after_poll (queue w1) = Returns tt v1).
  { rewrite Hq1. unfold pa_asyncmsgq_after_poll, asyncq_after_poll. subst v1. simpl.
    by destruct (queue w) as [[] ? ? ? ? ? ? ?]. }
  pose proof (free_loop_outcome ps its v1 fuel Hcells Hits Hnodup Hfuel) as Hloop.
  destruct (forallb _ its).
  - destruct Hloop as (v & tr & Hrun & Hcells' & Htr & Hpay & Hpops & _ & _ & _
                       & Horefs & Hbrefs & _).
    assert (Hfree : pa_asyncmsgq_free fuel v1 =
                    Returns tt (log EvQueueFree (log EvMutexFree (log EvAsyncqFree v))))
      by (unfold pa_asyncmsgq_free, bind; by rewrite Hrun).
    eexists _, tr. split.
    { unfold core_free, bind. rewrite Hreg. unfold on_queue at 1. rewrite Hpoll.
      unfold on_queue. cbn [queue set_queue called]. rewrite Hfree.
      cbn [queue set_queue called core self outside core_log].
      rewrite <- !app_assoc. reflexivity. }
    simpl. split; [exact Hcells'|].
    split; [rewrite Htr; subst v1; simpl; rewrite <- !app_assoc; reflexivity|].
    auto.
  - assert (Hfree : pa_asyncmsgq_free fuel v1 = AssertFails)
      by (unfold pa_asyncmsgq_free, bind; by rewrite Hloop).
    unfold core_free, bind. rewrite Hreg. unfold on_queue at 1. rewrite Hpoll.
    unfold on_queue. cbn [queue set_queue called]. by rewrite Hfree.
Qed.

End CoreFreeFifo.

(** ** The core as a message target *)

Section CoreHandler.
Context {Q E X : Type} `{!AsyncQ Q} `{!AsyncQNew Q} `{!Users E} `{!Collaborators X}.
Implicit Types w : core_world Q E X.

(** A target that [pa_asyncmsgq_get] hands out is referenced. *)
Lemma get_object_referenced object code userdata offset chunk wait (v v' : world Q E) l o :
  pa_asyncmsgq_get object code userdata offset chunk wait v = Returns (0, l) v' →
  out_object l = Some (Some o) →
  0 < refcnt (msgobject_refs v') o.
Proof.
  unfold pa_asyncmsgq_get. unfold_prims.
  destruct code; simpl; [|discriminate].
  destruct (nonnull (current (msgq v))); simpl; [discriminate|].
  destruct (pa_asyncq_pop (asyncq (msgq v)) wait) as [[[c|] q']|]; simpl;
    [ | intros [= <- <-]; discriminate | discriminate ].
  destruct (items v !! c) as [it|]; [|discriminate].
  destruct (nonnull object); simpl.
  - destruct (Item.object it) as [o'|]; simpl.
    + destruct (0 <? refcnt (msgobject_refs v) o') eqn:Hpos; simpl; [|discriminate].
      intros [= <- <-]. simpl. intros [= <-]. by apply Z.ltb_lt.
    + intros [= <- <-]. discriminate.
  - intros [= <- <-]. discriminate.
Qed.

(** X16.  The core's handler accepts every message that the queue hands
    out for the core.  When [pa_asyncmsgq_get] has returned a message
    whose target is the core, [core_process_msg] on that message passes
    both of its assertions, since get has asserted the reference.  It
    answers 0 to [PA_CORE_MESSAGE_UNLOAD_MODULE], after one call of
    [pa_module_unload] with the message's user data, and -1 to any other
    code, for which it calls nothing and changes nothing; offset and chunk
    play no part. *)
Theorem core_handler_accepts_what_get_delivers
    object code0 userdata offset chunk wait w v l msg_offset msg_chunk :
  pa_asyncmsgq_get object code0 userdata offset chunk wait (queue w) = Returns (0, l) v →
  out_object l = Some (Some (self w)) →
  let code := default 0 (out_code l) in
  let data := default None (out_userdata l) in
  let w1 := set_queue v w in
  if code =? PA_CORE_MESSAGE_UNLOAD_MODULE
  then
    core_process_msg (Some (self w)) code data msg_offset msg_chunk w1 =
      Returns 0
        (Build_core_world (pa_module_unload (core w) data (outside w)).1 (self w) v
           (pa_module_unload (core w) data (outside w)).2
           (core_log w ++ [CallModuleUnload data]))
  else
    core_process_msg (Some (self w)) code data msg_offset msg_chunk w1 = Returns (-1) w1.
Proof.
  intros Hget Hobj code data w1.
  pose proof (get_object_referenced _ _ _ _ _ _ _ _ _ _ Hget Hobj) as Hpos.
  apply Z.ltb_lt in Hpos.
  unfold core_process_msg. unfold_core. subst w1. simpl.
  rewrite bool_decide_eq_true_2 by done. simpl. rewrite Hpos. simpl.
  destruct (code =? PA_CORE_MESSAGE_UNLOAD_MODULE); reflexivity.
Qed.

End CoreHandler.


(** * Examples

    The properties at the scenarios of the design document. *)

(** Scenario 1: [done] on the posted message, with room in the pool. *)
Lemma done_releases_posted_item_witness :
  ∃ w', pa_asyncmsgq_done 0 (example_world [] (Some 10%positive)) = Returns tt w'
    ∧ trace w' = [EvFreeCb 9%positive (Some 5%positive); EvMsgobjectUnref 1%positive;
                  EvMemblockUnref 3%positive; EvFlistPush 10%positive 0]
    ∧ flist_cells (flist w') = [10%positive].
Proof.
  destruct (done_releases_posted_item 0 (example_world [] (Some 10%positive))
              10%positive posted_item eq_refl eq_refl eq_refl)
    as (w' & Hrun & Htrace & _ & _ & _ & Hflist & _).
  exists w'. split; [exact Hrun | split; [exact Htrace | exact Hflist]].
Defined.


(** The order of the reply matters.  Were the semaphore posted before
    the store, the sender could run between the two statements, and its
    send would return the -1 that [pa_asyncmsgq_send] put into the item,
    not the 99 of the consumer. *)
Lemma post_before_store_loses_reply :
  ∃ θ i,
    fine_run_with (fun c s ret => rev (done_reply c s ret))
      [ Enter (SendPush 0 (Some 1%positive) 3 (Some 5%positive) 0 None);
        Enter (Get (Some None) (Some 0) (Some None) (Some 0) (Some pa_memchunk_reset) false);
        Enter (Done 99);
        Resume;
        Enter (SendReturn 0) ]
      (between_calls new_system) = Some θ
    ∧ history (at_calls θ) = [Returned 0 (-1); Completed i 99; Pushed 0 i]
    ∧ ¬ answered 0 (-1) [Completed i 99; Pushed 0 i].
Proof.
  eexists _, _. split; [vm_compute; reflexivity|]. split; [reflexivity|].
  intros (hc & j & hb & ha & Hh & _).
  destruct hc as [|o1 [|o2 hc]]; simpl in Hh; try discriminate.
  injection Hh as _ _ Hh. by destruct hc.
Qed.

(** Scenario 2, the counts: neither the push of the send nor the [done]
    on the sent message touches them. *)
Lemma send_path_leaves_payload_witness :
  (∃ i w',
     pa_asyncmsgq_send_push (Some 1%positive) 3 (Some 5%positive) 0 None
       (example_world [] None) = Returns i w'
     ∧ msgobject_refs w' = msgobject_refs (example_world [] None)
     ∧ memblock_refs w' = memblock_refs (example_world [] None)
     ∧ flist w' = flist (example_world [] None)
     ∧ env w' = 0)
  ∧ (∃ w',
       pa_asyncmsgq_done 99 (example_world [] (Some 11%positive)) = Returns tt w'
       ∧ msgobject_refs w' = msgobject_refs (example_world [] (Some 11%positive))
       ∧ semaphores w' = <[8%positive := 1%nat]> (semaphores (example_world [] None))
       ∧ trace w' = [EvSemaphorePost 8%positive]).
Proof.
  destruct (send_path_leaves_payload (Some 1%positive) 3 (Some 5%positive) 0 None
              (example_world [] None)
              {| cells := [fresh (dom (items (example_world [] None)))];
                 capacity := 4; fd := 3 |}
              99 (example_world [] (Some 11%positive)) 11%positive sent_item
              8%positive 0%nat eq_refl ltac:(discriminate) eq_refl eq_refl eq_refl
              eq_refl eq_refl)
    as [(i & w1 & Hpush & _ & Horefs & Hbrefs & Hfl & Henv & _)
        (w2 & Hdone & _ & Hsems & Horefs2 & _ & _ & _ & Htrace & _)].
  split.
  - exists i, w1. auto.
  - exists w2. auto.
Defined.

(** The sent message is dispatched and answered, then the posted one,
    which has the code waited for; the one reference that the target has
    is enough for both. *)
Lemma wait_for_dispatches_until_code_witness :
  ∃ w' tr,
    pa_asyncmsgq_wait_for 3 7 sent_then_posted_world = Returns 0 w'
    ∧ cells (asyncq (msgq w')) = []
    ∧ trace w' = tr
    ∧ pops tr = [Some 11%positive; Some 10%positive]
    ∧ handler_calls tr =
        [(1%positive, 3, Some 5%positive, 0, Some pa_memchunk_reset);
         (1%positive, 7, Some 5%positive, 42, Some (Chunk.Mk (Some 3%positive) 0 16))]
    ∧ refcnt (msgobject_refs w') 1%positive = 0.
Proof.
  assert (Hrec : receivable sent_then_posted_world [11%positive; 10%positive]
                   [sent_item; posted_item]).
  { split; [|split; [|split]].
    - apply NoDup_cons. split; [|apply NoDup_singleton].
      intros Hin. apply list_elem_of_singleton in Hin. discriminate.
    - by repeat constructor.
    - repeat constructor; [|discriminate].
      intros s [= <-]. by exists 0%nat.
    - intros [|[|k]] it o Hk Ho; simpl in Hk; [| |discriminate];
        injection Hk as <-; injection Ho as <-; vm_compute; reflexivity. }
  destruct (proj1 (proj2 (proj2 (wait_for_dispatches_until_code 7 sent_then_posted_world
                                   3 eq_refl)))
              [11%positive; 10%positive] [] [sent_item] posted_item eq_refl Hrec
              ltac:(repeat constructor; discriminate) eq_refl ltac:(simpl; lia))
    as (w' & tr & Hrun & Hcells & _ & Htrace & Hpops & Hcalls & Hrefs).
  exists w', tr. split; [exact Hrun|]. split; [exact Hcells|].
  split; [exact Htrace|]. split; [exact Hpops|]. split; [exact Hcalls|].
  rewrite Hrefs. reflexivity.
Defined.

(** Get, done, and a get that finds the queue empty: the consumer ends
    idle. *)
Lemma consumer_state_machine_witness :
  ∃ l w',
    consumer_run
      [CallGet None (Some 0) None None None false; CallDone 0;
       CallGet None (Some 0) None None None false]
      None (example_world [10%positive] None) = Returns l w'
    ∧ l = Some (CallGet None (Some 0) None None None false, -1)
    ∧ nonnull (current (msgq w')) = false.
Proof.
  eexists _, _. split; [vm_compute; reflexivity|]. split; [reflexivity|].
  destruct (consumer_state_machine None None None None None false 0
              [CallGet None (Some 0) None None None false; CallDone 0;
               CallGet None (Some 0) None None None false]
              (example_world [10%positive] None))
    as (_ & _ & _ & _ & _ & Hrun).
  match goal with
  | |- nonnull (current (msgq ?w)) = _ =>
      exact (Hrun (Some (CallGet None (Some 0) None None None false, -1)) w eq_refl
               ltac:(vm_compute; reflexivity))
  end.
Defined.

(** Scenario 1: the post, with an empty pool and room in the queue. *)
Lemma post_enqueues_witness :
  ∃ w',
    pa_asyncmsgq_post (Some 1%positive) 7 (Some 5%positive) 42
      (Some (Chunk.Mk (Some 3%positive) 0 16)) (Some 9%positive)
      (example_world [] None) = Returns tt w'
    ∧ cells (asyncq (msgq w')) = [fresh (dom (items (example_world [] None)))]
    ∧ refcnt (msgobject_refs w') 1%positive = 3
    ∧ refcnt (memblock_refs w') 3%positive = 2
    ∧ mutex (msgq w') = false.
Proof.
  pose proof (post_enqueues (Some 1%positive) 7 (Some 5%positive) 42
                (Some (Chunk.Mk (Some 3%positive) 0 16)) (Some 9%positive)
                (example_world [] None) _ eq_refl eq_refl) as Hpost.
  cbn in Hpost.
  destruct Hpost as (w' & Hrun & _ & _ & Horefs & Hbrefs & Hcells & Hm & _).
  exists w'. split; [exact Hrun|]. split; [exact Hcells|].
  split; [by rewrite Horefs|]. split; [by rewrite Hbrefs|]. exact Hm.
Defined.

(** Destruction with the posted message of scenario 1 still queued. *)
Lemma free_releases_residual_items_witness :
  ∃ w' tr,
    pa_asyncmsgq_free 2 (example_world [10%positive] None) = Returns tt w'
    ∧ cells (asyncq (msgq w')) = []
    ∧ trace w' = tr ++ [EvPop false None; EvAsyncqFree; EvMutexFree; EvQueueFree]
    ∧ payload_calls tr =
        [EvMsgobjectUnref 1%positive; EvMemblockUnref 3%positive;
         EvFreeCb 9%positive (Some 5%positive)].
Proof.
  pose proof (free_releases_residual_items (example_world [10%positive] None)
                [10%positive] [posted_item] 2 eq_refl
                ltac:(by repeat constructor) ltac:(apply NoDup_singleton)
                ltac:(simpl; lia)) as Hfree.
  cbn in Hfree.
  destruct Hfree as (w' & tr & Hrun & Hcells & Htrace & _ & Hpay & _).
  exists w', tr. auto.
Defined.

(** Scenario 4 with the race: before_poll observes the item that arrived
    after the empty get, the callback drains again and only then
    returns. *)
Lemma asyncmsgq_cb_is_drain_idiom_witness :
  ∃ w',
    drain_idiom racing_world w'
    ∧ trace w' =
        [EvAfterPoll; EvPop false None; EvBeforePoll (-1);
         EvPop false (Some 10%positive);
         EvProcessMsg 1%positive 7 (Some 5%positive) 42
           (Some (Chunk.Mk (Some 3%positive) 0 16)) 7;
         EvFreeCb 9%positive (Some 5%positive); EvMsgobjectUnref 1%positive;
         EvMemblockUnref 3%positive; EvFlistPush 10%positive 0;
         EvPop false None; EvBeforePoll 0].
Proof.
  eexists. split.
  - apply (proj1 (@asyncmsgq_cb_is_drain_idiom shared_fifo Z shared_fifo_asyncq
                    counting_users 3 PA_IO_EVENT_INPUT racing_world _ eq_refl eq_refl)).
    exists 4%nat. vm_compute. reflexivity.
  - reflexivity.
Defined.

(** A get that asks for the code and the offset only. *)
Lemma get_tolerates_null_out_params_witness :
  (∃ l w',
     pa_asyncmsgq_get None (Some 0) None (Some 0) None false
       (example_world [10%positive] None) = Returns (0, l) w'
     ∧ out_code l = Some 7
     ∧ out_object l = None
     ∧ out_userdata l = None
     ∧ out_offset l = Some 42
     ∧ out_chunk l = None)
  ∧ pa_asyncmsgq_get None None None (Some 0) None false
      (example_world [10%positive] None) = AssertFails.
Proof.
  destruct (get_tolerates_null_out_params None 0 None (Some 0) None false
              (example_world [10%positive] None) 10%positive
              {| cells := []; capacity := 4; fd := 3 |} posted_item
              ltac:(reflexivity) ltac:(reflexivity) ltac:(reflexivity)
              ltac:(discriminate))
    as [(l & w' & Hget & Hcode & Hobj & Hdata & Hoff & Hchunk & _) Hnull].
  split; [|exact Hnull].
  exists l, w'. auto 10.
Defined.

(** The consumer completes the posted message of scenario 1 and a
    producer posts again, with a record in the pool: a record is used
    again, and the other one is in the pool. *)
Lemma done_then_post_reuses_record_witness :
  ∃ w1 w2 p,
    pa_asyncmsgq_done 0 pooled_world = Returns tt w1
    ∧ pa_asyncmsgq_post (Some 1%positive) 8 None 0 None None w1 = Returns tt w2
    ∧ cells (asyncq (msgq w2)) = [p]
    ∧ p :: flist_cells (flist w2) ≡ₚ [10%positive; 20%positive]
    ∧ dom (items w2) = dom (items pooled_world).
Proof.
  destruct (done_then_post_reuses_record 0 (Some 1%positive) 8 None 0 None None
              pooled_world 10%positive posted_item eq_refl eq_refl eq_refl)
    as (w1 & w2 & tr & p & old & Hdone & Hpost & Hp & Hold & Hitems & Hpool & _ & Hq & _).
  - intros p Hp. apply list_elem_of_singleton in Hp as ->. by eexists.
  - simpl. lia.
  - reflexivity.
  - intros m. discriminate.
  - intros p Hp. by eexists.
  - exists w1, w2, p. split; [exact Hdone|]. split; [exact Hpost|].
    split; [by injection Hq as <-|]. split; [exact Hpool|].
    rewrite Hitems, dom_insert_L. apply elem_of_dom_2 in Hold. set_solver.
Defined.

(** Scenario 1 from the post to the completion: the consumer gets what
    was posted, and the counts of target 1 and of block 3 end where they
    began. *)
Lemma post_get_done_round_trip_witness :
  ∃ w1 w2 w3,
    pa_asyncmsgq_post (Some 1%positive) 7 (Some 5%positive) 42
      (Some (Chunk.Mk (Some 3%positive) 0 16)) (Some 9%positive) (example_world [] None)
      = Returns tt w1
    ∧ pa_asyncmsgq_get (Some None) (Some 0) (Some None) (Some 0) (Some pa_memchunk_reset)
        false w1 =
      Returns (0, {| out_object := Some (Some 1%positive);
                     out_code := Some 7;
                     out_userdata := Some (Some 5%positive);
                     out_offset := Some 42;
                     out_chunk := Some (Chunk.Mk (Some 3%positive) 0 16) |}) w2
    ∧ pa_asyncmsgq_done 0 w2 = Returns tt w3
    ∧ refcnt (msgobject_refs w3) 1%positive = 2
    ∧ refcnt (memblock_refs w3) 3%positive = 1.
Proof.
  destruct (post_get_done_round_trip (Some 1%positive) 7 (Some 5%positive) 42
              (Some (Chunk.Mk (Some 3%positive) 0 16)) (Some 9%positive) 0
              (example_world [] None) (indeterminate (env (example_world [] None)))
              eq_refl ltac:(simpl; lia) eq_refl eq_refl eq_refl
              ltac:(by intros m [= <-])
              ltac:(intros o [= <-]; vm_compute; discriminate))
    as (w1 & w2 & w3 & tr & Hpost & Hget & Hdone & Ho & Hb & _).
  exists w1, w2, w3. rewrite Ho, Hb. auto.
Defined.

(** Scenario 3 in the callback: the two posts are delivered in order and
    the queue is left empty and armed. *)
Lemma asyncmsgq_cb_drains_fifo_witness :
  ∃ w' tr,
    asyncmsgq_cb 4 3 PA_IO_EVENT_INPUT two_posts_world = Returns tt w'
    ∧ cells (asyncq (msgq w')) = []
    ∧ trace w' = EvAfterPoll :: tr ++ [EvPop false None; EvBeforePoll 0]
    ∧ handler_calls tr =
        [(1%positive, 1, None, 0, Some pa_memchunk_reset);
         (1%positive, 2, None, 0, Some pa_memchunk_reset)].
Proof.
  assert (Hdel : deliverable two_posts_world [20%positive; 21%positive]
                   [first_post; second_post]).
  { split; [|split; [|split]].
    - apply NoDup_cons. split; [|apply NoDup_singleton].
      intros Hin. apply list_elem_of_singleton in Hin. discriminate.
    - by repeat constructor.
    - repeat constructor; discriminate.
    - intros o. unfold target_refs. simpl. unfold refcnt. simpl.
      destruct (decide (o = 1%positive)) as [->|Hne].
      + vm_compute. discriminate.
      + rewrite !bool_decide_eq_false_2 by congruence.
        rewrite lookup_singleton_ne by done. simpl. lia. }
  destruct (asyncmsgq_cb_drains_fifo two_posts_world [20%positive; 21%positive]
              [first_post; second_post] 4 eq_refl eq_refl Hdel ltac:(simpl; lia))
    as (w' & tr & Hrun & Hcells & _ & Htrace & _ & Hcalls).
  exists w', tr. auto.
Defined.

(** A post and its get on a new queue: the one reference the queue
    holds is that of the message in flight. *)
Lemma queue_references_are_balanced_witness :
  ∃ σ, run post_and_get new_system = Some σ
    ∧ refs_balanced (sys_world new_system) (sys_world σ).
Proof.
  assert (∃ σ, run post_and_get new_system = Some σ) as [σ Hrun]
    by (eexists; vm_compute; reflexivity).
  exists σ. split; [exact Hrun|].
  apply (queue_references_are_balanced post_and_get new_system σ); [|exact Hrun].
  by repeat split.
Defined.

(** Scenario 2: after the round trip of a send no record is left in
    memory. *)
Lemma no_record_is_lost_witness :
  ∃ σ, run round_trip new_system = Some σ
    ∧ ∀ p, is_Some (items (sys_world σ) !! p)
           ↔ p ∈ owned (sys_world σ) ∨ ∃ t, waiting σ !! t = Some p.
Proof.
  assert (∃ σ, run round_trip new_system = Some σ) as [σ Hrun]
    by (eexists; vm_compute; reflexivity).
  exists σ. split; [exact Hrun|].
  apply (no_record_is_lost round_trip new_system σ); [|exact Hrun].
  by repeat split.
Defined.

(** An idle spell of the core in use: the timer that was armed is the
    one that is freed, and none is pending at the end. *)
Lemma quit_timer_is_accounted_for_witness :
  ∃ w', core_session idle_spell toy_running = Returns tt w'
    ∧ timers_accounted w'.
Proof.
  assert (∃ w', core_session idle_spell toy_running = Returns tt w') as [w' Hrun]
    by (eexists; vm_compute; reflexivity).
  exists w'. split; [exact Hrun|].
  apply (quit_timer_is_accounted_for idle_spell toy_running w'); [|exact Hrun].
  reflexivity.
Defined.

(** [pa_core_new] asked for shared memory where there is none: the core
    is built all the same, with its queue armed and registered. *)
Lemma core_new_wires_the_queue_witness :
  ∃ c w' ml e,
    pa_core_new (Some 50%positive) 1 toy_start = Returns (Some c) w'
    ∧ trace (queue w') = [EvBeforePoll 0]
    ∧ Core.mainloop (core w') = Some ml
    ∧ Core.asyncmsgq_event (core w') = Some e.
Proof.
  assert (∃ c w', pa_core_new (Some 50%positive) 1 toy_start = Returns (Some c) w')
    as (c & w' & Hrun) by (eexists _, _; vm_compute; reflexivity).
  destruct (core_new_wires_the_queue _ _ _ _ _ Hrun)
    as (q0 & q1 & ml & e & pre & _ & _ & _ & Htrace & _ & _ & Hml & He & _).
  exists c, w', ml, e. auto.
Defined.

(** The core just built stays settled whether clients are connected or
    not. *)
Lemma new_core_does_not_quit_when_idle_witness :
  ∃ c w',
    pa_core_new (Some 50%positive) 1 toy_start = Returns (Some c) w'
    ∧ Core.exit_idle_time (core w') = -1
    ∧ settled (set_outside (client_connects (outside w')) w').
Proof.
  assert (∃ c w', pa_core_new (Some 50%positive) 1 toy_start = Returns (Some c) w')
    as (c & w' & Hrun) by (eexists _, _; vm_compute; reflexivity).
  destruct (new_core_does_not_quit_when_idle _ _ _ _ _
              ltac:(intros c0 x; split; reflexivity) Hrun)
    as (_ & Hidle & Hsettled).
  exists c, w'. split; [exact Hrun|]. split; [exact Hidle|]. apply Hsettled.
Defined.

(** The core in use is destroyed with the message of scenario 1 still
    posted to it: the message's payload is released. *)
Lemma core_free_releases_the_queue_witness :
  ∃ w1 v tr,
    core_free_registries (Some 1%positive) toy_loaded = Returns tt w1
    ∧ core_free 2 (Some 1%positive) toy_loaded =
        core_free_rest
          (Build_core_world (core w1) (self w1) v (outside w1)
             (core_log w1 ++ [CallAsyncmsgqAfterPoll; CallAsyncmsgqFree]))
    ∧ payload_calls tr =
        [EvMsgobjectUnref 1%positive; EvMemblockUnref 3%positive;
         EvFreeCb 9%positive (Some 5%positive)]
    ∧ trace v = EvAfterPoll :: tr
        ++ [EvPop false None; EvAsyncqFree; EvMutexFree; EvQueueFree].
Proof.
  assert (∃ w1, core_free_registries (Some 1%positive) toy_loaded = Returns tt w1)
    as (w1 & Hreg) by (eexists; vm_compute; reflexivity).
  pose proof (core_free_releases_the_queue 2 (Some 1%positive) toy_loaded w1
                [10%positive] [posted_item] Hreg eq_refl
                ltac:(by repeat constructor) ltac:(apply NoDup_singleton)
                ltac:(simpl; lia)) as Hfree.
  cbn [forallb posted_item Item.semaphore nonnull negb andb] in Hfree.
  destruct Hfree as (v & tr & Hrun & _ & Htrace & _ & Hpay & _).
  exists w1, v, tr. auto.
Defined.

(** The message of scenario 1 is for the core and has code 7: the
    handler takes it and answers -1. *)
Lemma core_handler_accepts_what_get_delivers_witness :
  ∃ v l,
    pa_asyncmsgq_get (Some None) (Some 0) (Some None) (Some 0) (Some pa_memchunk_reset)
      false (queue toy_loaded) = Returns (0, l) v
    ∧ core_process_msg (Some 1%positive) 7 (Some 5%positive) 42
        (Some (Chunk.Mk (Some 3%positive) 0 16)) (set_queue v toy_loaded)
      = Returns (-1) (set_queue v toy_loaded).
Proof.
  assert (∃ v, pa_asyncmsgq_get (Some None) (Some 0) (Some None) (Some 0)
                 (Some pa_memchunk_reset) false (queue toy_loaded)
               = Returns (0, {| out_object := Some (Some 1%positive);
                                out_code := Some 7;
                                out_userdata := Some (Some 5%positive);
                                out_offset := Some 42;
                                out_chunk := Some (Chunk.Mk (Some 3%positive) 0 16) |}) v)
    as (v & Hget) by (eexists; vm_compute; reflexivity).
  eexists v, _. split; [exact Hget|].
  exact (core_handler_accepts_what_get_delivers _ _ _ _ _ _ toy_loaded v _ 42
           (Some (Chunk.Mk (Some 3%positive) 0 16)) Hget eq_refl).
Defined.

(** The life of a core: built, called back once by the main loop, and
    destroyed.  The calls on its queue keep the poll discipline from the
    first to the last, and leave the queue disarmed. *)
Lemma core_keeps_poll_discipline_witness :
  ∃ c w1 w2 w3 tr,
    pa_core_new (Some 50%positive) 1 toy_start = Returns (Some c) w1
    ∧ core_asyncmsgq_cb 3 3 PA_IO_EVENT_INPUT w1 = Returns tt w2
    ∧ core_free 3 (Some c) w2 = Returns tt w3
    ∧ trace (queue w3) = trace (queue toy_start) ++ tr
    ∧ poll_discipline false tr = Some false.
Proof.
  assert (∃ c w1 w2 w3,
            pa_core_new (Some 50%positive) 1 toy_start = Returns (Some c) w1
            ∧ core_asyncmsgq_cb 3 3 PA_IO_EVENT_INPUT w1 = Returns tt w2
            ∧ core_free 3 (Some c) w2 = Returns tt w3)
    as (c & w1 & w2 & w3 & Hnew & Hcb & Hfree)
    by (eexists _, _, _, _;
        (split; [vm_compute; reflexivity|]);
        (split; [vm_compute; reflexivity|]);
        vm_compute; reflexivity).
  destruct (@core_keeps_poll_discipline fifo Z toy_server _ _ _ _)
    as (Dnew & Dcb & Dfree).
  destruct (Dnew _ _ _ _ _ Hnew) as (tr1 & Htr1 & Hp1).
  destruct (Dcb _ _ _ _ _ Hcb) as (tr2 & Htr2 & Hp2).
  destruct (Dfree _ _ _ _ Hfree) as (tr3 & Htr3 & Hp3).
  exists c, w1, w2, w3, (tr1 ++ tr2 ++ tr3).
  split; [exact Hnew|]. split; [exact Hcb|]. split; [exact Hfree|].
  split; [by rewrite Htr3, Htr2, Htr1, <- !app_assoc|].
  rewrite poll_discipline_app, Hp1. simpl.
  rewrite poll_discipline_app, Hp2. exact Hp3.
Defined.
